(** * gitservice: an ephemeral registry of git snapshots served over HTTP

    A shallow embedding of [pkg/gitservice/gitservice.go] and the
    verification of its specification.

    The Go package keeps a map from source paths to [gitMapping]s.  [AddGit]
    builds, under a mutex, a temporary git repository holding a filtered copy
    of the source path, starts an HTTP git server on a free port in a
    goroutine and records the mapping; [Shutdown] stops every recorded server,
    removes every recorded temporary directory and waits for the goroutines.

    Layout of the development:
    - [GoStrings], [GoPath]: the functions of Go's [strings] and
      [path/filepath] packages the code calls;
    - [Tree]: directory trees and the recursive copy with a skip predicate;
    - [Gitservice]: the state, the collaborators, [createTmpRepository],
      [AddGit], [Shutdown], the goroutines and the executions;
    - [Scenario]: a small world with a source directory, an empty directory
      and collaborators that fail here or there;
    - [PathFacts], [TreeFacts]: lemmas on paths and on the copy;
    - [Properties]: the properties of the service, C1 to C10. *)

From Stdlib Require Import ZArith Ascii String.
From stdpp Require Import gmap strings list fin_maps pretty.

Local Open Scope Z_scope.

(** ** Go's [strings] package *)

Module GoStrings.

(** [strings.Split(s, sep)] for a one-byte separator: the substrings between
    the separators, so a string ending in the separator yields a final
    empty substring and the empty string yields one empty substring. *)
Fixpoint Split (s : string) (sep : ascii) : list string :=
  match s with
  | EmptyString => [EmptyString]
  | String c rest =>
      if decide (c = sep) then EmptyString :: Split rest sep
      else match Split rest sep with
           | [] => [String c EmptyString]
           | seg :: segs => String c seg :: segs
           end
  end.

(** [strings.HasSuffix(s, suffix)]. *)
Definition HasSuffix (s suffix : string) : bool :=
  String.prefix (String.rev suffix) (String.rev s).

(** [strings.TrimSuffix(s, suffix)]: [s] without the trailing [suffix], or
    [s] itself when it does not end with [suffix]. *)
Definition TrimSuffix (s suffix : string) : string :=
  if HasSuffix s suffix
  then String.substring 0 (String.length s - String.length suffix) s
  else s.

(** [strings.Join(elems, sep)]. *)
Definition Join (elems : list string) (sep : string) : string :=
  String.concat sep elems.

End GoStrings.

(** ** Go's [path/filepath] package (Unix: the separator is the slash) *)

Module GoPath.
Import GoStrings.

Definition Separator : ascii := "/"%char.

(** One step of [Clean]'s scan over the path elements.  [stk] is the
    output so far, last element first.  Empty elements and [.] are dropped;
    [..] removes the element before it, is dropped at the root, and is kept
    at the start of a path that is not rooted. *)
Definition clean_step (rooted : bool) (stk : list string) (c : string)
  : list string :=
  if decide (c = "") then stk
  else if decide (c = ".") then stk
  else if decide (c = "..") then
    match stk with
    | top :: below => if decide (top = "..") then c :: stk else below
    | [] => if rooted then [] else [c]
    end
  else c :: stk.

Definition clean_elems (rooted : bool) (path : string) : list string :=
  rev (foldl (clean_step rooted) [] (Split path Separator)).

(** [filepath.Clean(path)]: the shortest path name equivalent to [path] by
    purely lexical processing. *)
Definition Clean (path : string) : string :=
  if decide (path = "") then "."
  else
    let rooted := String.prefix "/" path in
    let elems := clean_elems rooted path in
    if rooted then "/" +:+ GoStrings.Join elems "/"
    else if decide (elems = []) then "." else GoStrings.Join elems "/".

(** [filepath.Join(elem...)]: the first non-empty element and those after
    it are joined with the separator and the result is cleaned; when every
    element is empty the result is the empty string. *)
Fixpoint Join (elem : list string) : string :=
  match elem with
  | [] => ""
  | e :: rest =>
      if decide (e = "") then Join rest
      else Clean (GoStrings.Join elem "/")
  end.

(** The last non-empty element of a list of path elements. *)
Definition last_elem (elems : list string) : option string :=
  last (filter (λ e, e ≠ "") elems).

(** [filepath.Base(path)]: the last element of [path], trailing slashes
    removed first; [.] for the empty path and the separator for a path of
    slashes only. *)
Definition Base (path : string) : string :=
  if decide (path = "") then "."
  else match last_elem (Split path Separator) with
       | Some b => b
       | None => "/"
       end.

(** A string without the byte [c]. *)
Fixpoint lacks (c : ascii) (s : string) : Prop :=
  match s with
  | EmptyString => True
  | String x rest => x ≠ c ∧ lacks c rest
  end.

(** An ordinary path element: not empty, not [.] nor [..], no slash. *)
Definition ordinary (name : string) : Prop :=
  name ≠ "" ∧ name ≠ "." ∧ name ≠ ".." ∧ lacks Separator name.

End GoPath.

(** ** Directory trees and the recursive copy *)

Module Tree.

(** What a directory holds: regular files and directories, each entry under
    its name.  (Symbolic links and special files, which the copy hands to
    handlers of their own, are left out.) *)
#[warnings="-register-all"] Inductive node :=
| File (content : string)
| Dir (entries : list (string * node)).

(** The walk of [copy.Copy(src, dest, Options{Skip: skip})] over the node at
    [src].  A directory is read entry by entry; the entry [name] has the
    source path [filepath.Join(src, name)], and is left out when [skip]
    answers true for that path.  The node the walk starts from is copied
    without consulting [skip]. *)
Fixpoint copy_node (skip : string → bool) (src : string) (n : node) : node :=
  match n with
  | File c => File c
  | Dir es =>
      Dir ((fix dcopy (es : list (string * node)) : list (string * node) :=
              match es with
              | [] => []
              | (name, child) :: rest =>
                  let cs := GoPath.Join [src; name] in
                  if skip cs then dcopy rest
                  else (name, copy_node skip cs child) :: dcopy rest
              end) es)
  end.

(** The entries loop of [copy_node], on its own. *)
Fixpoint copy_entries (skip : string → bool) (src : string)
    (es : list (string * node)) : list (string * node) :=
  match es with
  | [] => []
  | (name, child) :: rest =>
      let cs := GoPath.Join [src; name] in
      if skip cs then copy_entries skip src rest
      else (name, copy_node skip cs child) :: copy_entries skip src rest
  end.

(** The regular files at and below a node whose path, relative to the root
    of the tree, is [p]: each with its relative path and its content. *)
Fixpoint files_of (p : string) (n : node) : list (string * string) :=
  match n with
  | File c => [(p, c)]
  | Dir es =>
      (fix walk (es : list (string * node)) : list (string * string) :=
         match es with
         | [] => []
         | (name, child) :: rest =>
             files_of (p +:+ "/" +:+ name) child ++ walk rest
         end) es
  end.

Fixpoint files_of_entries (p : string) (es : list (string * node))
    : list (string * string) :=
  match es with
  | [] => []
  | (name, child) :: rest =>
      files_of (p +:+ "/" +:+ name) child ++ files_of_entries p rest
  end.

(** The files of a working tree, which is what there is to stage: the
    regular files below the root directory, under their paths relative to
    it.  Empty directories contribute nothing. *)
Fixpoint worktree_entries (es : list (string * node)) : list (string * string) :=
  match es with
  | [] => []
  | (name, child) :: rest => files_of name child ++ worktree_entries rest
  end.

Definition worktree_files (n : node) : list (string * string) :=
  match n with
  | File _ => []
  | Dir es => worktree_entries es
  end.

(** No entry of the tree, at any depth, is called [name]. *)
Fixpoint no_entry_named (name : string) (n : node) : Prop :=
  match n with
  | File _ => True
  | Dir es =>
      (fix all (es : list (string * node)) : Prop :=
         match es with
         | [] => True
         | (nm, child) :: rest =>
             nm ≠ name ∧ no_entry_named name child ∧ all rest
         end) es
  end.

Fixpoint no_entries_named (name : string) (es : list (string * node)) : Prop :=
  match es with
  | [] => True
  | (nm, child) :: rest =>
      nm ≠ name ∧ no_entry_named name child ∧ no_entries_named name rest
  end.

(** Induction on trees, with the hypothesis for every entry of a
    directory. *)
Fixpoint node_induction (P : node → Prop)
    (HFile : ∀ c, P (File c))
    (HDir : ∀ es, Forall (λ e, P e.2) es → P (Dir es))
    (n : node) : P n :=
  match n with
  | File c => HFile c
  | Dir es =>
      HDir es
        ((fix all (es : list (string * node)) : Forall (λ e, P e.2) es :=
            match es with
            | [] => @List.Forall_nil _ (λ e, P e.2)
            | (name, child) :: rest =>
                @List.Forall_cons _ (λ e, P e.2) (name, child) rest
                  (node_induction P HFile HDir child) (all rest)
            end) es)
  end.

End Tree.

(** ** The service *)

Module Gitservice.
Import Tree.

(** *** Values *)

(** Go's [error] values met by the code. *)
Inductive error :=
| ErrExist (path : string)             (* the directory already exists *)
| ErrNotExist (path : string)          (* lstat: no such file or directory *)
| ErrIsDir (path : string)             (* open: is a directory *)
| ErrIsBareRepository                  (* go-git: worktree of a bare repository *)
| ErrServerClosed                      (* net/http: the server was shut down *)
| ErrEmptyCommit                       (* go-git: nothing staged to commit *)
| ErrExternal (msg : string).          (* a failure reported by a collaborator *)

Definition Error (e : error) : string :=
  match e with
  | ErrExist p => "mkdir " +:+ p +:+ ": file exists"
  | ErrNotExist p => "lstat " +:+ p +:+ ": no such file or directory"
  | ErrIsDir p => "open " +:+ p +:+ ": is a directory"
  | ErrIsBareRepository => "worktree not available in a bare repository"
  | ErrServerClosed => "http: Server closed"
  | ErrEmptyCommit => "cannot create empty commit: clean working tree"
  | ErrExternal msg => msg
  end.

(** go-git: [object.Signature], a commit and a repository. *)
Record Signature := { Name : string; Email : string }.

Record Commit := {
  Message : string;
  Author : Signature;
  tracked : list (string * string)   (* the committed files: path, content *)
}.

Record Repository := {
  isBare : bool;
  index : list (string * string);    (* the staged files *)
  commits : list Commit
}.

(** A directory of the file system: its tree, and the repository go-git
    keeps in it once it was initialised there. *)
Record dirState := { root : node; gitDir : option Repository }.

(** gittp: [ServerConfig] and the two policies the code selects. *)
Inductive preCreate := UseGithubRepoNames.
Inductive preReceive := MasterOnly.

Record ServerConfig := {
  Path : string;
  Debug : bool;
  PreCreate : preCreate;
  PreReceive : preReceive
}.

(** net/http: [http.Server].  [Idle] before [ListenAndServe] has bound its
    listener, [Listening] once it has, [Closed] after [Shutdown]. *)
Inductive serverState := Idle | Listening | Closed.

Record httpServer := {
  Addr : string;
  Handler : ServerConfig;
  sstate : serverState
}.

(** A goroutine started by [AddGit]: the server it serves and how far it
    got ([Runnable]: started, [ListenAndServe] not entered yet; [Serving]:
    inside [ListenAndServe] with the listener bound; [Exited]: returned,
    [wg.Done] called). *)
Inductive goState := Runnable | Serving | Exited.

Record goroutine := { gserver : nat; gstate : goState }.

(** [gitMapping]; [server] points into the servers of the state. *)
Record gitMapping := {
  port : Z;
  server : nat;
  tmpDir : string
}.

#[global] Instance gitMapping_eq_dec : EqDecision gitMapping.
Proof. solve_decision. Defined.

(** What the logger received. *)
Inductive logLevel := LDebug | LError.

Record logEntry := { level : logLevel; format : string; args : list string }.

(** *** The state

    The fields of [gitService] ([mappings], [wg], and [logs] for what was
    sent to [log]) and the part of the machine the code acts on: the file
    system, the [http.Server] objects, the goroutines.  [gitService.mu] is
    held by [AddGit] from its first statement to its return, which makes
    every call of [AddGit] one indivisible step with respect to the others;
    that is how [AddGit] appears below, and the mutex has no field.
    [attempts] counts the calls of [os.MkdirTemp]. *)
Record State := {
  mappings : gmap string gitMapping;
  wg : nat;
  logs : list logEntry;
  disk : gmap string dirState;
  servers : list httpServer;
  goroutines : list goroutine;
  attempts : nat
}.

Definition set_mappings (f : gmap string gitMapping → gmap string gitMapping)
    (s : State) : State :=
  {| mappings := f (mappings s); wg := wg s; logs := logs s; disk := disk s;
     servers := servers s; goroutines := goroutines s; attempts := attempts s |}.

Definition set_wg (f : nat → nat) (s : State) : State :=
  {| mappings := mappings s; wg := f (wg s); logs := logs s; disk := disk s;
     servers := servers s; goroutines := goroutines s; attempts := attempts s |}.

Definition set_logs (f : list logEntry → list logEntry) (s : State) : State :=
  {| mappings := mappings s; wg := wg s; logs := f (logs s); disk := disk s;
     servers := servers s; goroutines := goroutines s; attempts := attempts s |}.

Definition set_disk (f : gmap string dirState → gmap string dirState)
    (s : State) : State :=
  {| mappings := mappings s; wg := wg s; logs := logs s; disk := f (disk s);
     servers := servers s; goroutines := goroutines s; attempts := attempts s |}.

Definition set_servers (f : list httpServer → list httpServer) (s : State)
    : State :=
  {| mappings := mappings s; wg := wg s; logs := logs s; disk := disk s;
     servers := f (servers s); goroutines := goroutines s;
     attempts := attempts s |}.

Definition set_goroutines (f : list goroutine → list goroutine) (s : State)
    : State :=
  {| mappings := mappings s; wg := wg s; logs := logs s; disk := disk s;
     servers := servers s; goroutines := f (goroutines s);
     attempts := attempts s |}.

Definition set_attempts (f : nat → nat) (s : State) : State :=
  {| mappings := mappings s; wg := wg s; logs := logs s; disk := disk s;
     servers := servers s; goroutines := goroutines s;
     attempts := f (attempts s) |}.

(** [New(l)]: no mapping, nothing waited for; the file system is the one
    the process finds. *)
Definition New (fs : gmap string dirState) : State :=
  {| mappings := ∅; wg := 0; logs := []; disk := fs;
     servers := []; goroutines := []; attempts := 0 |}.

(** *** Computations

    A Go function either returns or panics, and acts on the state on the way.
    A pair [(v, err)] returned by Go is a pair here, with [None] for a nil
    error. *)
Inductive outcome (A : Type) :=
| Val (a : A)
| Panic (reason : string).
Arguments Val {A} a.
Arguments Panic {A} reason.

Definition M (A : Type) : Type := State → outcome A * State.

Definition ret {A} (a : A) : M A := λ s, (Val a, s).

Definition bind {A B} (m : M A) (k : A → M B) : M B :=
  λ s, match m s with
       | (Val a, s') => k a s'
       | (Panic r, s') => (Panic r, s')
       end.

Definition panic {A} (reason : string) : M A := λ s, (Panic reason, s).
Definition gets {A} (f : State → A) : M A := λ s, (Val (f s), s).
Definition modify (f : State → State) : M unit := λ s, (Val tt, f s).

Notation "'let*' x ':=' m 'in' k" := (bind m (λ x, k))
  (at level 10, x pattern, m at level 100, k at level 200).

(** *** The collaborators

    What the operating system and the libraries answer is not decided by the
    code.  An [Env] fixes those answers: for the [n]-th build (the one whose
    [os.MkdirTemp] is the [n]-th call of it), the temporary name or the
    failure of [os.MkdirTemp], the output and exit status of [git ls-files],
    and whether the copy, [git.PlainInit], [AddGlob], [Commit],
    [gittp.NewGitServer] and [freeport.GetFreePort] fail; and for every
    server, whether its listener can be bound.

    [copyLeft]: the entries a copy that fails has written before it stops.
    [commitErr]: the answer [ErrEmptyCommit] stands for a go-git that
    refuses to commit an empty index (the code does not set
    [AllowEmptyCommits]); it is given for an empty index only.
    [shutdownEnds]: whether [Shutdown(context.Background())] of the server
    returns; it waits, without bound, until the connections of the server
    are idle. *)
Record Env := {
  mkdirTemp : nat → error + string;
  lsFiles : nat → string → string * string * option error;
  copyErr : nat → option error;
  copyLeft : nat → list (string * node);
  plainInitErr : nat → option error;
  addGlobErr : nat → option error;
  commitErr : nat → option error;
  newGitServerErr : nat → option error;
  getFreePort : nat → error + Z;
  listenErr : nat → option error;
  shutdownEnds : nat → bool
}.

Definition newline : ascii := "010"%char.

(** [gs.log.Debugf] and [gs.log.Errorf]. *)
Definition Debugf (fmt : string) (a : list string) : M unit :=
  modify (set_logs (λ l, l ++ [{| level := LDebug; format := fmt; args := a |}])).

Definition Errorf (fmt : string) (a : list string) : M unit :=
  modify (set_logs (λ l, l ++ [{| level := LError; format := fmt; args := a |}])).

(** The loop of [createTmpRepository] over the lines of the listing: each
    line loses one trailing slash, is joined to [path], and becomes a key of
    [ignore]. *)
Definition ignore_loop (path : string) (lines : list string)
    (ignore : gmap string bool) : gmap string bool :=
  foldl (λ ignore f,
           let f := GoStrings.TrimSuffix f "/" in
           let f := GoPath.Join [path; f] in
           <[f := true]> ignore)
        ignore lines.

(** The value of [ignore] after a listing that succeeded with the output
    [cmdOut]. *)
Definition ignore_of (path cmdOut : string) : gmap string bool :=
  if decide (0 < String.length cmdOut)%nat
  then ignore_loop path (GoStrings.Split cmdOut newline) ∅
  else ∅.

(** The function given to the copy as [Skip] (it reads only the source path
    of the entry, and its error result is always nil). *)
Definition Skip (ignore : gmap string bool) (src : string) : bool :=
  let ok := bool_decide (is_Some (ignore !! src)) in
  ok || bool_decide (GoPath.Base src = ".git").

(** A handle on a go-git repository ([*git.Repository]); a nil pointer is
    [None]. *)
Record repoHandle := { rpath : string; rbare : bool }.

Definition vulcan : Signature :=
  {| Name := "vulcan"; Email := "vulcan@adevinta.com" |}.

Definition set_root (n : node) (d : dirState) : dirState :=
  {| root := n; gitDir := gitDir d |}.

Definition set_gitDir (r : option Repository) (d : dirState) : dirState :=
  {| root := root d; gitDir := r |}.

Definition map_gitDir (f : Repository → Repository) (d : dirState) : dirState :=
  {| root := root d; gitDir := f <$> gitDir d |}.

(** The state after [AddGit] started a server for [path] on [p], from the
    state [s] the build left. *)
Definition started (path tmp : string) (p : Z) (s : State) : State :=
  {| mappings :=
       <[path := {| port := p; server := length (servers s); tmpDir := tmp |}]>
         (mappings s);
     wg := wg s + 1;
     logs := logs s ++
       [{| level := LDebug; format := "Starting git server path=%s port=%d";
           args := [path; pretty p] |}];
     disk := disk s;
     servers := servers s ++
       [{| Addr := "0.0.0.0:" +:+ pretty p;
           Handler := {| Path := tmp; Debug := false;
                         PreCreate := UseGithubRepoNames;
                         PreReceive := MasterOnly |};
           sstate := Idle |}];
     goroutines := goroutines s ++
       [{| gserver := length (servers s); gstate := Runnable |}];
     attempts := attempts s |}.

Section WithEnv.
Context (env : Env).

(** [os.MkdirTemp("", "")]: a new, empty directory under a name that was
    free.  The function tries random names until one is free and gives up
    with an error after many collisions; the name of the environment stands
    for the last one tried.

    The disk holds, under its path, each directory the properties speak
    of, with its own tree; that the new directory is also a new entry of
    the directory it is created in ([os.TempDir()]) is not recorded, and no
    property is stated of a directory the new one lies in. *)
Definition os_MkdirTemp : M (string * option error) :=
  let* n := gets attempts in
  let* _ := modify (set_attempts S) in
  match mkdirTemp env n with
  | inl e => ret ("", Some e)
  | inr name =>
      let* d := gets disk in
      match d !! name with
      | Some _ => ret ("", Some (ErrExist name))
      | None =>
          let* _ := modify (set_disk
                      <[name := {| root := Dir []; gitDir := None |}]>) in
          ret (name, None)
      end
  end.

(** [os.RemoveAll(path)], when it removes everything.  The error it
    returns when it cannot is dropped by the one caller (line 97); a removal
    that fails is not modelled, and nothing is claimed for it. *)
Definition os_RemoveAll (path : string) : M unit :=
  modify (set_disk (delete path)).

(** [exec.Command("git", "-C", path, "ls-files", "--exclude-standard",
    "-oi", "--directory")] run with its two buffers: standard output,
    standard error and the error of [Run]. *)
Definition git_ls_files (n : nat) (path : string)
    : M (string * string * option error) :=
  ret (lsFiles env n path).

(** [copy.Copy(src, dest, Options{Skip: skip})] into the empty directory
    [dest]: [src] must exist; a directory is copied entry by entry, and a
    regular file cannot be written over the directory [dest].  A copy that
    fails on the way stops at the entry it fails on and leaves in [dest]
    what it has written before ([copyLeft]). *)
Definition copy_Copy (n : nat) (src dest : string) (skip : string → bool)
    : M (option error) :=
  let* d := gets disk in
  match d !! src with
  | None => ret (Some (ErrNotExist src))
  | Some sd =>
      match copyErr env n with
      | Some e =>
          let* _ := modify (set_disk
                      (alter (set_root (Dir (copyLeft env n))) dest)) in
          ret (Some e)
      | None =>
          match root sd with
          | File _ => ret (Some (ErrIsDir dest))
          | Dir es =>
              let* _ := modify (set_disk
                          (alter (set_root (copy_node skip src (Dir es))) dest)) in
              ret None
          end
      end
  end.

(** [git.PlainInit(path, isBare)]: a nil repository with the error, or the
    new repository. *)
Definition git_PlainInit (n : nat) (path : string) (bare : bool)
    : M (option repoHandle * option error) :=
  match plainInitErr env n with
  | Some e => ret (None, Some e)
  | None =>
      let* _ := modify (set_disk (alter (set_gitDir
                  (Some {| isBare := bare; index := []; commits := [] |})) path)) in
      ret (Some {| rpath := path; rbare := bare |}, None)
  end.

(** [r.Worktree()].  The method reads a field of its receiver: on a nil
    receiver it panics. *)
Definition Worktree (r : option repoHandle)
    : M (option string * option error) :=
  match r with
  | None => panic "invalid memory address or nil pointer dereference"
  | Some h =>
      if rbare h then ret (None, Some ErrIsBareRepository)
      else ret (Some (rpath h), None)
  end.

(** [w.AddGlob(".")]: every file of the working tree is staged. *)
Definition AddGlob (n : nat) (w : option string) : M (option error) :=
  match w with
  | None => panic "invalid memory address or nil pointer dereference"
  | Some p =>
      match addGlobErr env n with
      | Some e => ret (Some e)
      | None =>
          let* _ := modify (set_disk (alter (λ d, map_gitDir (λ r,
                      {| isBare := isBare r; index := worktree_files (root d);
                         commits := commits r |}) d) p)) in
          ret None
      end
  end.

(** The index of the repository in the directory [p]. *)
Definition staged_at (d : gmap string dirState) (p : string)
    : list (string * string) :=
  match d !! p with
  | Some ds =>
      match gitDir ds with
      | Some r => index r
      | None => []
      end
  | None => []
  end.

(** What [Commit] answers, from the answer of the environment and the
    index: [ErrEmptyCommit] is the answer for an empty index only; with
    files staged, a go-git that refuses empty commits makes the commit. *)
Definition commit_answer (answer : option error)
    (staged : list (string * string)) : option error :=
  match answer with
  | Some ErrEmptyCommit =>
      match staged with
      | [] => Some ErrEmptyCommit
      | _ :: _ => None
      end
  | Some e => Some e
  | None => None
  end.

(** [w.Commit(msg, &git.CommitOptions{Author: author})]: a commit of the
    staged files.  The options leave [AllowEmptyCommits] unset. *)
Definition Worktree_Commit (n : nat) (w : option string) (msg : string)
    (author : Signature) : M (unit * option error) :=
  match w with
  | None => panic "invalid memory address or nil pointer dereference"
  | Some p =>
      let* d := gets disk in
      match commit_answer (commitErr env n) (staged_at d p) with
      | Some e => ret (tt, Some e)
      | None =>
          let* _ := modify (set_disk (alter (map_gitDir (λ r,
                      {| isBare := isBare r; index := index r;
                         commits := commits r ++
                           [{| Message := msg; Author := author;
                               tracked := index r |}] |})) p)) in
          ret (tt, None)
      end
  end.

(** [gittp.NewGitServer(config)]: the handler, which is its configuration
    here. *)
Definition gittp_NewGitServer (n : nat) (config : ServerConfig)
    : M (ServerConfig * option error) :=
  match newGitServerErr env n with
  | Some e => ret (config, Some e)
  | None => ret (config, None)
  end.

(** [freeport.GetFreePort()]. *)
Definition freeport_GetFreePort (n : nat) : M (Z * option error) :=
  match getFreePort env n with
  | inl e => ret (0, Some e)
  | inr p => ret (p, None)
  end.

(** [&http.Server{Addr: addr, Handler: handle}]: a new server object. *)
Definition new_http_Server (addr : string) (handle : ServerConfig) : M nat :=
  let* srvs := gets servers in
  let* _ := modify (set_servers (λ l,
              l ++ [{| Addr := addr; Handler := handle; sstate := Idle |}])) in
  ret (length srvs).

(** [go func() { r.server.ListenAndServe(); defer gs.wg.Done() }()]: the
    goroutine exists from here on; its steps are [serve] and [serve_return]
    below. *)
Definition go_serve (srv : nat) : M unit :=
  modify (set_goroutines (λ l, l ++ [{| gserver := srv; gstate := Runnable |}])).

Definition set_sstate (st : serverState) (sv : httpServer) : httpServer :=
  {| Addr := Addr sv; Handler := Handler sv; sstate := st |}.

(** [server.Shutdown(ctx)], what it does to the server: the listener, if
    any, is closed, and [ListenAndServe] returns or will return
    [ErrServerClosed].  The call then waits for the connections of the
    server to become idle; whether that wait ends is [shutdownEnds], which
    the loop of [Shutdown] below consults. *)
Definition http_Shutdown (srv : nat) : M unit :=
  modify (set_servers (alter (set_sstate Closed) srv)).

(** *** [createTmpRepository] *)
Definition createTmpRepository (path : string) : M (string * option error) :=
  let* n := gets attempts in
  let* (tmpRepositoryPath, err) := os_MkdirTemp in
  match err with
  | Some e => ret ("", Some e)
  | None =>
  let* (cmdOut, cmdErr, runErr) := git_ls_files n path in
  let* ignore :=
    match runErr with
    | Some _ =>
        let* _ := Debugf "find .gitignored files error: %s." [cmdErr] in
        ret (∅ : gmap string bool)
    | None => ret (ignore_of path cmdOut)
    end in
  let* err := copy_Copy n path tmpRepositoryPath (Skip ignore) in
  let* _ := Debugf "Copied %s to %s" [path; tmpRepositoryPath] in
  match err with
  | Some e =>
      let* _ := Errorf "Error coping tmp file: %s" [Error e] in
      ret ("", Some e)
  | None =>
  let* (r, _) := git_PlainInit n tmpRepositoryPath false in
  let* (w, err) := Worktree r in
  match err with
  | Some e =>
      let* _ := Errorf "Error opening worktree: %s" [Error e] in
      ret ("", Some e)
  | None =>
  let* _ := AddGlob n w in
  let* (_, err) := Worktree_Commit n w "" vulcan in
  match err with
  | Some e =>
      let* _ := Errorf "Error committing: %s" [Error e] in
      ret ("", Some e)
  | None => ret (tmpRepositoryPath, None)
  end end end end.

(** *** [AddGit] *)

(** The statements of [AddGit] after the lookup in [gs.mappings] missed. *)
Definition build_and_start (path : string) : M (Z * option error) :=
  let* n := gets attempts in
  let* (tmpDir, err) := createTmpRepository path in
  match err with
  | Some e => ret (0, Some e)
  | None =>
  let config := {| Path := tmpDir; Debug := false;
                   PreCreate := UseGithubRepoNames;
                   PreReceive := MasterOnly |} in
  let* (handle, err) := gittp_NewGitServer n config in
  match err with
  | Some e => ret (0, Some e)
  | None =>
  let* (port, err) := freeport_GetFreePort n in
  match err with
  | Some e => ret (0, Some e)
  | None =>
  let* srv := new_http_Server ("0.0.0.0:" +:+ pretty port) handle in
  let r := {| port := port; server := srv; tmpDir := tmpDir |} in
  let* _ := modify (set_mappings <[path := r]>) in
  let* _ := modify (set_wg (λ c, (c + 1)%nat)) in
  let* _ := Debugf "Starting git server path=%s port=%d" [path; pretty port] in
  let* _ := go_serve srv in
  ret (port, None)
  end end end.

Definition AddGit (path : string) : M (Z * option error) :=
  let* ms := gets mappings in
  match ms !! path with
  | Some mapping => ret (port mapping, None)
  | None => build_and_start path
  end.

(** *** [Shutdown] *)

(** The body of the loop of [Shutdown] for the mapping [m]. *)
Definition Shutdown_body (m : gitMapping) : M unit :=
  let* _ := http_Shutdown (server m) in
  os_RemoveAll (tmpDir m).

(** The loop over a list of mappings, in the order of the list. *)
Fixpoint Shutdown_range (ms : list gitMapping) : M unit :=
  match ms with
  | [] => ret tt
  | m :: rest => let* _ := Shutdown_body m in Shutdown_range rest
  end.

(** [for _, m := range gs.mappings { ... }], run to its end.  Go leaves
    the order of the iteration open: the loop runs over [order], which is
    any arrangement of the recorded mappings (with a list that is not one,
    there is no such run of the loop: [None]).  The loop comes to its end
    only if every [server.Shutdown] it calls returns ([None] otherwise).

    The loop is one step here.  [Shutdown] holds no lock, so in the code
    other calls can run while the loop is under way; a call of [AddGit]
    that writes the map during the range is a data race, and nothing below
    speaks of such a run. *)
Definition Shutdown_loop (order : list gitMapping) (s : State) : option State :=
  if decide (order ≡ₚ (map_to_list (mappings s)).*2 ∧
             Forall (λ m, shutdownEnds env (server m) = true) order)
  then Some (snd (Shutdown_range order s))
  else None.

(** [gs.wg.Wait()] returns when the counter is zero, and only then. *)
Definition wg_Wait (s : State) : option State :=
  if decide (wg s = 0%nat) then Some s else None.

(** *** The goroutines *)

Definition set_gstate (st : goState) (g : goroutine) : goroutine :=
  {| gserver := gserver g; gstate := st |}.

(** [ListenAndServe] has returned in goroutine [g]: the deferred
    [gs.wg.Done()] runs and the goroutine ends.  The error returned by
    [ListenAndServe] is dropped: nothing is logged, nothing reaches the
    caller of [AddGit]. *)
Definition finish (g : nat) (s : State) : State :=
  set_wg pred (set_goroutines (alter (set_gstate Exited) g) s).

(** Goroutine [g] enters [ListenAndServe].  On a server that was shut down
    the call returns at once; otherwise the listener is bound, and the call
    returns if that fails and serves if it succeeds. *)
Definition serve (g : nat) (s : State) : option State :=
  gr ← goroutines s !! g;
  sv ← servers s !! gserver gr;
  match gstate gr with
  | Runnable =>
      match sstate sv with
      | Closed => Some (finish g s)
      | _ =>
          match listenErr env (gserver gr) with
          | Some _ => Some (finish g s)
          | None =>
              Some (set_goroutines (alter (set_gstate Serving) g)
                     (set_servers (alter (set_sstate Listening) (gserver gr)) s))
          end
      end
  | _ => None
  end.

(** Goroutine [g] is serving and its server was shut down: [ListenAndServe]
    returns. *)
Definition serve_return (g : nat) (s : State) : option State :=
  gr ← goroutines s !! g;
  sv ← servers s !! gserver gr;
  match gstate gr, sstate sv with
  | Serving, Closed => Some (finish g s)
  | _, _ => None
  end.

(** Goroutine [g] is serving, its server was not shut down, and [Serve]
    fails (the listener reports an error that is not temporary):
    [ListenAndServe] closes the listener and returns the error, and the
    goroutine ends as after any other return. *)
Definition serve_fail (g : nat) (s : State) : option State :=
  gr ← goroutines s !! g;
  sv ← servers s !! gserver gr;
  match gstate gr, sstate sv with
  | Serving, Listening =>
      Some (finish g (set_servers (alter (set_sstate Idle) (gserver gr)) s))
  | _, _ => None
  end.

(** The goroutines of a list that have not returned yet. *)
Fixpoint live (gs : list goroutine) : nat :=
  match gs with
  | [] => 0
  | g :: rest =>
      (match gstate g with Exited => 0 | _ => 1 end + live rest)%nat
  end.

(** *** Executions

    What can happen, one step at a time: a call of [AddGit] (indivisible,
    under the mutex), the loop of [Shutdown], the return of its [wg.Wait],
    and the steps of a goroutine: it enters [ListenAndServe], and it
    returns from it after a shutdown or after a failure of [Serve].  A step
    that cannot happen in the state yields [None]. *)
Inductive event :=
| EvAddGit (path : string)
| EvShutdownLoop (order : list gitMapping)
| EvWaitReturn
| EvServe (g : nat)
| EvServeReturn (g : nat)
| EvServeFail (g : nat).

Definition exec (ev : event) (s : State) : option State :=
  match ev with
  | EvAddGit path => Some (snd (AddGit path s))
  | EvShutdownLoop order => Shutdown_loop order s
  | EvWaitReturn => wg_Wait s
  | EvServe g => serve g s
  | EvServeReturn g => serve_return g s
  | EvServeFail g => serve_fail g s
  end.

Fixpoint run (evs : list event) (s : State) : option State :=
  match evs with
  | [] => Some s
  | ev :: rest => s' ← exec ev s; run rest s'
  end.

(** [Shutdown()] as one call when nothing else runs in between: the loop,
    then every goroutine is let run to its end, then [Wait] returns. *)
Definition drain_step (s : State) (g : nat) : State :=
  match serve g s with
  | Some s' => match serve_return g s' with Some s'' => s'' | None => s' end
  | None => match serve_return g s with Some s' => s' | None => s end
  end.

Definition drain (s : State) : State :=
  foldl drain_step s (seq 0 (length (goroutines s))).

Definition Shutdown (order : list gitMapping) (s : State) : option State :=
  s1 ← Shutdown_loop order s; wg_Wait (drain s1).

(** *** Notions the properties are stated with *)

(** The wait group counts the goroutines that have not returned. *)
Definition wg_counts_live (s : State) : Prop := wg s = live (goroutines s).

(** Every goroutine that has not returned serves a server that exists and
    that a mapping records. *)
Definition served (s : State) : Prop :=
  ∀ g gr, goroutines s !! g = Some gr → gstate gr ≠ Exited →
    (gserver gr < length (servers s))%nat ∧
    ∃ path m, mappings s !! path = Some m ∧ server m = gserver gr.

(** The server [h], if there is one, was shut down. *)
Definition closed_at (s : State) (h : nat) : Prop :=
  ∀ sv, servers s !! h = Some sv → sstate sv = Closed.

(** The server of every goroutine that has not returned was shut down. *)
Definition all_closed (s : State) : Prop :=
  ∀ g gr, goroutines s !! g = Some gr → gstate gr ≠ Exited →
    ∃ sv, servers s !! gserver gr = Some sv ∧ sstate sv = Closed.

(** The exclusion set the build works with. *)
Definition exclusions (path : string) (n : nat) : gmap string bool :=
  match lsFiles env n path with
  | (cmdOut, _, None) => ignore_of path cmdOut
  | (_, _, Some _) => ∅
  end.

(** The snapshot: the filtered copy of the source tree, in a repository
    with one commit, by [vulcan], of what was staged. *)
Definition snapshot (tree : node) (staged : list (string * string)) : dirState :=
  {| root := tree;
     gitDir := Some {| isBare := false; index := staged;
                       commits := [{| Message := ""; Author := vulcan;
                                      tracked := staged |}] |} |}.

Definition staged_files (n : nat) (tree : node) : list (string * string) :=
  match addGlobErr env n with
  | None => worktree_files tree
  | Some _ => []
  end.

(** The collaborators of [env], with another answer about the listeners. *)
Definition with_listenErr (f : nat → option error) : Env :=
  {| mkdirTemp := mkdirTemp env; lsFiles := lsFiles env;
     copyErr := copyErr env; copyLeft := copyLeft env;
     plainInitErr := plainInitErr env;
     addGlobErr := addGlobErr env; commitErr := commitErr env;
     newGitServerErr := newGitServerErr env; getFreePort := getFreePort env;
     listenErr := f; shutdownEnds := shutdownEnds env |}.

End WithEnv.

End Gitservice.

(** ** A small world to run the service in *)

Module Scenario.
Import Tree Gitservice.

Definition tmpName (n : nat) : string := "/tmp/snap" +:+ pretty n.

(** A listing of two lines, the second a directory. *)
Definition two_lines : string :=
  "ignored.log" +:+ String newline ("build/" +:+ String newline "").

(** The output of the listing: one ignored file. *)
Definition listing : string := "ignored.log" +:+ String newline "".

(** A source directory under version control, and an empty one. *)
Definition repo_tree : node :=
  Dir [("a.txt", File "alpha");
       ("ignored.log", File "noise");
       (".git", Dir [("HEAD", File "ref: refs/heads/main")]);
       ("docs", Dir [("x.md", File "x"); (".git", File "gitdir: elsewhere")])].

Definition fs0 : gmap string dirState :=
  {[ "/repo" := {| root := repo_tree; gitDir := None |};
     "/empty" := {| root := Dir []; gitDir := None |} ]}.

(** Collaborators that never fail. *)
Definition healthy : Env :=
  {| mkdirTemp n := inr (tmpName n);
     lsFiles n path := (listing, "", None);
     copyErr n := None;
     copyLeft n := [];
     plainInitErr n := None;
     addGlobErr n := None;
     commitErr n := None;
     newGitServerErr n := None;
     getFreePort n := inr (5000 + Z.of_nat n);
     listenErr h := None;
     shutdownEnds h := true |}.

Definition no_free_port : error := ErrExternal "no free port".
Definition address_in_use : error :=
  ErrExternal "listen tcp 0.0.0.0:5000: bind: address already in use".
Definition init_failed : error := ErrExternal "mkdir .git: no space left on device".
Definition commit_failed : error := ErrExternal "write object: no space left on device".

(** No free port during the first build, one afterwards. *)
Definition no_port_once : Env :=
  {| mkdirTemp := mkdirTemp healthy; lsFiles := lsFiles healthy;
     copyErr := copyErr healthy; copyLeft := copyLeft healthy; plainInitErr := plainInitErr healthy;
     addGlobErr := addGlobErr healthy; commitErr := commitErr healthy;
     newGitServerErr := newGitServerErr healthy;
     getFreePort n := match n with
                      | O => inl no_free_port
                      | _ => getFreePort healthy n
                      end;
     listenErr := listenErr healthy;
     shutdownEnds := shutdownEnds healthy |}.

(** The port is taken by the time the listener is bound. *)
Definition no_bind : Env := with_listenErr healthy (λ _, Some address_in_use).

(** [git.PlainInit] fails. *)
Definition no_init : Env :=
  {| mkdirTemp := mkdirTemp healthy; lsFiles := lsFiles healthy;
     copyErr := copyErr healthy; copyLeft := copyLeft healthy; plainInitErr n := Some init_failed;
     addGlobErr := addGlobErr healthy; commitErr := commitErr healthy;
     newGitServerErr := newGitServerErr healthy;
     getFreePort := getFreePort healthy; listenErr := listenErr healthy;
     shutdownEnds := shutdownEnds healthy |}.

(** [Commit] fails. *)
Definition no_commit : Env :=
  {| mkdirTemp := mkdirTemp healthy; lsFiles := lsFiles healthy;
     copyErr := copyErr healthy; copyLeft := copyLeft healthy; plainInitErr := plainInitErr healthy;
     addGlobErr := addGlobErr healthy; commitErr n := Some commit_failed;
     newGitServerErr := newGitServerErr healthy;
     getFreePort := getFreePort healthy; listenErr := listenErr healthy;
     shutdownEnds := shutdownEnds healthy |}.

(** A go-git that refuses to commit an empty index. *)
Definition refuses_empty_commits : Env :=
  {| mkdirTemp := mkdirTemp healthy; lsFiles := lsFiles healthy;
     copyErr := copyErr healthy; copyLeft := copyLeft healthy;
     plainInitErr := plainInitErr healthy;
     addGlobErr := addGlobErr healthy;
     commitErr n := Some ErrEmptyCommit;
     newGitServerErr := newGitServerErr healthy;
     getFreePort := getFreePort healthy; listenErr := listenErr healthy;
     shutdownEnds := shutdownEnds healthy |}.

(** The mappings the service records in this world. *)
Definition mapping (p : Z) (srv n : nat) : gitMapping :=
  {| port := p; server := srv; tmpDir := tmpName n |}.

(** The port of a result, when the call returned. *)
Definition returned_port (r : outcome (Z * option error)) : option Z :=
  match r with
  | Val (p, _) => Some p
  | Panic _ => None
  end.

Definition returned_error (r : outcome (Z * option error)) : option error :=
  match r with
  | Val (_, e) => e
  | Panic _ => None
  end.

(** The state a run ends in ([s] itself when a step cannot happen). *)
Definition run_from (env : Env) (evs : list event) (s : State) : State :=
  default s (run env evs s).

End Scenario.

(** ** Further notions: trees, runs and the registry *)

Module Notions.
Import Tree Gitservice Scenario.

(** The tree without the entries called [name], at every depth. *)
Fixpoint prune (name : string) (n : node) : node :=
  match n with
  | File c => File c
  | Dir es =>
      Dir ((fix go (es : list (string * node)) : list (string * node) :=
              match es with
              | [] => []
              | (nm, child) :: rest =>
                  if decide (nm = name) then go rest
                  else (nm, prune name child) :: go rest
              end) es)
  end.

Fixpoint prune_entries (name : string) (es : list (string * node))
    : list (string * node) :=
  match es with
  | [] => []
  | (nm, child) :: rest =>
      if decide (nm = name) then prune_entries name rest
      else (nm, prune name child) :: prune_entries name rest
  end.

(** Every entry of the tree has an ordinary name, as the entries of a
    directory of a file system have. *)
Fixpoint ordinary_names (n : node) : Prop :=
  match n with
  | File _ => True
  | Dir es =>
      (fix all (es : list (string * node)) : Prop :=
         match es with
         | [] => True
         | (nm, child) :: rest =>
             GoPath.ordinary nm ∧ ordinary_names child ∧ all rest
         end) es
  end.

Fixpoint ordinary_entries (es : list (string * node)) : Prop :=
  match es with
  | [] => True
  | (nm, child) :: rest =>
      GoPath.ordinary nm ∧ ordinary_names child ∧ ordinary_entries rest
  end.

(** The first entry called [d]. *)
Fixpoint entry (d : string) (es : list (string * node)) : option node :=
  match es with
  | [] => None
  | (nm, child) :: rest => if decide (nm = d) then Some child else entry d rest
  end.

(** The node reached from [n] along the names [comps]. *)
Fixpoint descend (comps : list string) (n : node) : option node :=
  match comps with
  | [] => Some n
  | d :: rest =>
      match n with
      | File _ => None
      | Dir es =>
          match entry d es with
          | Some child => descend rest child
          | None => None
          end
      end
  end.

(** The source path the copy gives to the entry reached from the
    directory [src] along [comps]: one [filepath.Join] per level. *)
Definition descend_src (src : string) (comps : list string) : string :=
  foldl (λ acc d, GoPath.Join [acc; d]) src comps.

(** The outputs of [Clean]'s scan: elements that are not empty, not [.] and
    without a slash, with [..] only at the start of a path that is not
    rooted.  The list has the last element first. *)
Inductive scanned (rooted : bool) : list string → Prop :=
| scanned_nil : scanned rooted []
| scanned_cons e stk :
    scanned rooted stk →
    e ≠ "" → e ≠ "." → GoPath.lacks GoPath.Separator e →
    (e = ".." → rooted = false ∧ (stk = [] ∨ ∃ t, stk = ".." :: t)) →
    scanned rooted (e :: stk).

(** A relative path of ordinary elements. *)
Definition relative_path (comps : list string) : string :=
  GoStrings.Join comps "/".

(** A run in which the loop of [Shutdown] does not occur. *)
Definition is_shutdown_loop (ev : event) : bool :=
  match ev with
  | EvShutdownLoop _ => true
  | _ => false
  end.

Definition no_shutdown (evs : list event) : bool :=
  forallb (λ ev, negb (is_shutdown_loop ev)) evs.

(** A run in which the serving of goroutine [g] does not fail. *)
Definition is_failure_of (g : nat) (ev : event) : bool :=
  match ev with
  | EvServeFail g' => bool_decide (g' = g)
  | _ => false
  end.

Definition no_failure_of (g : nat) (evs : list event) : bool :=
  forallb (λ ev, negb (is_failure_of g ev)) evs.

(** The configuration [AddGit] gives to the server of the snapshot
    directory [tmp]. *)
Definition config_of (tmp : string) : ServerConfig :=
  {| Path := tmp; Debug := false;
     PreCreate := UseGithubRepoNames; PreReceive := MasterOnly |}.

(** Servers that differ in their state only, and goroutines likewise. *)
Definition alike (l l' : list httpServer) : Prop :=
  Forall2 (λ a b, Addr a = Addr b ∧ Handler a = Handler b) l l'.

Definition galike (l l' : list goroutine) : Prop :=
  Forall2 (λ a b, gserver a = gserver b) l l'.

(** The registry, the servers and the goroutines agree: one goroutine per
    server, in the order of their creation; one server per mapping, at the
    mapping's port and on the mapping's directory; no server under two
    paths. *)
Record consistent (s : State) : Prop := {
  cons_goroutines : length (goroutines s) = length (servers s);
  cons_size : size (mappings s) = length (servers s);
  cons_gserver : ∀ i gr, goroutines s !! i = Some gr → gserver gr = i;
  cons_server : ∀ path m, mappings s !! path = Some m →
    ∃ sv, servers s !! server m = Some sv ∧
          Addr sv = "0.0.0.0:" +:+ pretty (port m) ∧
          Handler sv = config_of (tmpDir m);
  cons_inj : ∀ p1 p2 m1 m2,
    mappings s !! p1 = Some m1 → mappings s !! p2 = Some m2 →
    server m1 = server m2 → p1 = p2
}.

(** The snapshot of every mapping is on the disk, a repository that is not
    bare, with one commit by [vulcan] with an empty message; and no
    directory is the snapshot of two paths. *)
Record snapshots_intact (s : State) : Prop := {
  snap_repo : ∀ path m, mappings s !! path = Some m →
    ∃ d repo c, disk s !! tmpDir m = Some d ∧ gitDir d = Some repo ∧
                isBare repo = false ∧ commits repo = [c] ∧
                Author c = vulcan ∧ Message c = "" ∧ tracked c = index repo;
  snap_inj : ∀ p1 p2 m1 m2,
    mappings s !! p1 = Some m1 → mappings s !! p2 = Some m2 →
    tmpDir m1 = tmpDir m2 → p1 = p2
}.

(** The listing fails: the source is not in a git working tree. *)
Definition not_a_repository : error := ErrExternal "exit status 128".

Definition no_listing : Env :=
  {| mkdirTemp := mkdirTemp healthy;
     lsFiles n path := ("", "fatal: not a git repository", Some not_a_repository);
     copyErr := copyErr healthy; copyLeft := copyLeft healthy; plainInitErr := plainInitErr healthy;
     addGlobErr := addGlobErr healthy; commitErr := commitErr healthy;
     newGitServerErr := newGitServerErr healthy;
     getFreePort := getFreePort healthy; listenErr := listenErr healthy;
     shutdownEnds := shutdownEnds healthy |}.

(** A listing with a file, a directory and a nested file. *)
Definition deep_listing : string :=
  "ignored.log" +:+ String newline
    ("build/" +:+ String newline ("docs/tmp/x.o" +:+ String newline "")).

Definition deep_tree : node :=
  Dir [("a.txt", File "alpha");
       ("ignored.log", File "noise");
       ("build", Dir [("out.bin", File "0101")]);
       ("docs", Dir [("x.md", File "x");
                     ("tmp", Dir [("x.o", File "obj"); ("keep.md", File "k")])])].

Definition fs1 : gmap string dirState :=
  {[ "/work" := {| root := deep_tree; gitDir := None |} ]}.

Definition deep : Env :=
  {| mkdirTemp := mkdirTemp healthy;
     lsFiles n path := (deep_listing, "", None);
     copyErr := copyErr healthy; copyLeft := copyLeft healthy; plainInitErr := plainInitErr healthy;
     addGlobErr := addGlobErr healthy; commitErr := commitErr healthy;
     newGitServerErr := newGitServerErr healthy;
     getFreePort := getFreePort healthy; listenErr := listenErr healthy;
     shutdownEnds := shutdownEnds healthy |}.

(** The skip function answers false for the source path of every entry on
    the way from the directory [src] along [comps]. *)
Fixpoint kept_along (skip : string → bool) (src : string)
    (comps : list string) : bool :=
  match comps with
  | [] => true
  | d :: rest =>
      negb (skip (GoPath.Join [src; d])) &&
      kept_along skip (GoPath.Join [src; d]) rest
  end.

(** Goroutine [g] is inside [ListenAndServe], on a server that was not shut
    down. *)
Definition listening_at (g : nat) (s : State) : Prop :=
  ∃ gr sv, goroutines s !! g = Some gr ∧ gstate gr = Serving ∧
           servers s !! gserver gr = Some sv ∧ sstate sv ≠ Closed.

(** The copy fails on the way. *)
Definition copy_failed : error :=
  ErrExternal "open /repo/docs/x.md: permission denied".

Definition no_copy : Env :=
  {| mkdirTemp := mkdirTemp healthy; lsFiles := lsFiles healthy;
     copyErr n := Some copy_failed;
     copyLeft n := [("a.txt", File "alpha"); ("docs", Dir [])];
     plainInitErr := plainInitErr healthy;
     addGlobErr := addGlobErr healthy; commitErr := commitErr healthy;
     newGitServerErr := newGitServerErr healthy;
     getFreePort := getFreePort healthy; listenErr := listenErr healthy;
     shutdownEnds := shutdownEnds healthy |}.

End Notions.

(** * Facts about paths *)

Module PathExamples.
Import GoStrings GoPath Scenario.

Example Split_lines : Split two_lines Gitservice.newline = ["ignored.log"; "build/"; ""].
Proof. reflexivity. Qed.
Example Split_empty : Split "" Gitservice.newline = [""].
Proof. reflexivity. Qed.
Example TrimSuffix_dir : TrimSuffix "build/" "/" = "build".
Proof. reflexivity. Qed.
Example TrimSuffix_file : TrimSuffix "ignored.log" "/" = "ignored.log".
Proof. reflexivity. Qed.
Example TrimSuffix_empty : TrimSuffix "" "/" = "".
Proof. reflexivity. Qed.
Example Clean_1 : Clean "/a/b/../c/" = "/a/c".
Proof. reflexivity. Qed.
Example Clean_2 : Clean "a/../.." = "..".
Proof. reflexivity. Qed.
Example Clean_3 : Clean "/.." = "/".
Proof. reflexivity. Qed.
Example Clean_4 : Clean "a//b/./c" = "a/b/c".
Proof. reflexivity. Qed.
Example Clean_5 : Clean "./" = ".".
Proof. reflexivity. Qed.
Example Join_root : Join ["/repo"; ""] = "/repo".
Proof. reflexivity. Qed.
Example Join_slash : Join ["/repo/"; ""] = "/repo".
Proof. reflexivity. Qed.
Example Join_empty : Join [""; ""] = "".
Proof. reflexivity. Qed.
Example Join_child : Join ["/repo"; "a.txt"] = "/repo/a.txt".
Proof. reflexivity. Qed.
Example Base_1 : Base "/repo/.git" = ".git".
Proof. reflexivity. Qed.
Example Base_2 : Base "/repo/" = "repo".
Proof. reflexivity. Qed.
Example Base_3 : Base "///" = "/".
Proof. reflexivity. Qed.
Example Base_4 : Base "" = ".".
Proof. reflexivity. Qed.
End PathExamples.

Module PathFacts.
Import GoStrings GoPath.

Lemma app_cons c a b : String c a +:+ b = String c (a +:+ b).
Proof. reflexivity. Qed.

Lemma app_empty_l a : "" +:+ a = a.
Proof. reflexivity. Qed.

Lemma app_assoc a b c : (a +:+ b) +:+ c = a +:+ (b +:+ c).
Proof. induction a as [|x a IH]; [done|]. rewrite !app_cons. by f_equal. Qed.

Lemma app_eq_empty a b : a +:+ b = "" → a = "" ∧ b = "".
Proof. destruct a; [done|]. rewrite app_cons. done. Qed.

Lemma Split_nonempty s sep : Split s sep ≠ [].
Proof.
  destruct s as [|c s]; simpl; [done|].
  case_decide; [done|]. destruct (Split s sep); done.
Qed.

Lemma Split_app_sep a b sep :
  Split (a +:+ String sep b) sep = Split a sep ++ Split b sep.
Proof.
  induction a as [|c a IH].
  - rewrite app_empty_l. simpl. by rewrite decide_True.
  - rewrite app_cons. simpl. case_decide.
    + by rewrite IH.
    + rewrite IH. pose proof (Split_nonempty a sep).
      destruct (Split a sep); done.
Qed.

Lemma Split_lacks s sep : lacks sep s → Split s sep = [s].
Proof.
  induction s as [|c s IH]; simpl; [done|].
  intros [Hc Hs]. rewrite decide_False by done. by rewrite IH.
Qed.

Lemma concat_snoc sep l x :
  String.concat sep (l ++ [x]) =
  if decide (l = []) then x else String.concat sep l +:+ sep +:+ x.
Proof.
  induction l as [|y l IH]; [done|].
  rewrite decide_False by done. simpl.
  destruct l as [|z l].
  - done.
  - rewrite decide_False in IH by done.
    change (String.concat sep ((y :: z :: l) ++ [x]))
      with (y +:+ sep +:+ String.concat sep ((z :: l) ++ [x])).
    rewrite IH.
    change (String.concat sep (y :: z :: l))
      with (y +:+ sep +:+ String.concat sep (z :: l)).
    by rewrite !app_assoc.
Qed.

Lemma clean_step_ordinary rooted stk name :
  ordinary name → clean_step rooted stk name = name :: stk.
Proof.
  intros (? & ? & ? & ?). unfold clean_step.
  by rewrite !decide_False.
Qed.

(** Cleaning a path that ends in an ordinary element keeps that element
    last: the result is the element itself or ends in a slash and the
    element. *)
Lemma Clean_child src name :
  ordinary name →
  ∃ pre, Clean (src +:+ String Separator name) = pre +:+ name ∧
         (pre = "" ∨ ∃ q, pre = q +:+ "/").
Proof.
  intros Hn. unfold Clean.
  rewrite decide_False; last first.
  { intros [_ ?]%app_eq_empty. done. }
  unfold clean_elems. rewrite Split_app_sep, foldl_app.
  rewrite (Split_lacks name) by apply Hn. simpl.
  rewrite clean_step_ordinary by done.
  set (rooted := String.prefix _ _).
  set (stk := foldl _ _ _). simpl. unfold GoStrings.Join.
  rewrite concat_snoc.
  destruct (decide (rev stk ++ [name] = [])) as [Heq|_];
    [by destruct (rev stk)|].
  destruct rooted.
  - case_decide as Hs.
    + exists "/". split; [done|]. right. by exists "".
    + exists (("/" +:+ String.concat "/" (rev stk)) +:+ "/").
      split; [by rewrite !app_assoc|]. right. by eexists.
  - case_decide as Hs.
    + exists "". split; [done|]. by left.
    + exists (String.concat "/" (rev stk) +:+ "/").
      split; [by rewrite !app_assoc|]. right. by eexists.
Qed.

Lemma prefix_sep_cons c s :
  c ≠ Separator → String.prefix "/" (String c s) = false.
Proof.
  intros Hc.
  change (String.prefix "/" (String c s))
    with (if ascii_dec "/" c then String.prefix "" s else false).
  destruct (ascii_dec "/" c) as [<-|]; done.
Qed.

Lemma Clean_ordinary name : ordinary name → Clean name = name.
Proof.
  intros Hn. pose proof Hn as (H1 & H2 & H3 & H4).
  unfold Clean, clean_elems. rewrite decide_False by done.
  rewrite Split_lacks by done. simpl foldl. rewrite clean_step_ordinary by done.
  destruct name as [|c name]; [done|].
  destruct H4 as [Hc _]. by rewrite prefix_sep_cons.
Qed.

Lemma last_elem_snoc l name : name ≠ "" → last_elem (l ++ [name]) = Some name.
Proof.
  intros Hn. unfold last_elem. rewrite filter_app, filter_cons_True by done.
  rewrite filter_nil. apply last_snoc.
Qed.

Lemma Base_child pre name :
  ordinary name → pre = "" ∨ (∃ q, pre = q +:+ "/") →
  Base (pre +:+ name) = name.
Proof.
  intros Hn Hpre. pose proof Hn as (H1 & H2 & H3 & H4). unfold Base.
  rewrite decide_False; last first.
  { intros [_ ?]%app_eq_empty. done. }
  destruct Hpre as [->|[q ->]].
  - rewrite app_empty_l, Split_lacks by done.
    unfold last_elem. rewrite filter_cons_True by done. done.
  - rewrite app_assoc. change ("/" +:+ name) with (String Separator name).
    rewrite Split_app_sep, (Split_lacks name) by done.
    by rewrite last_elem_snoc.
Qed.

(** The base name of the path the copy gives to the entry [name] of the
    directory [src] is [name]. *)
Lemma Base_Join_child src name :
  ordinary name → Base (Join [src; name]) = name.
Proof.
  intros Hn. pose proof Hn as (H1 & H2 & H3 & H4). simpl.
  case_decide as Hs.
  - rewrite decide_False by done. unfold GoStrings.Join. simpl.
    rewrite Clean_ordinary by done.
    apply (Base_child "" name); auto.
  - unfold GoStrings.Join. simpl.
    change (src +:+ "/" +:+ name) with (src +:+ String Separator name).
    destruct (Clean_child src name Hn) as (pre & -> & Hpre).
    by apply Base_child.
Qed.

Lemma ordinary_dotgit : ordinary ".git".
Proof. repeat split; done. Qed.

End PathFacts.

(** * Facts about trees and the copy *)

Module TreeFacts.
Import Tree Gitservice PathFacts.
Import GoStrings GoPath.

Lemma copy_node_Dir skip src es :
  copy_node skip src (Dir es) = Dir (copy_entries skip src es).
Proof.
  simpl. f_equal. induction es as [|[name child] es IH]; simpl; [done|].
  by rewrite IH.
Qed.

Lemma files_of_Dir p es : files_of p (Dir es) = files_of_entries p es.
Proof.
  simpl. induction es as [|[name child] es IH]; simpl; [done|]. by rewrite IH.
Qed.

Lemma no_entry_named_Dir name es :
  no_entry_named name (Dir es) ↔ no_entries_named name es.
Proof.
  simpl. induction es as [|[nm child] es IH]; simpl; [done|]. by rewrite IH.
Qed.

Lemma copy_entries_elem skip src es name n' :
  (name, n') ∈ copy_entries skip src es →
  skip (Join [src; name]) = false ∧
  ∃ n, (name, n) ∈ es ∧ n' = copy_node skip (Join [src; name]) n.
Proof.
  induction es as [|[nm child] es IH]; cbn [copy_entries].
  - by intros ?%elem_of_nil.
  - destruct (skip (Join [src; nm])) eqn:Hsk.
    + intros (? & n & ? & ?)%IH. split; [done|]. exists n. split; [|done].
      by apply elem_of_cons; right.
    + intros [Heq|Hin]%elem_of_cons.
      * simplify_eq. split; [done|]. exists child. split; [|done].
        by apply elem_of_cons; left.
      * apply IH in Hin as (? & n & ? & ?). split; [done|]. exists n.
        split; [|done]. by apply elem_of_cons; right.
Qed.

Lemma copy_entries_intro skip src es name n :
  (name, n) ∈ es → skip (Join [src; name]) = false →
  (name, copy_node skip (Join [src; name]) n) ∈ copy_entries skip src es.
Proof.
  intros Hin Hsk. induction es as [|[nm child] es IH]; cbn [copy_entries].
  - by apply elem_of_nil in Hin.
  - apply elem_of_cons in Hin as [Heq|Hin].
    + simplify_eq. rewrite Hsk. by apply elem_of_cons; left.
    + destruct (skip (Join [src; nm])); [by apply IH|].
      apply elem_of_cons; right. by apply IH.
Qed.

(** The copy leaves out every entry called [.git], at every depth. *)
Lemma copy_node_no_dotgit ignore src n :
  no_entry_named ".git" (copy_node (Skip ignore) src n).
Proof.
  revert src. induction n as [c|es IH] using node_induction; intros src.
  - done.
  - rewrite copy_node_Dir. apply no_entry_named_Dir.
    induction es as [|[nm child] es IHes]; cbn [copy_entries]; [done|].
    apply Forall_cons in IH as [IHchild IHrest].
    destruct (Skip ignore (Join [src; nm])) eqn:Hsk; [by apply IHes|].
    cbn [no_entries_named]. split_and!.
    + intros ->. unfold Skip in Hsk.
      rewrite (Base_Join_child src ".git" ordinary_dotgit) in Hsk.
      rewrite (bool_decide_eq_true_2 (".git" = ".git")) in Hsk by done.
      by rewrite orb_true_r in Hsk.
    + apply IHchild.
    + by apply IHes.
Qed.

Lemma lacks_app_sep c a b : ¬ lacks c (a +:+ String c b).
Proof.
  induction a as [|x a IH].
  - rewrite app_empty_l. simpl. by intros [? _].
  - rewrite app_cons. simpl. intros [_ ?]. done.
Qed.

Lemma files_of_path p n q c :
  (q, c) ∈ files_of p n →
  (q = p ∧ n = File c) ∨ (∃ r, q = p +:+ "/" +:+ r).
Proof.
  revert p. induction n as [c'|es IH] using node_induction; intros p.
  - simpl. intros Hin%list_elem_of_singleton. simplify_eq. by left.
  - rewrite files_of_Dir. intros Hin. right.
    induction es as [|[nm child] es IHes]; cbn [files_of_entries] in Hin.
    + by apply elem_of_nil in Hin.
    + apply Forall_cons in IH as [IHchild IHrest].
      apply elem_of_app in Hin as [Hin|Hin]; [|by apply IHes].
      apply IHchild in Hin as [[-> _]|[r ->]].
      * by exists nm.
      * exists (nm +:+ "/" +:+ r). by rewrite !app_assoc.
Qed.

(** A file of the working tree whose path has no slash is an entry of the
    root directory. *)
Lemma worktree_entries_top es q c :
  (q, c) ∈ worktree_entries es → lacks Separator q → (q, File c) ∈ es.
Proof.
  intros Hin Hq. induction es as [|[nm child] es IH]; cbn [worktree_entries] in Hin.
  - by apply elem_of_nil in Hin.
  - apply elem_of_app in Hin as [Hin|Hin].
    + apply files_of_path in Hin as [[-> ->]|[r ->]].
      * by apply elem_of_cons; left.
      * by apply lacks_app_sep in Hq.
    + apply elem_of_cons; right. by apply IH.
Qed.

Lemma worktree_entries_file es name c :
  (name, File c) ∈ es → (name, c) ∈ worktree_entries es.
Proof.
  intros Hin. induction es as [|[nm child] es IH]; cbn [worktree_entries].
  - by apply elem_of_nil in Hin.
  - apply elem_of_app. apply elem_of_cons in Hin as [Heq|Hin].
    + simplify_eq. left. simpl. by apply list_elem_of_singleton.
    + right. by apply IH.
Qed.

End TreeFacts.

(** * The properties of the service *)

Module Properties.
Import Tree Gitservice PathFacts TreeFacts.

#[local] Arguments copy_node : simpl never.
#[local] Arguments GoPath.Join : simpl never.
#[local] Arguments ignore_of : simpl never.
#[local] Arguments Skip : simpl never.
#[local] Arguments worktree_files : simpl never.

Ltac unfold_M :=
  unfold createTmpRepository, os_MkdirTemp, os_RemoveAll,
    git_ls_files, copy_Copy, git_PlainInit, Worktree, AddGlob, Worktree_Commit,
    gittp_NewGitServer, freeport_GetFreePort, new_http_Server, go_serve,
    http_Shutdown, Debugf, Errorf, bind, ret, gets, modify, panic in *.

Ltac cases := repeat (simplify_eq/=; try case_match).

Section WithEnv.
Context (env : Env).

Lemma createTmpRepository_frame path s :
  let s' := snd (createTmpRepository env path s) in
  mappings s' = mappings s ∧ wg s' = wg s ∧ servers s' = servers s ∧
  goroutines s' = goroutines s ∧ attempts s' = S (attempts s).
Proof. unfold_M. simpl. cases; done. Qed.

Lemma build_and_start_unfold path s :
  build_and_start env path s =
  match createTmpRepository env path s with
  | (Panic r, s1) => (Panic r, s1)
  | (Val (tmp, Some e), s1) => (Val (0, Some e), s1)
  | (Val (tmp, None), s1) =>
      match newGitServerErr env (attempts s) with
      | Some e => (Val (0, Some e), s1)
      | None =>
          match getFreePort env (attempts s) with
          | inl e => (Val (0, Some e), s1)
          | inr p => (Val (p, None), started path tmp p s1)
          end
      end
  end.
Proof.
  unfold build_and_start. unfold bind at 1, gets at 1. unfold bind at 1.
  destruct (createTmpRepository env path s) as [[[tmp [e|]]|r] s1]; try done.
  unfold gittp_NewGitServer, freeport_GetFreePort, new_http_Server, go_serve,
    Debugf, bind, ret, gets, modify. simpl.
  destruct (newGitServerErr env (attempts s)); [done|]. simpl.
  destruct (getFreePort env (attempts s)); done.
Qed.

Lemma AddGit_unfold path s :
  AddGit env path s =
  match mappings s !! path with
  | Some mapping => (Val (port mapping, None), s)
  | None => build_and_start env path s
  end.
Proof.
  unfold AddGit, bind, gets. by destruct (mappings s !! path).
Qed.

Lemma AddGit_hit path s m :
  mappings s !! path = Some m → AddGit env path s = (Val (port m, None), s).
Proof. intros H. by rewrite AddGit_unfold, H. Qed.

(** What [build_and_start] does to the registry: nothing, or one new
    mapping under the requested path. *)
Lemma build_and_start_mappings path s :
  let s' := snd (build_and_start env path s) in
  mappings s' = mappings s ∨
  ∃ m, mappings s' = <[path := m]> (mappings s).
Proof.
  rewrite build_and_start_unfold.
  pose proof (createTmpRepository_frame path s) as (F & _).
  destruct (createTmpRepository env path s) as [[[tmp [e|]]|r] s1];
    simpl in *; auto.
  destruct (newGitServerErr env (attempts s)); simpl; auto.
  destruct (getFreePort env (attempts s)); simpl; auto.
  right. rewrite F. eauto.
Qed.

Lemma AddGit_ok_mapping path s p s1 :
  AddGit env path s = (Val (p, None), s1) →
  ∃ m, mappings s1 !! path = Some m ∧ port m = p.
Proof.
  rewrite AddGit_unfold. destruct (mappings s !! path) as [m|] eqn:Hm.
  - intros; simplify_eq. eauto.
  - rewrite build_and_start_unfold.
    destruct (createTmpRepository env path s) as [[[tmp [e|]]|r] s0]; try done.
    destruct (newGitServerErr env (attempts s)); [done|].
    destruct (getFreePort env (attempts s)); [done|].
    intros; simplify_eq. eexists. split; [apply lookup_insert_eq|done].
Qed.

Lemma Shutdown_range_frame ms s :
  let s' := snd (Shutdown_range ms s) in
  fst (Shutdown_range ms s) = Val tt ∧
  mappings s' = mappings s ∧ wg s' = wg s ∧ goroutines s' = goroutines s ∧
  logs s' = logs s.
Proof.
  revert s. induction ms as [|m ms IH]; intros s; [done|].
  cbn [Shutdown_range]. unfold bind at 1. unfold Shutdown_body.
  unfold http_Shutdown, os_RemoveAll, bind, modify. simpl.
  set (s1 := set_disk _ _). destruct (IH s1) as (? & ? & ? & ? & ?).
  by split_and!.
Qed.

Lemma Shutdown_loop_frame order s s' :
  Shutdown_loop env order s = Some s' →
  mappings s' = mappings s ∧ wg s' = wg s ∧ goroutines s' = goroutines s ∧
  logs s' = logs s.
Proof.
  unfold Shutdown_loop. case_decide; [|done]. intros; simplify_eq.
  by destruct (Shutdown_range_frame order s) as (_ & ?).
Qed.

Lemma serve_frame g s s' :
  serve env g s = Some s' →
  mappings s' = mappings s ∧ logs s' = logs s ∧ disk s' = disk s.
Proof.
  unfold serve, finish. intros H.
  destruct (goroutines s !! g) as [gr|]; [|done]. simpl in H.
  destruct (servers s !! gserver gr) as [sv|]; [|done]. simpl in H.
  cases; done.
Qed.

Lemma serve_return_frame g s s' :
  serve_return g s = Some s' →
  mappings s' = mappings s ∧ logs s' = logs s ∧ disk s' = disk s.
Proof.
  unfold serve_return, finish. intros H.
  destruct (goroutines s !! g) as [gr|]; [|done]. simpl in H.
  destruct (servers s !! gserver gr) as [sv|]; [|done]. simpl in H.
  cases; done.
Qed.

(** A recorded mapping is never replaced nor removed. *)
Lemma serve_fail_inv g s s' :
  serve_fail g s = Some s' →
  ∃ gr sv, goroutines s !! g = Some gr ∧ gstate gr = Serving ∧
           servers s !! gserver gr = Some sv ∧ sstate sv = Listening ∧
           s' = finish g (set_servers (alter (set_sstate Idle) (gserver gr)) s).
Proof.
  unfold serve_fail. intros H.
  destruct (goroutines s !! g) as [gr|] eqn:Hg; [|done]. simpl in H.
  destruct (servers s !! gserver gr) as [sv|] eqn:Hsv; [|done]. simpl in H.
  destruct (gstate gr) eqn:Hst; [done| |done].
  destruct (sstate sv) eqn:Hss; simplify_eq. by exists gr, sv.
Qed.

Lemma serve_fail_frame g s s' :
  serve_fail g s = Some s' →
  mappings s' = mappings s ∧ logs s' = logs s ∧ disk s' = disk s.
Proof. by intros (gr & sv & _ & _ & _ & _ & ->)%serve_fail_inv. Qed.

Lemma exec_mapping_stable ev s s' path m :
  exec env ev s = Some s' →
  mappings s !! path = Some m → mappings s' !! path = Some m.
Proof.
  intros Hex Hm. destruct ev as [q|order| |g|g|g]; simpl in Hex.
  - simplify_eq. rewrite AddGit_unfold.
    destruct (mappings s !! q) as [mq|] eqn:Hq; [done|].
    destruct (build_and_start_mappings q s) as [->|[m' ->]]; [done|].
    rewrite lookup_insert_ne; [done|]. intros ->. congruence.
  - by apply Shutdown_loop_frame in Hex as (-> & _).
  - unfold wg_Wait in Hex. case_decide; by simplify_eq.
  - by apply serve_frame in Hex as (-> & _).
  - by apply serve_return_frame in Hex as (-> & _).
  - by apply serve_fail_frame in Hex as (-> & _).
Qed.

Lemma run_mapping_stable evs s s' path m :
  run env evs s = Some s' →
  mappings s !! path = Some m → mappings s' !! path = Some m.
Proof.
  revert s. induction evs as [|ev evs IH]; intros s; simpl.
  - by intros; simplify_eq.
  - destruct (exec env ev s) as [s1|] eqn:Hex; [|done]. simpl.
    intros Hrun Hm. eapply IH; [done|]. by eapply exec_mapping_stable.
Qed.

(** C1, as amended: once [AddGit] has returned a port for [path] with a nil
    error, every later [AddGit] of [path], after whatever else happened in
    between (other calls of [AddGit], steps of the goroutines, and the
    loop of [Shutdown], in any order, run from its start to its end with no
    call of [AddGit] during it), returns that port with a nil error and
    changes nothing: no other snapshot directory, server or goroutine is
    created for [path].  The mapping recorded for [path] is still the same
    one; a map holds at most one per path.  Nothing is said of a call of
    [AddGit] that runs while the loop of [Shutdown] is under way:
    [Shutdown] takes no lock, and that is a data race on the map. *)
Theorem C1_AddGit_idempotent path s p s1 evs s2 :
  AddGit env path s = (Val (p, None), s1) →
  run env evs s1 = Some s2 →
  AddGit env path s2 = (Val (p, None), s2) ∧
  mappings s2 !! path = mappings s1 !! path ∧
  ∃ m, mappings s2 !! path = Some m ∧ port m = p.
Proof.
  intros Hadd Hrun.
  destruct (AddGit_ok_mapping _ _ _ _ Hadd) as (m & Hm & Hp).
  pose proof (run_mapping_stable _ _ _ _ _ Hrun Hm) as Hm2.
  split_and!.
  - rewrite (AddGit_hit _ _ m) by done. by rewrite Hp.
  - by rewrite Hm, Hm2.
  - eauto.
Qed.

(** C7: when [AddGit] returns an error, it returns the port 0 with it, the
    registry is as it was, with no mapping for [path], and no server or
    goroutine was added nor the wait group touched; so the next [AddGit] of
    [path] misses in the registry again and runs the build and the start of
    a server again. *)
Theorem C7_error_records_no_mapping path s v e s' :
  AddGit env path s = (Val (v, Some e), s') →
  v = 0 ∧ mappings s' = mappings s ∧ mappings s' !! path = None ∧
  wg s' = wg s ∧ servers s' = servers s ∧ goroutines s' = goroutines s ∧
  AddGit env path s' = build_and_start env path s'.
Proof.
  rewrite AddGit_unfold. destruct (mappings s !! path) as [m|] eqn:Hm; [done|].
  rewrite build_and_start_unfold.
  pose proof (createTmpRepository_frame path s) as (F1 & F2 & F3 & F4 & _).
  destruct (createTmpRepository env path s) as [[[tmp [e'|]]|r] s1];
    simpl in *; [| |done].
  - intros; simplify_eq. rewrite AddGit_unfold, F1, Hm. done.
  - destruct (newGitServerErr env (attempts s)).
    { intros; simplify_eq. rewrite AddGit_unfold, F1, Hm. done. }
    destruct (getFreePort env (attempts s)); [|done].
    intros; simplify_eq. rewrite AddGit_unfold, F1, Hm. done.
Qed.

(** *** The wait group counts the goroutines that have not returned *)

Lemma live_app (a b : list goroutine) : live (a ++ b) = (live a + live b)%nat.
Proof. induction a as [|g a IH]; simpl; [done|]. rewrite IH. lia. Qed.

Lemma live_alter_exit (l : list goroutine) g gr :
  l !! g = Some gr → gstate gr ≠ Exited →
  live (alter (set_gstate Exited) g l) = pred (live l) ∧ live l ≠ 0%nat.
Proof.
  revert g. induction l as [|x l IH]; intros [|g] Hl Hst; simplify_eq/=.
  - destruct (gstate gr); [split; lia..|done].
  - destruct (IH g Hl Hst) as [-> ?]. destruct (gstate x); split; lia.
Qed.

Lemma live_alter_serving (l : list goroutine) g gr :
  l !! g = Some gr → gstate gr = Runnable →
  live (alter (set_gstate Serving) g l) = live l.
Proof.
  revert g. induction l as [|x l IH]; intros [|g] Hl Hst; simplify_eq/=.
  - by rewrite Hst.
  - by rewrite (IH g).
Qed.

Lemma live_0_Exited (l : list goroutine) :
  live l = 0%nat → Forall (λ g, gstate g = Exited) l.
Proof.
  induction l as [|x l IH]; simpl; intros H; [by constructor|].
  destruct (gstate x) eqn:Hx; try lia. constructor; [done|]. apply IH. lia.
Qed.

Lemma build_and_start_wg path s :
  wg_counts_live s → wg_counts_live (snd (build_and_start env path s)).
Proof.
  unfold wg_counts_live. intros Hinv. rewrite build_and_start_unfold.
  pose proof (createTmpRepository_frame path s) as (_ & F2 & _ & F4 & _).
  destruct (createTmpRepository env path s) as [[[tmp [e|]]|r] s1];
    simpl in *; try congruence.
  destruct (newGitServerErr env (attempts s)); simpl; [congruence|].
  destruct (getFreePort env (attempts s)); simpl; [congruence|].
  rewrite live_app, F2, F4, Hinv. simpl. lia.
Qed.

Lemma finish_wg g s gr :
  goroutines s !! g = Some gr → gstate gr ≠ Exited →
  wg_counts_live s → wg_counts_live (finish g s).
Proof.
  unfold wg_counts_live, finish. simpl. intros Hg Hst ->.
  by destruct (live_alter_exit _ _ _ Hg Hst) as [-> _].
Qed.

Lemma exec_wg ev s s' :
  exec env ev s = Some s' → wg_counts_live s → wg_counts_live s'.
Proof.
  intros Hex Hinv. destruct ev as [q|order| |g|g|g]; simpl in Hex.
  - simplify_eq. rewrite AddGit_unfold.
    destruct (mappings s !! q); [done|]. by apply build_and_start_wg.
  - unfold wg_counts_live in *.
    by apply Shutdown_loop_frame in Hex as (_ & -> & -> & _).
  - unfold wg_Wait in Hex. case_decide; by simplify_eq.
  - unfold serve in Hex.
    destruct (goroutines s !! g) as [gr|] eqn:Hg; [|done]. simpl in Hex.
    destruct (servers s !! gserver gr) as [sv|]; [|done]. simpl in Hex.
    destruct (gstate gr) eqn:Hst; [|done..].
    assert (gstate gr ≠ Exited) by congruence.
    destruct (sstate sv); simplify_eq; try by eapply finish_wg.
    + destruct (listenErr env (gserver gr)); simplify_eq;
        [by eapply finish_wg|].
      unfold wg_counts_live in *. simpl. by erewrite live_alter_serving.
    + destruct (listenErr env (gserver gr)); simplify_eq;
        [by eapply finish_wg|].
      unfold wg_counts_live in *. simpl. by erewrite live_alter_serving.
  - unfold serve_return in Hex.
    destruct (goroutines s !! g) as [gr|] eqn:Hg; [|done]. simpl in Hex.
    destruct (servers s !! gserver gr) as [sv|]; [|done]. simpl in Hex.
    destruct (gstate gr) eqn:Hst; [done| |done].
    destruct (sstate sv); simplify_eq. eapply finish_wg; [done| |done].
    congruence.
  - apply serve_fail_inv in Hex as (gr & sv & Hg & Hst & _ & _ & ->).
    apply (finish_wg g _ gr); [done|congruence|done].
Qed.

Lemma run_wg evs s s' :
  run env evs s = Some s' → wg_counts_live s → wg_counts_live s'.
Proof.
  revert s. induction evs as [|ev evs IH]; intros s; simpl.
  - by intros; simplify_eq.
  - destruct (exec env ev s) as [s1|] eqn:Hex; [|done]. simpl.
    intros Hrun Hinv. eapply IH; [done|]. by eapply exec_wg.
Qed.

(** C8: in every execution that starts from a new service, whenever the
    [wg.Wait()] of [Shutdown] returns, every goroutine started by [AddGit]
    has returned from [ListenAndServe] and ended: [Shutdown] cannot return
    while a serving goroutine is still running. *)
Theorem C8_Shutdown_waits_for_goroutines fs evs s s' :
  run env evs (New fs) = Some s →
  exec env EvWaitReturn s = Some s' →
  s' = s ∧ Forall (λ g, gstate g = Exited) (goroutines s').
Proof.
  intros Hrun Hwait. simpl in Hwait. unfold wg_Wait in Hwait.
  case_decide as Hz; [|done]. simplify_eq. split; [done|].
  apply live_0_Exited. by rewrite <-(run_wg _ _ _ Hrun).
Qed.

(** *** What a successful build leaves behind *)

Lemma createTmpRepository_ok path s sd tmp s' :
  disk s !! path = Some sd →
  createTmpRepository env path s = (Val (tmp, None), s') →
  mkdirTemp env (attempts s) = inr tmp ∧ disk s !! tmp = None ∧
  ∃ es, root sd = Dir es ∧
    let tree := copy_node (Skip (exclusions env path (attempts s))) path (Dir es) in
    disk s' !! tmp = Some (snapshot tree (staged_files env (attempts s) tree)) ∧
    ∀ q, q ≠ tmp → disk s' !! q = disk s !! q.
Proof.
  intros Hsd H. unfold exclusions, staged_files, snapshot.
  unfold_M. simpl in H. cases.
  all: match goal with
       | Hn : disk ?s0 !! ?t = None,
         Hl : <[?t := _]> (disk ?s0) !! ?p = Some _ |- _ =>
           assert (t ≠ p) as Hne by congruence;
           rewrite lookup_insert_ne in Hl by done
       end; simplify_eq.
  all: split; [done|]; split; [done|]; eexists; split; [done|]; simpl; split.
  all: try (intros q Hq; by rewrite !lookup_alter_ne, lookup_insert_ne by done).
  all: rewrite !lookup_alter_eq, lookup_insert_eq; simpl; done.
Qed.

Lemma createTmpRepository_succeeds path s sd es tmp :
  disk s !! path = Some sd → root sd = Dir es →
  mkdirTemp env (attempts s) = inr tmp → disk s !! tmp = None →
  copyErr env (attempts s) = None →
  plainInitErr env (attempts s) = None →
  commitErr env (attempts s) = None →
  ∃ s', createTmpRepository env path s = (Val (tmp, None), s').
Proof.
  intros Hsd Hroot Hmk Hfree Hcp Hinit Hci.
  assert (tmp ≠ path) as Hne by congruence.
  unfold_M. simpl. rewrite Hmk. simpl. rewrite Hfree. simpl.
  destruct (lsFiles env (attempts s) path) as [[cmdOut cmdErr] [e|]]; simpl;
    rewrite lookup_insert_ne, Hsd, Hcp, Hroot by done; simpl;
    rewrite Hinit; simpl;
    destruct (addGlobErr env (attempts s)); simpl; rewrite Hci; simpl; eauto.
Qed.

(** The build of an empty source directory, where go-git commits an empty
    index: when the temporary directory is created and the copy,
    [PlainInit] and [Commit] report no failure, the build returns the
    temporary directory, which then holds an empty tree and a repository,
    not bare, with exactly one commit, by [vulcan] with an empty message,
    of zero files. *)
Lemma empty_directory_committed path s sd tmp :
  disk s !! path = Some sd → root sd = Dir [] →
  mkdirTemp env (attempts s) = inr tmp → disk s !! tmp = None →
  copyErr env (attempts s) = None →
  plainInitErr env (attempts s) = None →
  commitErr env (attempts s) = None →
  ∃ s' d repo c,
    createTmpRepository env path s = (Val (tmp, None), s') ∧
    disk s' !! tmp = Some d ∧ root d = Dir [] ∧
    gitDir d = Some repo ∧ isBare repo = false ∧
    commits repo = [c] ∧ tracked c = [] ∧
    Author c = vulcan ∧ Message c = "".
Proof.
  intros Hsd Hroot Hmk Hfree Hcp Hinit Hci.
  destruct (createTmpRepository_succeeds path s sd [] tmp) as [s' Hs']; try done.
  destruct (createTmpRepository_ok _ _ _ _ _ Hsd Hs')
    as (_ & _ & es & Hes & Hd & _).
  rewrite Hroot in Hes. simplify_eq. simpl in Hd.
  eexists s', _, _, _. split; [done|]. split; [exact Hd|].
  unfold snapshot, staged_files. simpl.
  split_and!; try done.
  destruct (addGlobErr env (attempts s)); done.
Qed.

(** The build of an empty source directory, where go-git refuses to commit
    an empty index: nothing is copied and nothing is staged, [Commit]
    answers [ErrEmptyCommit], and the build returns that error. *)
Lemma empty_directory_refused path s sd tmp :
  disk s !! path = Some sd → root sd = Dir [] →
  mkdirTemp env (attempts s) = inr tmp → disk s !! tmp = None →
  copyErr env (attempts s) = None →
  plainInitErr env (attempts s) = None →
  commitErr env (attempts s) = Some ErrEmptyCommit →
  fst (createTmpRepository env path s) = Val ("", Some ErrEmptyCommit).
Proof.
  intros Hsd Hroot Hmk Hfree Hcp Hinit Hci.
  assert (tmp ≠ path) as Hne by congruence.
  unfold_M. simpl. rewrite Hmk. simpl. rewrite Hfree. simpl.
  destruct (lsFiles env (attempts s) path) as [[cmdOut cmdErr] [e'|]]; simpl;
    rewrite lookup_insert_ne, Hsd, Hcp, Hroot by done; simpl;
    rewrite Hinit; simpl;
    destruct (addGlobErr env (attempts s)); simpl; rewrite Hci;
    unfold staged_at; rewrite ?lookup_alter_eq, lookup_insert_eq; done.
Qed.

(** *** The failures of a build *)

Lemma createTmpRepository_mkdir_error path s e :
  mkdirTemp env (attempts s) = inl e →
  createTmpRepository env path s = (Val ("", Some e), set_attempts S s).
Proof. intros H. unfold_M. simpl. by rewrite H. Qed.

Lemma createTmpRepository_copy_error path s sd tmp e :
  disk s !! path = Some sd →
  mkdirTemp env (attempts s) = inr tmp → disk s !! tmp = None →
  copyErr env (attempts s) = Some e →
  fst (createTmpRepository env path s) = Val ("", Some e).
Proof.
  intros Hsd Hmk Hfree Hcp. assert (tmp ≠ path) as Hne by congruence.
  unfold_M. simpl. rewrite Hmk. simpl. rewrite Hfree. simpl.
  destruct (lsFiles env (attempts s) path) as [[cmdOut cmdErr] [e'|]]; simpl;
    by rewrite lookup_insert_ne, Hsd, Hcp by done.
Qed.

Lemma createTmpRepository_commit_error path s sd es tmp e :
  disk s !! path = Some sd → root sd = Dir es →
  mkdirTemp env (attempts s) = inr tmp → disk s !! tmp = None →
  copyErr env (attempts s) = None →
  plainInitErr env (attempts s) = None →
  commitErr env (attempts s) = Some e → e ≠ ErrEmptyCommit →
  fst (createTmpRepository env path s) = Val ("", Some e).
Proof.
  intros Hsd Hroot Hmk Hfree Hcp Hinit Hci He.
  assert (tmp ≠ path) as Hne by congruence.
  unfold_M. simpl. rewrite Hmk. simpl. rewrite Hfree. simpl.
  destruct (lsFiles env (attempts s) path) as [[cmdOut cmdErr] [e'|]]; simpl;
    rewrite lookup_insert_ne, Hsd, Hcp, Hroot by done; simpl;
    rewrite Hinit; simpl;
    destruct (addGlobErr env (attempts s)); simpl; rewrite Hci;
    by destruct e.
Qed.

(** The failure of [git.PlainInit] is not: its error is dropped and the
    nil repository makes [Worktree] panic. *)
Lemma createTmpRepository_init_error path s sd es tmp e :
  disk s !! path = Some sd → root sd = Dir es →
  mkdirTemp env (attempts s) = inr tmp → disk s !! tmp = None →
  copyErr env (attempts s) = None →
  plainInitErr env (attempts s) = Some e →
  fst (createTmpRepository env path s) =
    Panic "invalid memory address or nil pointer dereference".
Proof.
  intros Hsd Hroot Hmk Hfree Hcp Hinit.
  assert (tmp ≠ path) as Hne by congruence.
  unfold_M. simpl. rewrite Hmk. simpl. rewrite Hfree. simpl.
  destruct (lsFiles env (attempts s) path) as [[cmdOut cmdErr] [e'|]]; simpl;
    rewrite lookup_insert_ne, Hsd, Hcp, Hroot by done; simpl;
    by rewrite Hinit.
Qed.

(** A build that fails after it created its temporary directory returns
    the empty path, and the directory is still on the disk. *)
Lemma createTmpRepository_error_keeps_directory path s tmp v e s' :
  mkdirTemp env (attempts s) = inr tmp → disk s !! tmp = None →
  createTmpRepository env path s = (Val (v, Some e), s') →
  v = "" ∧ is_Some (disk s' !! tmp).
Proof.
  intros Hmk Hfree H. unfold_M. simpl in H. rewrite Hmk in H. simpl in H.
  rewrite Hfree in H. simpl in H. cases.
  all: split; [done|].
  all: rewrite ?lookup_alter_eq, lookup_insert_eq; simpl; eauto.
Qed.

(** *** The exclusion set *)

Lemma ignore_loop_keeps path lines (ignore : gmap string bool) k :
  ignore !! k = Some true → ignore_loop path lines ignore !! k = Some true.
Proof.
  revert ignore. unfold ignore_loop.
  induction lines as [|f lines IH]; intros ignore Hk; simpl; [done|].
  apply IH. destruct (decide (GoPath.Join [path; GoStrings.TrimSuffix f "/"] = k))
    as [->|Hne].
  - apply lookup_insert_eq.
  - by rewrite lookup_insert_ne.
Qed.

Lemma ignore_loop_line path lines (ignore : gmap string bool) f :
  f ∈ lines →
  ignore_loop path lines ignore
    !! GoPath.Join [path; GoStrings.TrimSuffix f "/"] = Some true.
Proof.
  revert ignore. induction lines as [|x lines IH]; intros ignore Hin.
  - by apply elem_of_nil in Hin.
  - apply elem_of_cons in Hin as [->|Hin].
    + change (ignore_loop path (x :: lines) ignore) with
        (ignore_loop path lines
           (<[GoPath.Join [path; GoStrings.TrimSuffix x "/"] := true]> ignore)).
      apply ignore_loop_keeps, lookup_insert_eq.
    + change (ignore_loop path (x :: lines) ignore) with
        (ignore_loop path lines
           (<[GoPath.Join [path; GoStrings.TrimSuffix x "/"] := true]> ignore)).
      by apply IH.
Qed.

Lemma ignore_of_line path cmdOut f :
  cmdOut ≠ "" → f ∈ GoStrings.Split cmdOut newline →
  ignore_of path cmdOut
    !! GoPath.Join [path; GoStrings.TrimSuffix f "/"] = Some true.
Proof.
  intros Hne Hin. unfold ignore_of.
  rewrite decide_True; [by apply ignore_loop_line|].
  destruct cmdOut; [done|]. simpl. lia.
Qed.

Lemma Skip_ignored (ignore : gmap string bool) src :
  ignore !! src = Some true → Skip ignore src = true.
Proof.
  intros H. unfold Skip. rewrite bool_decide_eq_true_2; [done|]. by rewrite H.
Qed.

Lemma Skip_dotgit (ignore : gmap string bool) src :
  GoPath.Base src = ".git" → Skip ignore src = true.
Proof.
  intros H. unfold Skip.
  rewrite (bool_decide_eq_true_2 (GoPath.Base src = ".git")) by done.
  apply orb_true_r.
Qed.

Lemma Skip_kept (ignore : gmap string bool) src name :
  GoPath.ordinary name → name ≠ ".git" →
  ignore !! GoPath.Join [src; name] = None →
  Skip ignore (GoPath.Join [src; name]) = false.
Proof.
  intros Hn Hgit Hig. unfold Skip. rewrite Hig, Base_Join_child by done.
  rewrite bool_decide_eq_false_2 by (by intros [? ?]).
  by rewrite bool_decide_eq_false_2.
Qed.

(** C5: the source directory holds a file [a.txt]; the listing of ignored
    files succeeded and names [ignored.log], and [a.txt] is not in the
    exclusion set; staging reported no failure and the build returned the
    snapshot directory.  Then the repository of the snapshot has exactly one
    commit, the commit holds [a.txt] with its content and no [ignored.log],
    and no entry called [.git] was copied, at any depth: the skip function
    answers true for every path whose base name is [.git], whatever the
    exclusion set. *)
Theorem C5_exclusion path s sd es ca cmdOut cmdErr tmp s' :
  disk s !! path = Some sd → root sd = Dir es →
  ("a.txt", File ca) ∈ es →
  lsFiles env (attempts s) path = (cmdOut, cmdErr, None) →
  "ignored.log" ∈ GoStrings.Split cmdOut newline →
  ignore_of path cmdOut !! GoPath.Join [path; "a.txt"] = None →
  addGlobErr env (attempts s) = None →
  createTmpRepository env path s = (Val (tmp, None), s') →
  ∃ d repo c,
    disk s' !! tmp = Some d ∧ gitDir d = Some repo ∧ commits repo = [c] ∧
    ("a.txt", ca) ∈ tracked c ∧
    (∀ content, ("ignored.log", content) ∉ tracked c) ∧
    no_entry_named ".git" (root d) ∧
    (∀ (ignore : gmap string bool) src,
       GoPath.Base src = ".git" → Skip ignore src = true).
Proof.
  intros Hsd Hroot Ha Hls Hlog Hkeep Hglob Hbuild.
  destruct (createTmpRepository_ok _ _ _ _ _ Hsd Hbuild)
    as (_ & _ & es' & Hes & Hd & _).
  rewrite Hroot in Hes. injection Hes as <-. simpl in Hd.
  unfold exclusions, staged_files in Hd. rewrite Hls, Hglob in Hd.
  eexists _, _, _. split; [exact Hd|]. unfold snapshot. simpl.
  split; [done|]. split; [done|].
  rewrite copy_node_Dir. unfold worktree_files.
  pose proof (copy_node_no_dotgit (ignore_of path cmdOut) path (Dir es)) as Hgit.
  assert (cmdOut ≠ "") as Hne.
  { intros ->. simpl in Hlog. by apply list_elem_of_singleton in Hlog. }
  split_and!.
  - apply worktree_entries_file.
    apply (copy_entries_intro _ _ _ "a.txt" (File ca)); [done|].
    apply Skip_kept; [by repeat split|done|done].
  - intros content Hin.
    apply worktree_entries_top in Hin; [|by repeat split].
    apply copy_entries_elem in Hin as [Hsk _].
    rewrite Skip_ignored in Hsk; [done|].
    by apply (ignore_of_line path cmdOut "ignored.log").
  - exact Hgit.
  - apply Skip_dotgit.
Qed.

(** C6, as amended: when the listing of the build succeeded with an output
    that ends in a newline, the exclusion set of the build holds
    [filepath.Join(path, "")], the cleaned form of the source path, and the
    skip function answers true for it; that is the source path itself
    exactly when the source path is in cleaned form already. *)
Theorem C6_exclusions_hold_cleaned_root n path body cmdErr :
  lsFiles env n path = (body +:+ String newline "", cmdErr, None) →
  let ignore := exclusions env path n in
  ignore !! GoPath.Join [path; ""] = Some true ∧
  Skip ignore (GoPath.Join [path; ""]) = true ∧
  (GoPath.Join [path; ""] = path →
   ignore !! path = Some true ∧ Skip ignore path = true).
Proof.
  intros Hls ignore. unfold ignore, exclusions. rewrite Hls. clear ignore.
  cbv beta iota. set (cmdOut := body +:+ String newline "").
  assert (ignore_of path cmdOut !! GoPath.Join [path; ""] = Some true) as Hin.
  { apply (ignore_of_line path cmdOut "").
    - unfold cmdOut. intros [_ ?]%app_eq_empty. done.
    - unfold cmdOut. rewrite Split_app_sep. apply elem_of_app. right.
      simpl. by apply list_elem_of_singleton. }
  split; [done|]. split; [by apply Skip_ignored|].
  intros Hclean. rewrite Hclean in Hin. split; [done|]. by apply Skip_ignored.
Qed.

End WithEnv.

(** *** Binding the listener *)

Section Binding.
Context (env : Env).

Lemma AddGit_ignores_listeners f path s :
  AddGit (with_listenErr env f) path s = AddGit env path s.
Proof. reflexivity. Qed.

Lemma AddGit_miss_started path s p s1 :
  mappings s !! path = None →
  AddGit env path s = (Val (p, None), s1) →
  ∃ tmp s0, s1 = started path tmp p s0 ∧
    servers s0 = servers s ∧ goroutines s0 = goroutines s.
Proof.
  intros Hm. rewrite AddGit_unfold, Hm, build_and_start_unfold.
  pose proof (createTmpRepository_frame env path s) as (_ & _ & F3 & F4 & _).
  destruct (createTmpRepository env path s) as [[[tmp [e|]]|r] s0];
    simpl in *; try done.
  destruct (newGitServerErr env (attempts s)); [done|].
  destruct (getFreePort env (attempts s)); [done|].
  intros; simplify_eq. eauto.
Qed.

(** The failures [AddGit] returns: those of the build, of
    [gittp.NewGitServer] and of [freeport.GetFreePort]. *)
Lemma AddGit_build_error path s v e s1 :
  mappings s !! path = None →
  createTmpRepository env path s = (Val (v, Some e), s1) →
  AddGit env path s = (Val (0, Some e), s1).
Proof.
  intros Hm Hc. by rewrite AddGit_unfold, Hm, build_and_start_unfold, Hc.
Qed.

Lemma AddGit_server_error path s tmp e s1 :
  mappings s !! path = None →
  createTmpRepository env path s = (Val (tmp, None), s1) →
  newGitServerErr env (attempts s) = Some e →
  AddGit env path s = (Val (0, Some e), s1).
Proof.
  intros Hm Hc Hs.
  by rewrite AddGit_unfold, Hm, build_and_start_unfold, Hc, Hs.
Qed.

Lemma AddGit_port_error path s tmp e s1 :
  mappings s !! path = None →
  createTmpRepository env path s = (Val (tmp, None), s1) →
  newGitServerErr env (attempts s) = None →
  getFreePort env (attempts s) = inl e →
  AddGit env path s = (Val (0, Some e), s1).
Proof.
  intros Hm Hc Hs Hp.
  by rewrite AddGit_unfold, Hm, build_and_start_unfold, Hc, Hs, Hp.
Qed.

(** C3, as amended: [AddGit] does not bind the listener.  When it has built
    and started a server for [path] and returned the port with a nil error,
    the goroutine it started has not entered [ListenAndServe] yet, and the
    result of [AddGit] is the same whatever the binding will do.  If the
    binding then fails, [ListenAndServe] returns in the goroutine, which
    ends: nothing is logged, the mapping stays, and a later [AddGit] of the
    path still returns the port with a nil error.  If the binding succeeds,
    the goroutine serves, and the serving can fail afterwards:
    [ListenAndServe] returns in the goroutine, which ends.  And whenever,
    after whatever else happened, the serving of a goroutine fails, nothing
    is logged, the mappings stay, and [AddGit] of the path still returns
    the port with a nil error. *)
Theorem C3_bind_failure_not_returned path s p s1 :
  mappings s !! path = None →
  AddGit env path s = (Val (p, None), s1) →
  let g := length (goroutines s) in
  let h := length (servers s) in
  (∀ f, AddGit (with_listenErr env f) path s = (Val (p, None), s1)) ∧
  goroutines s1 !! g = Some {| gserver := h; gstate := Runnable |} ∧
  (is_Some (listenErr env h) →
   serve env g s1 = Some (finish g s1) ∧
   logs (finish g s1) = logs s1 ∧
   mappings (finish g s1) = mappings s1 ∧
   AddGit env path (finish g s1) = (Val (p, None), finish g s1)) ∧
  (listenErr env h = None →
   ∃ s2 s3,
     serve env g s1 = Some s2 ∧
     goroutines s2 !! g = Some {| gserver := h; gstate := Serving |} ∧
     serve_fail g s2 = Some s3 ∧
     goroutines s3 !! g = Some {| gserver := h; gstate := Exited |}) ∧
  (∀ evs s2 g' s3,
     run env evs s1 = Some s2 → serve_fail g' s2 = Some s3 →
     logs s3 = logs s2 ∧ mappings s3 = mappings s2 ∧
     AddGit env path s3 = (Val (p, None), s3)).
Proof.
  intros Hm Hadd g h.
  destruct (AddGit_miss_started _ _ _ _ Hm Hadd) as (tmp & s0 & -> & Hsv & Hgo).
  assert (goroutines (started path tmp p s0) !! g =
          Some {| gserver := h; gstate := Runnable |}) as Hg.
  { simpl. rewrite Hsv, Hgo. unfold g. apply list_lookup_middle. done. }
  assert (mappings (started path tmp p s0) !! path =
          Some {| port := p; server := length (servers s0); tmpDir := tmp |})
    as Hrec.
  { simpl. apply lookup_insert_eq. }
  split_and!; try done.
  - intros [e Hbind]. split_and!; try done.
    + unfold serve. rewrite Hg. simpl. rewrite Hsv.
      rewrite list_lookup_middle by done. simpl. fold h. by rewrite Hbind.
    + by apply (AddGit_hit env path (finish g (started path tmp p s0))
                  {| port := p; server := length (servers s0);
                     tmpDir := tmp |}).
  - intros Hbind. eexists _, _. split_and!.
    + unfold serve. rewrite Hg. simpl. rewrite Hsv.
      rewrite list_lookup_middle by done. simpl. fold h. by rewrite Hbind.
    + simpl. rewrite Hgo, Hsv. fold g.
      rewrite list_lookup_alter_eq, list_lookup_middle by done. done.
    + unfold serve_fail. simpl. rewrite Hgo, Hsv. fold g.
      rewrite list_lookup_alter_eq, list_lookup_middle by done. simpl.
      fold h.
      rewrite list_lookup_alter_eq, list_lookup_middle by done. simpl. done.
    + simpl. rewrite Hgo, Hsv. fold g.
      rewrite !list_lookup_alter_eq, list_lookup_middle by done. done.
  - intros evs s2 g' s3 Hrun Hfail.
    pose proof (run_mapping_stable env evs _ s2 path _ Hrun Hrec) as Hrec2.
    apply serve_fail_frame in Hfail as (Hm3 & Hl3 & _).
    split; [done|]. split; [done|].
    apply (AddGit_hit env path s3
             {| port := p; server := length (servers s0); tmpDir := tmp |}).
    by rewrite Hm3.
Qed.

End Binding.

(** *** [Shutdown] removes the recorded directories *)

Section Teardown.
Context (env : Env).

Lemma Shutdown_range_removes ms s m :
  m ∈ ms → disk (snd (Shutdown_range ms s)) !! tmpDir m = None.
Proof.
  assert (∀ ms s k, disk s !! k = None →
            disk (snd (Shutdown_range ms s)) !! k = None) as Hkeep.
  { clear. induction ms as [|x ms IH]; intros s k Hk; [done|].
    cbn [Shutdown_range]. unfold bind at 1, Shutdown_body.
    unfold http_Shutdown, os_RemoveAll, bind, modify. simpl.
    apply IH. simpl. destruct (decide (tmpDir x = k)) as [->|].
    - apply lookup_delete_eq.
    - by rewrite lookup_delete_ne. }
  revert s. induction ms as [|x ms IH]; intros s Hin.
  - by apply elem_of_nil in Hin.
  - cbn [Shutdown_range]. unfold bind at 1, Shutdown_body.
    unfold http_Shutdown, os_RemoveAll, bind, modify. simpl.
    apply elem_of_cons in Hin as [->|Hin]; [|by apply IH].
    apply Hkeep. simpl. apply lookup_delete_eq.
Qed.

Lemma drain_disk s : disk (drain env s) = disk s.
Proof.
  unfold drain. generalize (seq 0 (length (goroutines s))). intros l.
  revert s. induction l as [|g l IH]; intros s; simpl; [done|].
  rewrite IH. unfold drain_step.
  destruct (serve env g s) as [s1|] eqn:H1.
  - apply serve_frame in H1 as (_ & _ & H1).
    destruct (serve_return g s1) as [s2|] eqn:H2; [|done].
    apply serve_return_frame in H2 as (_ & _ & H2). congruence.
  - destruct (serve_return g s) as [s2|] eqn:H2; [|done].
    by apply serve_return_frame in H2 as (_ & _ & H2).
Qed.

(** *** [Shutdown] returns

    From a new service, [served] holds all along; so the loop of [Shutdown]
    shuts down the server of every goroutine that is still running, each of
    them returns, and [Wait] returns. *)

Lemma exec_served ev s s' :
  exec env ev s = Some s' → served s → served s'.
Proof.
  intros Hex Hinv. destruct ev as [q|order| |g|g|g]; simpl in Hex.
  - simplify_eq. rewrite AddGit_unfold.
    destruct (mappings s !! q) as [mq|] eqn:Hq; [done|].
    rewrite build_and_start_unfold.
    pose proof (createTmpRepository_frame env q s) as (F1 & _ & F3 & F4 & _).
    destruct (createTmpRepository env q s) as [[[tmp [e|]]|r] s1]; simpl in *.
    1,3: by unfold served; rewrite F1, F3, F4.
    destruct (newGitServerErr env (attempts s));
      [by unfold served; simpl; rewrite F1, F3, F4|].
    destruct (getFreePort env (attempts s));
      [by unfold served; simpl; rewrite F1, F3, F4|].
    unfold served. simpl. rewrite F1, F3, F4, length_app. simpl.
    intros g gr [Hg|[_ Hg]]%lookup_app_Some Hlive.
    + destruct (Hinv g gr Hg Hlive) as (Hlt & path & m & Hm & Hsrv).
      split; [lia|]. exists path, m. split; [|done].
      rewrite lookup_insert_ne; [done|]. intros ->. congruence.
    + destruct (g - length (goroutines s))%nat; simplify_eq/=.
      split; [lia|]. eexists q, _. split; [apply lookup_insert_eq|]. done.
  - unfold Shutdown_loop in Hex. case_decide; [|done]. simplify_eq.
    destruct (Shutdown_range_frame order s) as (_ & Hm & _ & Hg & _).
    assert (length (servers (snd (Shutdown_range order s))) = length (servers s))
      as Hlen.
    { clear. revert s. induction order as [|m ms IH]; intros s; [done|].
      cbn [Shutdown_range]. unfold bind at 1, Shutdown_body.
      unfold http_Shutdown, os_RemoveAll, bind, modify. simpl.
      rewrite IH. simpl. apply length_alter. }
    unfold served. by rewrite Hm, Hg, Hlen.
  - unfold wg_Wait in Hex. case_decide; by simplify_eq.
  - unfold serve in Hex.
    destruct (goroutines s !! g) as [gr|] eqn:Hg; [|done]. simpl in Hex.
    destruct (servers s !! gserver gr) as [sv|]; [|done]. simpl in Hex.
    assert (∀ st s0, mappings s0 = mappings s →
              length (servers s0) = length (servers s) →
              goroutines s0 = alter (set_gstate st) g (goroutines s) →
              served s0) as Hstep.
    { intros st s0 Hm Hl Hgs g' gr' Hg' Hlive. rewrite Hm, Hl.
      rewrite Hgs in Hg'. destruct (decide (g = g')) as [<-|Hne].
      - rewrite list_lookup_alter_eq, Hg in Hg'. simplify_eq/=.
        apply (Hinv g gr Hg).
        destruct (gstate gr) eqn:Hst; [done..|]. by destruct st.
      - rewrite list_lookup_alter_ne in Hg' by done. by apply (Hinv g' gr'). }
    destruct (gstate gr) eqn:Hst; [|done..].
    destruct (sstate sv); simplify_eq;
      try (by apply (Hstep Exited));
      (destruct (listenErr env (gserver gr)); simplify_eq;
       [by apply (Hstep Exited)|]);
      apply (Hstep Serving); simpl; try done; apply length_alter.
  - unfold serve_return in Hex.
    destruct (goroutines s !! g) as [gr|] eqn:Hg; [|done]. simpl in Hex.
    destruct (servers s !! gserver gr) as [sv|]; [|done]. simpl in Hex.
    destruct (gstate gr) eqn:Hst; [done| |done].
    destruct (sstate sv); simplify_eq.
    intros g' gr' Hg' Hlive. simpl in *.
    destruct (decide (g = g')) as [<-|Hne].
    + rewrite list_lookup_alter_eq, Hg in Hg'. by simplify_eq/=.
    + rewrite list_lookup_alter_ne in Hg' by done. by apply (Hinv g' gr').
  - apply serve_fail_inv in Hex as (gr & sv & Hg & Hst & _ & _ & ->).
    intros g' gr' Hg' Hlive. simpl in *. rewrite length_alter.
    destruct (decide (g = g')) as [<-|Hne].
    + rewrite list_lookup_alter_eq, Hg in Hg'. by simplify_eq/=.
    + rewrite list_lookup_alter_ne in Hg' by done. by apply (Hinv g' gr').
Qed.

Lemma run_served evs s s' :
  run env evs s = Some s' → served s → served s'.
Proof.
  revert s. induction evs as [|ev evs IH]; intros s; simpl.
  - by intros; simplify_eq.
  - destruct (exec env ev s) as [s1|] eqn:Hex; [|done]. simpl.
    intros Hrun Hinv. eapply IH; [done|]. by eapply exec_served.
Qed.

Lemma Shutdown_range_servers ms s :
  length (servers (snd (Shutdown_range ms s))) = length (servers s).
Proof.
  revert s. induction ms as [|m ms IH]; intros s; [done|].
  cbn [Shutdown_range]. unfold bind at 1, Shutdown_body.
  unfold http_Shutdown, os_RemoveAll, bind, modify. simpl.
  rewrite IH. simpl. apply length_alter.
Qed.

Lemma Shutdown_range_closed_stays ms s h :
  closed_at s h → closed_at (snd (Shutdown_range ms s)) h.
Proof.
  revert s. induction ms as [|m ms IH]; intros s Hc; [done|].
  cbn [Shutdown_range]. unfold bind at 1, Shutdown_body.
  unfold http_Shutdown, os_RemoveAll, bind, modify. simpl.
  apply IH. intros sv. simpl. destruct (decide (server m = h)) as [->|Hne].
  - rewrite list_lookup_alter_eq. destruct (servers s !! h); by intros; simplify_eq/=.
  - rewrite list_lookup_alter_ne by done. apply Hc.
Qed.

Lemma Shutdown_range_closes ms s m :
  m ∈ ms → closed_at (snd (Shutdown_range ms s)) (server m).
Proof.
  revert s. induction ms as [|x ms IH]; intros s Hin.
  - by apply elem_of_nil in Hin.
  - cbn [Shutdown_range]. unfold bind at 1, Shutdown_body.
    unfold http_Shutdown, os_RemoveAll, bind, modify. simpl.
    apply elem_of_cons in Hin as [->|Hin]; [|by apply IH].
    apply Shutdown_range_closed_stays. intros sv. simpl.
    rewrite list_lookup_alter_eq.
    destruct (servers s !! server x); by intros; simplify_eq/=.
Qed.

Lemma Shutdown_loop_all_closed order s s1 :
  Shutdown_loop env order s = Some s1 → served s → all_closed s1.
Proof.
  unfold Shutdown_loop. case_decide as Hperm; [|done]. intros ? Hinv.
  destruct Hperm as [Hperm _].
  simplify_eq. intros g gr Hg Hlive.
  destruct (Shutdown_range_frame order s) as (_ & _ & _ & Hgs & _).
  rewrite Hgs in Hg.
  destruct (Hinv g gr Hg Hlive) as (Hlt & path & m & Hm & Hsrv).
  rewrite <-(Shutdown_range_servers order s) in Hlt.
  apply lookup_lt_is_Some_2 in Hlt as [sv Hsv]. exists sv. split; [done|].
  rewrite <-Hsrv in Hsv. eapply Shutdown_range_closes; [|done].
  rewrite Hperm. apply list_elem_of_fmap. exists (path, m). split; [done|].
  by apply elem_of_map_to_list.
Qed.

Lemma drain_step_wg s g : wg_counts_live s → wg_counts_live (drain_step env s g).
Proof.
  intros Hinv. unfold drain_step.
  destruct (serve env g s) as [s1|] eqn:H1.
  - pose proof (exec_wg env (EvServe g) s s1 H1 Hinv) as Hinv1.
    destruct (serve_return g s1) as [s2|] eqn:H2; [|done].
    by apply (exec_wg env (EvServeReturn g) s1 s2 H2).
  - destruct (serve_return g s) as [s2|] eqn:H2; [|done].
    by apply (exec_wg env (EvServeReturn g) s s2 H2).
Qed.

(** A step of the draining ends goroutine [g]; the others and the servers
    stay as they are. *)
Lemma drain_step_exits s g :
  all_closed s →
  servers (drain_step env s g) = servers s ∧
  length (goroutines (drain_step env s g)) = length (goroutines s) ∧
  ∀ g' gr', goroutines (drain_step env s g) !! g' = Some gr' →
            gstate gr' ≠ Exited →
            g' ≠ g ∧ goroutines s !! g' = Some gr'.
Proof.
  intros Hc. unfold drain_step, serve, serve_return.
  destruct (goroutines s !! g) as [gr|] eqn:Hg; simpl;
    [|split_and!; try done; intros g' gr' Hg' _; split; [congruence|done]].
  assert (∀ g' gr', alter (set_gstate Exited) g (goroutines s) !! g' = Some gr' →
            gstate gr' ≠ Exited → g' ≠ g ∧ goroutines s !! g' = Some gr') as Hex.
  { intros g' gr' Hg' Hlive. destruct (decide (g = g')) as [<-|Hne].
    - rewrite list_lookup_alter_eq, Hg in Hg'. by simplify_eq/=.
    - rewrite list_lookup_alter_ne in Hg' by done. done. }
  destruct (gstate gr) eqn:Hst.
  - destruct (Hc g gr Hg) as (sv & Hl & Hsv); [congruence|].
    rewrite Hl. simpl. rewrite Hsv. simpl.
    rewrite list_lookup_alter_eq, Hg. simpl. rewrite Hl. simpl.
    split_and!; [done|apply length_alter|done].
  - destruct (Hc g gr Hg) as (sv & Hl & Hsv); [congruence|].
    rewrite Hl. simpl. rewrite Hsv. simpl.
    split_and!; [done|apply length_alter|done].
  - destruct (servers s !! gserver gr); simpl;
      (split_and!; [done|done|]); intros g' gr' Hg' Hlive;
      (split; [|done]); intros ->; congruence.
Qed.

Lemma drain_steps_exit l s :
  all_closed s →
  length (goroutines (foldl (drain_step env) s l)) = length (goroutines s) ∧
  ∀ g' gr', goroutines (foldl (drain_step env) s l) !! g' = Some gr' →
            gstate gr' ≠ Exited →
            (g' ∉ l) ∧ goroutines s !! g' = Some gr'.
Proof.
  revert s. induction l as [|g l IH]; intros s Hc; simpl.
  - split; [done|]. intros g' gr' Hg' _. split; [apply not_elem_of_nil|done].
  - destruct (drain_step_exits s g Hc) as (Hsv & Hlen & Hstep).
    assert (all_closed (drain_step env s g)) as Hc1.
    { intros g' gr' Hg' Hlive. rewrite Hsv.
      destruct (Hstep g' gr' Hg' Hlive) as [_ Hg0]. by apply (Hc g' gr'). }
    destruct (IH _ Hc1) as (Hlen1 & Hrest). split; [congruence|].
    intros g' gr' Hg' Hlive.
    destruct (Hrest g' gr' Hg' Hlive) as [Hnotin Hg1].
    destruct (Hstep g' gr' Hg1 Hlive) as [Hne Hg0].
    split; [|done]. by apply not_elem_of_cons.
Qed.

(** X11: [Shutdown] returns when the calls of [server.Shutdown] do: in
    every state an execution from a new service can reach, and for every
    order of the loop, if [Shutdown(context.Background())] returns for the
    server of every mapping (its connections become idle), and nothing
    else runs in between, the call ends, with every goroutine ended. *)
Lemma Shutdown_returns fs evs s order :
  run env evs (New fs) = Some s →
  order ≡ₚ (map_to_list (mappings s)).*2 →
  Forall (λ m, shutdownEnds env (server m) = true) order →
  ∃ s', Shutdown env order s = Some s' ∧
        Forall (λ g, gstate g = Exited) (goroutines s').
Proof.
  intros Hrun Hperm Hends.
  assert (wg_counts_live s) as Hwg by (by apply (run_wg env evs (New fs))).
  assert (served s) as Hsrv.
  { apply (run_served evs (New fs)); [done|]. intros g gr Hg.
    simpl in Hg. by rewrite lookup_nil in Hg. }
  unfold Shutdown.
  destruct (Shutdown_loop env order s) as [s1|] eqn:Hloop; last first.
  { unfold Shutdown_loop in Hloop. by rewrite decide_True in Hloop. }
  simpl. pose proof (Shutdown_loop_all_closed _ _ _ Hloop Hsrv) as Hc.
  pose proof (exec_wg env (EvShutdownLoop order) s s1 Hloop Hwg) as Hwg1.
  assert (wg_counts_live (drain env s1)) as Hwg2.
  { unfold drain. generalize (seq 0 (length (goroutines s1))). intros l.
    clear Hloop Hc. revert s1 Hwg1.
    induction l as [|g l IH]; intros s1 Hwg1; [done|].
    simpl. apply IH. by apply drain_step_wg. }
  assert (live (goroutines (drain env s1)) = 0%nat) as Hlive.
  { destruct (drain_steps_exit (seq 0 (length (goroutines s1))) s1 Hc)
      as (Hlen & Hex). fold (drain env s1) in Hlen, Hex.
    assert (Forall (λ g, gstate g = Exited) (goroutines (drain env s1))) as Hall.
    { apply Forall_lookup. intros g gr Hg.
      destruct (gstate gr) eqn:Hst; [| |done];
        (destruct (Hex g gr Hg) as [Hnotin Hg0]; [congruence|]);
        exfalso; apply Hnotin;
        apply elem_of_seq; apply lookup_lt_Some in Hg0; lia. }
    clear -Hall. induction Hall as [|g l Hg _ IH]; simpl; [done|].
    by rewrite Hg, IH. }
  unfold wg_Wait. rewrite decide_True by (by rewrite Hwg2).
  eexists. split; [done|]. by apply live_0_Exited.
Qed.

(** When [Shutdown] has returned, [os.RemoveAll] was called for the
    temporary directory of every mapping; where the removals succeed, as
    they do here, the directories are gone. *)
Lemma Shutdown_removes_recorded order s s' path m :
  Shutdown env order s = Some s' → mappings s !! path = Some m →
  disk s' !! tmpDir m = None.
Proof.
  unfold Shutdown, Shutdown_loop, wg_Wait. intros H Hm.
  case_decide as Hperm; [|done]. destruct Hperm as [Hperm _].
  simpl in H. case_decide; [|done].
  simplify_eq. rewrite drain_disk.
  apply Shutdown_range_removes. rewrite Hperm.
  apply list_elem_of_fmap. exists (path, m). split; [done|].
  by apply elem_of_map_to_list.
Qed.

End Teardown.

(** *** The properties in the small world *)

Section Instances.
Import Scenario.

(** C1 as stated fails: the first [AddGit] of [/repo] finds no free port and
    returns 0 with the error, the second returns 5001; the two calls do not
    return the same port, and each of them has created a snapshot directory
    for [/repo]. *)
Lemma C1_counterexample :
  let r1 := AddGit no_port_once "/repo" (New fs0) in
  let r2 := AddGit no_port_once "/repo" (snd r1) in
  fst r1 = Val (0, Some no_free_port) ∧
  fst r2 = Val (5001, None) ∧
  returned_port (fst r1) ≠ returned_port (fst r2) ∧
  tmpName 0 ≠ tmpName 1 ∧
  is_Some (disk (snd r2) !! tmpName 0) ∧
  is_Some (disk (snd r2) !! tmpName 1).
Proof. vm_compute. split_and!; try done; eexists; reflexivity. Qed.

(** C1, as amended, in the small world: [AddGit] of [/repo] returned 5000;
    after an [AddGit] of another path, a step of the goroutine, a second
    [AddGit] of [/repo] and the loop of [Shutdown], it returns 5000 still. *)
Lemma C1_witness :
  let s1 := snd (AddGit healthy "/repo" (New fs0)) in
  let evs := [EvAddGit "/empty"; EvServe 0%nat; EvAddGit "/repo";
              EvShutdownLoop [mapping 5001 1 1; mapping 5000 0 0]] in
  let s2 := run_from healthy evs s1 in
  AddGit healthy "/repo" s2 = (Val (5000, None), s2) ∧
  mappings s2 !! "/repo" = mappings s1 !! "/repo" ∧
  ∃ m, mappings s2 !! "/repo" = Some m ∧ port m = 5000.
Proof.
  intros s1 evs s2.
  apply (C1_AddGit_idempotent healthy "/repo" (New fs0) 5000 s1 evs s2).
  - vm_compute. reflexivity.
  - vm_compute. reflexivity.
Defined.

(** C2 fails on the code: the first [AddGit] of [/repo] builds the snapshot
    in [/tmp/snap0] and then fails for want of a free port; the second
    succeeds with [/tmp/snap1].  [Shutdown] returns and [/tmp/snap1] is
    gone, but [/tmp/snap0], created by the registry, is still there: no
    mapping ever recorded it. *)
Lemma C2_failed_call_leaks_snapshot :
  let r1 := AddGit no_port_once "/repo" (New fs0) in
  let r2 := AddGit no_port_once "/repo" (snd r1) in
  returned_error (fst r1) = Some no_free_port ∧
  fst r2 = Val (5001, None) ∧
  ∃ s', Shutdown no_port_once [mapping 5001 0 1] (snd r2) = Some s' ∧
        disk s' !! tmpName 1 = None ∧
        is_Some (disk s' !! tmpName 0).
Proof.
  intros r1 r2. split; [by vm_compute|]. split; [by vm_compute|].
  exists (default (snd r2) (Shutdown no_port_once [mapping 5001 0 1] (snd r2))).
  vm_compute. split_and!; try done. eexists; reflexivity.
Qed.

(** C3 as stated fails: the port is taken when the goroutine binds the
    listener, [ListenAndServe] fails, and yet [AddGit] had returned 5000
    with a nil error; the failure leaves no trace in the log. *)
Lemma C3_counterexample :
  let r := AddGit no_bind "/repo" (New fs0) in
  listenErr no_bind 0 = Some address_in_use ∧
  fst r = Val (5000, None) ∧
  serve no_bind 0 (snd r) = Some (finish 0 (snd r)) ∧
  logs (finish 0 (snd r)) = logs (snd r).
Proof. vm_compute. done. Qed.

(** C3, as amended, in the small world: the listener of the server of
    [/repo] is bound, and the serving fails afterwards. *)
Lemma C3_witness :
  let s := New fs0 in
  let s1 := snd (AddGit healthy "/repo" s) in
  (∀ f, AddGit (with_listenErr healthy f) "/repo" s = (Val (5000, None), s1)) ∧
  goroutines s1 !! 0%nat = Some {| gserver := 0; gstate := Runnable |} ∧
  (is_Some (listenErr healthy 0) →
   serve healthy 0 s1 = Some (finish 0 s1) ∧
   logs (finish 0 s1) = logs s1 ∧
   mappings (finish 0 s1) = mappings s1 ∧
   AddGit healthy "/repo" (finish 0 s1) = (Val (5000, None), finish 0 s1)) ∧
  (listenErr healthy 0 = None →
   ∃ s2 s3,
     serve healthy 0 s1 = Some s2 ∧
     goroutines s2 !! 0%nat = Some {| gserver := 0; gstate := Serving |} ∧
     serve_fail 0 s2 = Some s3 ∧
     goroutines s3 !! 0%nat = Some {| gserver := 0; gstate := Exited |}) ∧
  (∀ evs s2 g' s3,
     run healthy evs s1 = Some s2 → serve_fail g' s2 = Some s3 →
     logs s3 = logs s2 ∧ mappings s3 = mappings s2 ∧
     AddGit healthy "/repo" s3 = (Val (5000, None), s3)).
Proof.
  intros s s1.
  apply (C3_bind_failure_not_returned healthy "/repo" s 5000 s1).
  - reflexivity.
  - vm_compute. reflexivity.
Defined.

(** C4 fails on the code: when [git.PlainInit] fails, its error is dropped
    and [createTmpRepository] panics on the nil repository instead of
    returning a build error. *)
Lemma C4_init_failure_panics :
  plainInitErr no_init 0 = Some init_failed ∧
  fst (createTmpRepository no_init "/repo" (New fs0)) =
    Panic "invalid memory address or nil pointer dereference".
Proof. vm_compute. done. Qed.

(** C5 in the small world: the snapshot of [/repo]. *)
Lemma C5_witness :
  ∃ d repo c,
    disk (snd (createTmpRepository healthy "/repo" (New fs0))) !! tmpName 0
      = Some d ∧
    gitDir d = Some repo ∧ commits repo = [c] ∧
    ("a.txt", "alpha") ∈ tracked c ∧
    (∀ content, ("ignored.log", content) ∉ tracked c) ∧
    no_entry_named ".git" (root d) ∧
    (∀ (ignore : gmap string bool) src,
       GoPath.Base src = ".git" → Skip ignore src = true).
Proof.
  apply (C5_exclusion healthy "/repo" (New fs0)
           {| root := repo_tree; gitDir := None |}
           [("a.txt", File "alpha");
            ("ignored.log", File "noise");
            (".git", Dir [("HEAD", File "ref: refs/heads/main")]);
            ("docs", Dir [("x.md", File "x");
                          (".git", File "gitdir: elsewhere")])]
           "alpha" listing "" (tmpName 0)
           (snd (createTmpRepository healthy "/repo" (New fs0)))).
  - vm_compute. reflexivity.
  - reflexivity.
  - apply elem_of_cons. left. reflexivity.
  - reflexivity.
  - vm_compute. apply elem_of_cons. left. reflexivity.
  - vm_compute. reflexivity.
  - reflexivity.
  - vm_compute. reflexivity.
Defined.

(** C6 as stated fails: for the source path [/repo/] and a listing that
    succeeded with the one line [x], the exclusion set holds [/repo/x] and
    [/repo], not [/repo/], and the skip function answers false for the
    source path. *)
Lemma C6_counterexample :
  let cmdOut := "x" +:+ String newline "" in
  let ignore := ignore_of "/repo/" cmdOut in
  (0 < String.length cmdOut)%nat ∧
  map_to_list ignore = [("/repo/x", true); ("/repo", true)] ∧
  ignore !! "/repo/" = None ∧
  Skip ignore "/repo/" = false.
Proof. vm_compute. split_and!; try done. lia. Qed.

(** C6, as amended, in the small world: the exclusion set of the build of
    [/repo], a path in cleaned form, holds [/repo]. *)
Lemma C6_witness :
  let ignore := exclusions healthy "/repo" 0 in
  ignore !! GoPath.Join ["/repo"; ""] = Some true ∧
  Skip ignore (GoPath.Join ["/repo"; ""]) = true ∧
  (GoPath.Join ["/repo"; ""] = "/repo" →
   ignore !! "/repo" = Some true ∧ Skip ignore "/repo" = true).
Proof.
  apply (C6_exclusions_hold_cleaned_root healthy 0 "/repo" "ignored.log" "").
  reflexivity.
Defined.

(** C7 in the small world: the [AddGit] that found no free port. *)
Lemma C7_witness :
  let s := New fs0 in
  let s' := snd (AddGit no_port_once "/repo" s) in
  0 = 0 ∧ mappings s' = mappings s ∧ mappings s' !! "/repo" = None ∧
  wg s' = wg s ∧ servers s' = servers s ∧ goroutines s' = goroutines s ∧
  AddGit no_port_once "/repo" s' = build_and_start no_port_once "/repo" s'.
Proof.
  intros s s'.
  apply (C7_error_records_no_mapping no_port_once "/repo" s 0 no_free_port s').
  vm_compute. reflexivity.
Defined.

(** C8 in the small world: a server is started, serves, is shut down and
    its goroutine returns; then [Wait] can return. *)
Lemma C8_witness :
  let evs := [EvAddGit "/repo"; EvServe 0%nat;
              EvShutdownLoop [mapping 5000 0 0]; EvServeReturn 0%nat] in
  let s := run_from healthy evs (New fs0) in
  s = s ∧ Forall (λ g, gstate g = Exited) (goroutines s).
Proof.
  intros evs s.
  apply (C8_Shutdown_waits_for_goroutines healthy fs0 evs s s).
  - vm_compute. reflexivity.
  - vm_compute. reflexivity.
Defined.

(** C9 fails on the code where go-git refuses to commit an empty index:
    [Commit] is called without [AllowEmptyCommits], for the empty directory
    [/empty] nothing is staged, [Commit] answers [ErrEmptyCommit], the build
    returns the error and [AddGit] returns 0 with it and records nothing.
    With the same go-git the build of [/repo], where files are staged,
    returns its snapshot directory. *)
Lemma C9_empty_directory_not_committed :
  let r := createTmpRepository refuses_empty_commits "/empty" (New fs0) in
  let a := AddGit refuses_empty_commits "/empty" (New fs0) in
  root <$> disk (New fs0) !! "/empty" = Some (Dir []) ∧
  fst r = Val ("", Some ErrEmptyCommit) ∧
  fst a = Val (0, Some ErrEmptyCommit) ∧
  mappings (snd a) !! "/empty" = None ∧
  fst (createTmpRepository refuses_empty_commits "/repo" (New fs0))
    = Val (tmpName 0, None).
Proof. vm_compute. split_and!; done. Qed.

(** C10 fails on the code: when the commit fails, [createTmpRepository]
    returns the empty path with the error, and the temporary directory it
    created, with the copy in it, stays on the disk: it is neither removed
    nor returned. *)
Lemma C10_failed_build_keeps_directory :
  let r := createTmpRepository no_commit "/repo" (New fs0) in
  fst r = Val ("", Some commit_failed) ∧
  disk (New fs0) !! tmpName 0 = None ∧
  is_Some (disk (snd r) !! tmpName 0).
Proof. vm_compute. split_and!; try done. eexists; reflexivity. Qed.

End Instances.

End Properties.

(** * More facts about strings and paths *)

Module MorePathFacts.
Import GoStrings GoPath PathFacts Notions.

Lemma rev_app_app a b acc :
  String.rev_app (a +:+ b) acc = String.rev_app b (String.rev_app a acc).
Proof.
  revert acc. induction a as [|c a IH]; intros acc; [done|].
  rewrite app_cons. simpl. apply IH.
Qed.

Lemma prefix_rev_app_lacks c s acc :
  lacks c s → s ≠ "" →
  String.prefix (String c "") (String.rev_app s acc) = false.
Proof.
  revert acc. induction s as [|x s IH]; intros acc Hl Hne; [done|].
  destruct Hl as [Hx Hs]. simpl. destruct s as [|y s].
  - simpl. destruct (ascii_dec c x) as [->|]; done.
  - by apply IH.
Qed.

Lemma String_length_app a b :
  String.length (a +:+ b) = (String.length a + String.length b)%nat.
Proof. induction a as [|c a IH]; [done|]. rewrite app_cons. simpl. by rewrite IH. Qed.

Lemma substring_app a b : String.substring 0 (String.length a) (a +:+ b) = a.
Proof.
  induction a as [|c a IH]; [by destruct b|].
  rewrite app_cons. simpl. by rewrite IH.
Qed.

(** [TrimSuffix] removes the slash that ends the name of a directory in the
    listing, and leaves alone what does not end in a slash. *)
Lemma TrimSuffix_slash name : TrimSuffix (name +:+ "/") "/" = name.
Proof.
  unfold TrimSuffix, HasSuffix, String.rev.
  rewrite rev_app_app. simpl.
  destruct (ascii_dec "/" "/"); [|done].
  assert (∀ x, String.prefix "" x = true) as -> by (by intros []).
  rewrite String_length_app. simpl.
  replace (String.length name + 1 - 1)%nat with (String.length name) by lia.
  apply substring_app.
Qed.

Lemma TrimSuffix_kept pre last :
  lacks Separator last → last ≠ "" →
  TrimSuffix (pre +:+ last) "/" = pre +:+ last.
Proof.
  intros Hl Hne. unfold TrimSuffix, HasSuffix, String.rev.
  rewrite rev_app_app. change (String.rev_app "/" "") with "/".
  by rewrite (prefix_rev_app_lacks Separator last).
Qed.

Lemma Split_all_lack s sep : Forall (lacks sep) (Split s sep).
Proof.
  induction s as [|c s IH]; simpl; [by repeat constructor|].
  case_decide.
  - by constructor.
  - destruct (Split s sep) as [|seg segs]; [by repeat constructor|].
    apply Forall_cons in IH as [? ?]. by constructor.
Qed.

Lemma Split_concat l sep :
  l ≠ [] → Forall (lacks sep) l →
  Split (String.concat (String sep "") l) sep = l.
Proof.
  induction l as [|x l IH]; intros Hne Hall; [done|].
  apply Forall_cons in Hall as [Hx Hl]. destruct l as [|y l].
  - simpl. by apply Split_lacks.
  - change (String.concat (String sep "") (x :: y :: l))
      with (x +:+ String sep (String.concat (String sep "") (y :: l))).
    rewrite Split_app_sep, (Split_lacks x) by done.
    rewrite IH by done. done.
Qed.

Lemma clean_step_scanned rooted stk c :
  lacks Separator c → scanned rooted stk →
  scanned rooted (clean_step rooted stk c).
Proof.
  intros Hc Hs. unfold clean_step. repeat case_decide; subst; try done.
  - destruct stk as [|top below].
    + destruct rooted; [constructor|].
      constructor; [constructor|done..|]. auto.
    + case_decide as Htop.
      * subst. inversion Hs as [|? ? ? ? ? ? Hdd]; subst.
        destruct (Hdd eq_refl) as [-> _].
        constructor; [done..|]. intros _. split; [done|]. right. eauto.
      * by inversion Hs.
  - constructor; [done..|]. by intros ->.
Qed.

Lemma foldl_scanned rooted l stk :
  Forall (lacks Separator) l → scanned rooted stk →
  scanned rooted (foldl (clean_step rooted) stk l).
Proof.
  revert stk. induction l as [|c l IH]; intros stk Hall Hs; [done|].
  apply Forall_cons in Hall as [Hc Hl]. simpl.
  apply IH; [done|]. by apply clean_step_scanned.
Qed.

(** Scanning the output of a scan again gives the same output. *)
Lemma scanned_replay rooted stk :
  scanned rooted stk → foldl (clean_step rooted) [] (rev stk) = stk.
Proof.
  induction 1 as [|e stk Hs IH He1 He2 He3 Hdd]; [done|].
  simpl. rewrite foldl_app, IH. simpl. unfold clean_step.
  rewrite !decide_False by done. case_decide as Hd; [|done].
  destruct (Hdd Hd) as [-> [->|[t ->]]]; [done|].
  by rewrite decide_True.
Qed.

Lemma prefix_sep_app s t :
  s ≠ "" → String.prefix "/" (s +:+ t) = String.prefix "/" s.
Proof.
  destruct s as [|c s]; [done|]. intros _. rewrite app_cons.
  change (String.prefix "/" (String c (s +:+ t)))
    with (if ascii_dec "/" c then String.prefix "" (s +:+ t) else false).
  change (String.prefix "/" (String c s))
    with (if ascii_dec "/" c then String.prefix "" s else false).
  destruct (ascii_dec "/" c); [|done].
  assert (∀ x, String.prefix "" x = true) as Hp by (by intros []).
  by rewrite !Hp.
Qed.

Lemma elem_of_rev (x : string) l : x ∈ rev l ↔ x ∈ l.
Proof. rewrite !list_elem_of_In. symmetry. apply in_rev. Qed.

Lemma scanned_all_lack rooted stk :
  scanned rooted stk → Forall (lacks Separator) stk.
Proof. induction 1; by constructor. Qed.

(** [Clean] of a path that is not empty, seen as a scan: the result is
    not empty, is rooted when the path is, and scans to what the path
    scans to. *)
Lemma Clean_scan x :
  x ≠ "" →
  let rooted := String.prefix "/" x in
  Clean x ≠ "" ∧
  String.prefix "/" (Clean x) = rooted ∧
  foldl (clean_step rooted) [] (Split (Clean x) Separator) =
    foldl (clean_step rooted) [] (Split x Separator).
Proof.
  intros Hx rooted. unfold Clean. rewrite decide_False by done.
  fold rooted. unfold clean_elems, GoStrings.Join.
  set (stk := foldl (clean_step rooted) [] (Split x Separator)).
  assert (scanned rooted stk) as Hs.
  { apply foldl_scanned; [apply Split_all_lack|constructor]. }
  pose proof (scanned_all_lack _ _ Hs) as Hl.
  assert (Forall (lacks Separator) (rev stk)) as Hlr.
  { apply Forall_forall. intros e He. rewrite Forall_forall in Hl.
    apply Hl. by apply elem_of_rev. }
  assert (∀ l, l ≠ [] → Forall (lacks Separator) l →
            Split (String.concat "/" l) Separator = l) as Hsplit.
  { intros l. apply (Split_concat l Separator). }
  assert (∀ y, String.prefix "" y = true) as Hp by (by intros []).
  pose proof (scanned_replay _ _ Hs) as Hreplay.
  clearbody stk. destruct (rev stk) as [|e l] eqn:Hrev.
  - simpl in Hreplay. subst stk. destruct rooted; simpl.
    + split; [done|]. split; [done|]. done.
    + split; [done|]. split; [done|]. done.
  - assert (e ≠ "" ∧ lacks Separator e) as [He1 He2].
    { assert (e ∈ stk) as Hin.
      { apply elem_of_rev. rewrite Hrev. by apply elem_of_cons; left. }
      clear -Hs Hin.
      induction Hs as [|e' stk' Hs IH]; [by apply elem_of_nil in Hin|].
      apply elem_of_cons in Hin as [->|Hin]; [done|by apply IH]. }
    destruct rooted.
    + change ("/" +:+ String.concat "/" (e :: l))
        with ("" +:+ String Separator (String.concat "/" (e :: l))).
      split; [by rewrite app_empty_l|]. split.
      { rewrite app_empty_l.
        change (String.prefix "/" (String Separator ?y))
          with (if ascii_dec "/" "/" then String.prefix "" y else false).
        destruct (ascii_dec "/" "/"); [apply Hp|done]. }
      rewrite Split_app_sep, Hsplit by done. simpl. done.
    + rewrite decide_False by done.
      assert (∃ c e', e = String c e' ∧ c ≠ Separator) as (c & e' & -> & Hc).
      { destruct e as [|c e']; [done|]. destruct He2 as [? _]. eauto. }
      split_and!.
      * destruct l; simpl; [done|]. by rewrite app_cons.
      * destruct l; simpl; [by apply prefix_sep_cons|].
        rewrite app_cons. by apply prefix_sep_cons.
      * by rewrite Hsplit.
Qed.

(** Cleaning before joining an element changes nothing. *)
Lemma Clean_join x b :
  x ≠ "" →
  Clean (Clean x +:+ String Separator b) = Clean (x +:+ String Separator b).
Proof.
  intros Hx. destruct (Clean_scan x Hx) as (Hne & Hroot & Hscan).
  unfold Clean at 1 3.
  destruct (decide (Clean x +:+ String Separator b = ""))
    as [[? _]%app_eq_empty|_]; [done|].
  destruct (decide (x +:+ String Separator b = ""))
    as [[? _]%app_eq_empty|_]; [done|].
  rewrite !prefix_sep_app by done. rewrite Hroot.
  unfold clean_elems. rewrite !Split_app_sep, !foldl_app. by rewrite Hscan.
Qed.

Lemma Join_nonempty p a : a ≠ "" → Join [p; a] ≠ "".
Proof.
  intros Ha. simpl. case_decide as Hp.
  - rewrite decide_False by done. unfold GoStrings.Join. simpl.
    by destruct (Clean_scan a Ha) as (? & _).
  - unfold GoStrings.Join. simpl.
    assert (p +:+ "/" +:+ a ≠ "") as Hne
      by (intros [? _]%app_eq_empty; done).
    by destruct (Clean_scan _ Hne) as (? & _).
Qed.

(** Joining in two steps is joining at once. *)
Lemma Join_Join p a b :
  a ≠ "" → Join [Join [p; a]; b] = Join [p; a +:+ String Separator b].
Proof.
  intros Ha. pose proof (Join_nonempty p a Ha) as Hne.
  assert (Join [Join [p; a]; b] =
          Clean (Join [p; a] +:+ String Separator b)) as ->.
  { simpl. by rewrite decide_False. }
  simpl. case_decide as Hp.
  - rewrite !decide_False; [|intros [? _]%app_eq_empty; done|done].
    unfold GoStrings.Join. simpl. by apply Clean_join.
  - unfold GoStrings.Join. simpl.
    rewrite Clean_join by (intros [? _]%app_eq_empty; done).
    change (a +:+ String Separator b) with (a +:+ "/" +:+ b).
    change (String Separator b) with ("/" +:+ b).
    by rewrite !app_assoc.
Qed.

(** The source path the copy reaches along the elements of a relative
    path is the source root joined with the relative path. *)
Lemma descend_src_Join p c rest :
  c ≠ "" → descend_src p (c :: rest) = Join [p; relative_path (c :: rest)].
Proof.
  unfold descend_src, relative_path, GoStrings.Join. cbn [foldl].
  revert c. induction rest as [|r rest IH]; intros c Hc; [done|].
  cbn [foldl]. rewrite Join_Join by done.
  rewrite IH by (intros [? _]%app_eq_empty; done).
  f_equal. f_equal. destruct rest as [|x l]; [done|].
  change (String.concat "/" ((c +:+ String Separator r) :: x :: l))
    with ((c +:+ "/" +:+ r) +:+ "/" +:+ String.concat "/" (x :: l)).
  change (String.concat "/" (c :: r :: x :: l))
    with (c +:+ "/" +:+ (r +:+ "/" +:+ String.concat "/" (x :: l))).
  by rewrite !app_assoc.
Qed.

(** A relative path ends with its last element. *)
Lemma relative_path_last comps :
  comps ≠ [] →
  ∃ pre last, relative_path comps = pre +:+ last ∧ last ∈ comps.
Proof.
  intros Hne. destruct (exists_last Hne) as (init & last & ->).
  unfold relative_path, GoStrings.Join. rewrite concat_snoc.
  case_decide.
  - exists "", last. split; [done|]. apply elem_of_app. right.
    by apply list_elem_of_singleton.
  - exists (String.concat "/" init +:+ "/"), last.
    split; [by rewrite !app_assoc|]. apply elem_of_app. right.
    by apply list_elem_of_singleton.
Qed.

(** The line of the listing for a relative path, with or without the
    slash of a directory, is trimmed to the relative path. *)
Lemma TrimSuffix_relative_path comps line :
  comps ≠ [] → Forall ordinary comps →
  line = relative_path comps ∨ line = relative_path comps +:+ "/" →
  TrimSuffix line "/" = relative_path comps.
Proof.
  intros Hne Hall [->| ->]; [|apply TrimSuffix_slash].
  destruct (relative_path_last comps Hne) as (pre & last & -> & Hin).
  rewrite Forall_forall in Hall. destruct (Hall last Hin) as (? & _ & _ & ?).
  by apply TrimSuffix_kept.
Qed.

Lemma relative_path_cons d r rest :
  relative_path (d :: r :: rest) = d +:+ "/" +:+ relative_path (r :: rest).
Proof. done. Qed.

Lemma app_sep_inj c a b r r' :
  lacks c a → lacks c b → a +:+ String c r = b +:+ String c r' → a = b.
Proof.
  revert b. induction a as [|x a IH]; intros [|y b] Ha Hb; try done.
  - rewrite app_empty_l, app_cons. intros; simplify_eq. by destruct Hb.
  - rewrite app_empty_l, app_cons. intros; simplify_eq. by destruct Ha.
  - rewrite !app_cons. intros; simplify_eq. f_equal.
    destruct Ha, Hb. by eapply IH.
Qed.

End MorePathFacts.

(** * More of the behaviour of the service *)

Module Behaviour.
Import Tree Gitservice PathFacts TreeFacts Properties Notions MorePathFacts.

#[local] Arguments copy_node : simpl never.
#[local] Arguments GoPath.Join : simpl never.
#[local] Arguments ignore_of : simpl never.
#[local] Arguments Skip : simpl never.
#[local] Arguments worktree_files : simpl never.

Section Build.
Context (env : Env).

(** *** What a build leaves alone *)

Lemma createTmpRepository_keeps path s q d :
  disk s !! q = Some d →
  disk (snd (createTmpRepository env path s)) !! q = Some d.
Proof.
  intros Hq. unfold_M. simpl. cases; try done.
  all: match goal with
       | Hn : disk ?s0 !! ?t = None |- _ =>
           assert (t ≠ q) as Hne by congruence
       end.
  all: by rewrite ?lookup_alter_ne, lookup_insert_ne by done.
Qed.

(** X1: [AddGit] leaves as it was every directory that was on the disk
    before the call and that the new temporary directory is not created in
    or below (its path is not the beginning of the path of the temporary
    directory): the source directory, the snapshots of the other paths and
    the like keep their trees and repositories, whatever the outcome of the
    call.  The directory the temporary directory is created in gets a new
    entry, and is left out. *)
Theorem AddGit_keeps_directories path s q d :
  disk s !! q = Some d →
  (∀ tmp, mkdirTemp env (attempts s) = inr tmp → String.prefix q tmp = false) →
  disk (snd (AddGit env path s)) !! q = Some d.
Proof.
  intros Hq _. rewrite AddGit_unfold.
  destruct (mappings s !! path); [done|].
  rewrite build_and_start_unfold.
  pose proof (createTmpRepository_keeps path s q d Hq) as Hk.
  destruct (createTmpRepository env path s) as [[[tmp [e|]]|r] s1];
    simpl in *; try done.
  destruct (newGitServerErr env (attempts s)); [done|].
  destruct (getFreePort env (attempts s)); done.
Qed.

(** *** Panics *)

(** X2: [AddGit] panics in one case only, when [git.PlainInit] has failed
    during the build after a lookup that missed; and then the registry, the
    wait group, the servers and the goroutines are as before the call. *)
Theorem AddGit_panics_only_on_init_failure path s r s' :
  AddGit env path s = (Panic r, s') →
  mappings s !! path = None ∧
  is_Some (plainInitErr env (attempts s)) ∧
  mappings s' = mappings s ∧ wg s' = wg s ∧
  servers s' = servers s ∧ goroutines s' = goroutines s.
Proof.
  rewrite AddGit_unfold. destruct (mappings s !! path) eqn:Hm; [done|].
  rewrite build_and_start_unfold.
  pose proof (createTmpRepository_frame env path s) as (F1 & F2 & F3 & F4 & _).
  destruct (createTmpRepository env path s) as [[[tmp [e|]]|r0] s1] eqn:Hc;
    simpl in *.
  - done.
  - destruct (newGitServerErr env (attempts s)); [done|].
    destruct (getFreePort env (attempts s)); done.
  - intros; simplify_eq. split; [done|]. split; [|done].
    clear -Hc. unfold_M. simpl in Hc. cases; eauto.
Qed.

(** *** The log of a failed build *)

(** X3: a build that returns an error has either failed to create its
    temporary directory, and then it has logged nothing, or it has logged
    the error it returns: the last entry of the log is at the error level
    and carries the message of that error. *)
Theorem createTmpRepository_logs_its_error path s v e s' :
  createTmpRepository env path s = (Val (v, Some e), s') →
  (logs s' = logs s ∧
   (mkdirTemp env (attempts s) = inl e ∨
    ∃ tmp, mkdirTemp env (attempts s) = inr tmp ∧ is_Some (disk s !! tmp))) ∨
  (∃ fmt, last (logs s') =
            Some {| level := LError; format := fmt; args := [Error e] |}).
Proof.
  intros H. unfold_M. simpl in H. cases.
  all: try (left; split; [done|]; (by left) || (right; eauto)).
  all: right; eexists; apply last_snoc.
Qed.

(** *** A source path that does not exist *)

(** X4: [AddGit] of a path that is not on the disk returns the port 0 and
    the error of the copy, no such file or directory; nothing is recorded,
    and the temporary directory the build created stays behind, empty. *)
Theorem AddGit_missing_source path s tmp :
  mappings s !! path = None →
  disk s !! path = None →
  mkdirTemp env (attempts s) = inr tmp → disk s !! tmp = None →
  tmp ≠ path →
  ∃ s', AddGit env path s = (Val (0, Some (ErrNotExist path)), s') ∧
        mappings s' = mappings s ∧
        disk s' !! tmp = Some {| root := Dir []; gitDir := None |}.
Proof.
  intros Hm Hsrc Hmk Hfree Hne. rewrite AddGit_unfold, Hm, build_and_start_unfold.
  assert (∃ s1, createTmpRepository env path s =
                  (Val ("", Some (ErrNotExist path)), s1) ∧
                mappings s1 = mappings s ∧
                disk s1 !! tmp = Some {| root := Dir []; gitDir := None |})
    as (s1 & -> & ? & ?); [|eauto].
  unfold_M. simpl. rewrite Hmk. simpl. rewrite Hfree. simpl.
  destruct (lsFiles env (attempts s) path) as [[cmdOut cmdErr] [e'|]]; simpl;
    rewrite lookup_insert_ne, Hsrc by done; simpl;
    (eexists; split; [done|]; split; [done|]; simpl; apply lookup_insert_eq).
Qed.

End Build.

(** *** The registry, the servers and the goroutines *)

Section Registry.
Context (env : Env).

Lemma alike_refl l : alike l l.
Proof. by apply Forall_Forall2_diag, Forall_forall. Qed.

Lemma galike_refl l : galike l l.
Proof. by apply Forall_Forall2_diag, Forall_forall. Qed.

Lemma alike_alter st h l : alike l (alter (set_sstate st) h l).
Proof.
  revert h. induction l as [|x l IH]; intros [|h]; simpl.
  - constructor.
  - constructor.
  - constructor; [done|apply alike_refl].
  - constructor; [done|apply IH].
Qed.

Lemma galike_alter st g l : galike l (alter (set_gstate st) g l).
Proof.
  revert g. induction l as [|x l IH]; intros [|g]; simpl.
  - constructor.
  - constructor.
  - constructor; [done|apply galike_refl].
  - constructor; [done|apply IH].
Qed.

Lemma Shutdown_range_alike ms s :
  alike (servers s) (servers (snd (Shutdown_range ms s))).
Proof.
  revert s. induction ms as [|m ms IH]; intros s; [apply alike_refl|].
  cbn [Shutdown_range]. unfold bind at 1, Shutdown_body.
  unfold http_Shutdown, os_RemoveAll, bind, modify. simpl.
  set (s1 := set_disk _ _). pose proof (IH s1) as H1.
  assert (alike (servers s) (servers s1)) as H0 by apply alike_alter.
  unfold alike in *. eapply Forall2_trans; [|exact H0|exact H1].
  intros a b c [? ?] [? ?]. split; congruence.
Qed.

Lemma consistent_alike s s' :
  consistent s → mappings s' = mappings s →
  alike (servers s) (servers s') → galike (goroutines s) (goroutines s') →
  consistent s'.
Proof.
  intros [H1 H2 H3 H4 H5] Hm Hsv Hg.
  pose proof (Forall2_length _ _ _ Hsv) as Hl1.
  pose proof (Forall2_length _ _ _ Hg) as Hl2.
  split; rewrite ?Hm.
  - congruence.
  - congruence.
  - intros i gr Hi.
    destruct (Forall2_lookup_r _ _ _ _ _ Hg Hi) as (gr0 & Hgr0 & Heq).
    rewrite <-Heq. by apply H3.
  - intros path m Hpm. destruct (H4 path m Hpm) as (sv & Hsv0 & Ha & Hh).
    destruct (Forall2_lookup_l _ _ _ _ _ Hsv Hsv0) as (sv' & Hsv' & Ha' & Hh').
    exists sv'. split; [done|]. split; congruence.
  - done.
Qed.

Lemma started_consistent path tmp p s :
  mappings s !! path = None → consistent s →
  consistent (started path tmp p s).
Proof.
  intros Hm [H1 H2 H3 H4 H5]. split; simpl.
  - rewrite !length_app. simpl. lia.
  - rewrite map_size_insert_None, length_app by done. simpl. lia.
  - intros i gr [Hi|[Hge Hi]]%lookup_app_Some; [by apply H3|].
    destruct (i - length (goroutines s))%nat eqn:Hd; simplify_eq/=. lia.
  - intros q m [[<- <-]|[Hne Hq]]%lookup_insert_Some; simpl.
    + eexists. split; [by apply list_lookup_middle|]. done.
    + destruct (H4 q m Hq) as (sv & Hsv & ? & ?). exists sv.
      split; [|done]. by apply lookup_app_l_Some.
  - assert (∀ q m, mappings s !! q = Some m →
              (server m < length (servers s))%nat) as Hlt.
    { intros q m Hq. destruct (H4 q m Hq) as (sv & Hsv & _).
      by apply lookup_lt_Some in Hsv. }
    intros p1 p2 m1 m2 [[<- <-]|[Hne1 Hq1]]%lookup_insert_Some
      [[<- <-]|[Hne2 Hq2]]%lookup_insert_Some; simpl; try done.
    + intros Heq. pose proof (Hlt _ _ Hq2). lia.
    + intros Heq. pose proof (Hlt _ _ Hq1). lia.
    + by apply H5.
Qed.

Lemma exec_consistent ev s s' :
  exec env ev s = Some s' → consistent s → consistent s'.
Proof.
  intros Hex Hinv. destruct ev as [q|order| |g|g|g]; simpl in Hex.
  - simplify_eq. rewrite AddGit_unfold.
    destruct (mappings s !! q) as [mq|] eqn:Hq; [done|].
    rewrite build_and_start_unfold.
    pose proof (createTmpRepository_frame env q s) as (F1 & _ & F3 & F4 & _).
    assert (∀ s1, mappings s1 = mappings s → servers s1 = servers s →
              goroutines s1 = goroutines s → consistent s1) as Hsame.
    { intros s1 E1 E3 E4. apply (consistent_alike s); [done|done|..].
      - rewrite E3. apply alike_refl.
      - rewrite E4. apply galike_refl. }
    destruct (createTmpRepository env q s) as [[[tmp [e|]]|r] s1]; simpl in *;
      [by apply Hsame| |by apply Hsame].
    destruct (newGitServerErr env (attempts s)); [by apply Hsame|].
    destruct (getFreePort env (attempts s)); [by apply Hsame|].
    simpl. apply started_consistent; [by rewrite F1|by apply Hsame].
  - unfold Shutdown_loop in Hex. case_decide; [|done]. simplify_eq.
    destruct (Shutdown_range_frame order s) as (_ & Hm & _ & Hg & _).
    apply (consistent_alike s); [done|done|apply Shutdown_range_alike|].
    rewrite Hg. apply galike_refl.
  - unfold wg_Wait in Hex. case_decide; by simplify_eq.
  - unfold serve in Hex.
    destruct (goroutines s !! g) as [gr|] eqn:Hg; [|done]. simpl in Hex.
    destruct (servers s !! gserver gr) as [sv|]; [|done]. simpl in Hex.
    destruct (gstate gr); [|done..].
    destruct (sstate sv); simplify_eq;
      try (apply (consistent_alike s); simpl;
           [done|done|apply alike_refl|apply galike_alter]);
      (destruct (listenErr env (gserver gr)); simplify_eq;
       apply (consistent_alike s); simpl; try done;
       first [apply alike_refl|apply alike_alter|apply galike_alter]).
  - unfold serve_return in Hex.
    destruct (goroutines s !! g) as [gr|] eqn:Hg; [|done]. simpl in Hex.
    destruct (servers s !! gserver gr) as [sv|]; [|done]. simpl in Hex.
    destruct (gstate gr); [done| |done].
    destruct (sstate sv); simplify_eq.
    apply (consistent_alike s); simpl;
      [done|done|apply alike_refl|apply galike_alter].
  - apply serve_fail_inv in Hex as (gr & sv & _ & _ & _ & _ & ->).
    apply (consistent_alike s); simpl;
      [done|done|apply alike_alter|apply galike_alter].
Qed.

Lemma run_consistent evs s s' :
  run env evs s = Some s' → consistent s → consistent s'.
Proof.
  revert s. induction evs as [|ev evs IH]; intros s; simpl.
  - by intros; simplify_eq.
  - destruct (exec env ev s) as [s1|] eqn:Hex; [|done]. simpl.
    intros Hrun Hinv. eapply IH; [done|]. by eapply exec_consistent.
Qed.

Lemma New_consistent fs : consistent (New fs).
Proof. split; simpl; try done; intros; simplify_map_eq. Qed.

(** X5: in every state an execution from a new service reaches, a mapping
    points to a server that exists, whose address is [0.0.0.0] with the
    port of the mapping and whose handler serves the snapshot directory of
    the mapping, with tracing off, repository names as on GitHub and the
    master branch only. *)
Theorem mapping_has_its_server fs evs s path m :
  run env evs (New fs) = Some s →
  mappings s !! path = Some m →
  ∃ sv, servers s !! server m = Some sv ∧
        Addr sv = "0.0.0.0:" +:+ pretty (port m) ∧
        Handler sv = {| Path := tmpDir m; Debug := false;
                        PreCreate := UseGithubRepoNames;
                        PreReceive := MasterOnly |}.
Proof.
  intros Hrun Hm.
  destruct (run_consistent evs (New fs) s Hrun (New_consistent fs)) as [_ _ _ H _].
  exact (H path m Hm).
Qed.

(** X6: in every state an execution from a new service reaches, there are
    as many servers as mappings and as many goroutines as servers, the
    [i]-th goroutine serves the [i]-th server, and two paths never share a
    server. *)
Theorem one_server_per_path fs evs s :
  run env evs (New fs) = Some s →
  size (mappings s) = length (servers s) ∧
  length (goroutines s) = length (servers s) ∧
  (∀ i gr, goroutines s !! i = Some gr → gserver gr = i) ∧
  (∀ p1 p2 m1 m2, mappings s !! p1 = Some m1 → mappings s !! p2 = Some m2 →
     p1 ≠ p2 → server m1 ≠ server m2).
Proof.
  intros Hrun.
  destruct (run_consistent evs (New fs) s Hrun (New_consistent fs))
    as [H1 H2 H3 _ H5].
  split_and!; try done. intros p1 p2 m1 m2 Hm1 Hm2 Hne Heq.
  apply Hne. by eapply H5.
Qed.

(** *** The snapshots, until [Shutdown] *)

Lemma createTmpRepository_snapshot path s tmp s' :
  createTmpRepository env path s = (Val (tmp, None), s') →
  disk s !! tmp = None ∧
  ∃ d repo c, disk s' !! tmp = Some d ∧ gitDir d = Some repo ∧
              isBare repo = false ∧ commits repo = [c] ∧
              Author c = vulcan ∧ Message c = "" ∧ tracked c = index repo.
Proof.
  intros H. unfold_M. simpl in H. cases.
  all: split; [done|]; rewrite !lookup_alter_eq, lookup_insert_eq; simpl.
  all: by eexists _, _, _.
Qed.

Lemma snapshots_kept s s' :
  snapshots_intact s → mappings s' = mappings s →
  (∀ q d, disk s !! q = Some d → disk s' !! q = Some d) →
  snapshots_intact s'.
Proof.
  intros [H1 H2] Hm Hd. split; rewrite Hm; [|done].
  intros path m Hpm. destruct (H1 path m Hpm) as (d & repo & c & Hdk & Hrest).
  exists d, repo, c. split; [by apply Hd|done].
Qed.

Lemma exec_snapshots ev s s' :
  exec env ev s = Some s' → is_shutdown_loop ev = false →
  snapshots_intact s → snapshots_intact s'.
Proof.
  intros Hex Hev Hinv. destruct ev as [q|order| |g|g|g]; simpl in Hex, Hev.
  - simplify_eq. rewrite AddGit_unfold.
    destruct (mappings s !! q) as [mq|] eqn:Hq; [done|].
    rewrite build_and_start_unfold.
    pose proof (createTmpRepository_frame env q s) as (F1 & _).
    pose proof (createTmpRepository_keeps env q s) as Hk.
    destruct (createTmpRepository env q s) as [[[tmp [e|]]|r] s1] eqn:Hc;
      simpl in *; [by apply (snapshots_kept s)| |by apply (snapshots_kept s)].
    destruct (newGitServerErr env (attempts s)); [by apply (snapshots_kept s)|].
    destruct (getFreePort env (attempts s)); [by apply (snapshots_kept s)|].
    destruct (createTmpRepository_snapshot q s tmp s1 Hc) as (Hfree & Hnew).
    destruct Hinv as [H1 H2]. split; simpl; rewrite F1.
    + intros path m [[<- <-]|[Hne Hpm]]%lookup_insert_Some; simpl; [done|].
      destruct (H1 path m Hpm) as (d & repo & c & Hdk & Hrest).
      exists d, repo, c. split; [by apply Hk|done].
    + assert (∀ p m, mappings s !! p = Some m → tmpDir m ≠ tmp) as Hold.
      { intros p m Hpm Heq. destruct (H1 p m Hpm) as (d & _ & _ & Hdk & _).
        congruence. }
      intros p1 p2 m1 m2 [[<- <-]|[Hne1 Hq1]]%lookup_insert_Some
        [[<- <-]|[Hne2 Hq2]]%lookup_insert_Some; simpl; try done.
      * intros Heq. symmetry in Heq. by apply Hold in Hq2.
      * intros Heq. by apply Hold in Hq1.
      * by apply H2.
  - done.
  - unfold wg_Wait in Hex. case_decide; by simplify_eq.
  - apply serve_frame in Hex as (Hm & _ & Hd).
    apply (snapshots_kept s); [done|done|]. by rewrite Hd.
  - apply serve_return_frame in Hex as (Hm & _ & Hd).
    apply (snapshots_kept s); [done|done|]. by rewrite Hd.
  - apply serve_fail_frame in Hex as (Hm & _ & Hd).
    apply (snapshots_kept s); [done|done|]. by rewrite Hd.
Qed.

Lemma run_snapshots evs s s' :
  run env evs s = Some s' → no_shutdown evs = true →
  snapshots_intact s → snapshots_intact s'.
Proof.
  revert s. induction evs as [|ev evs IH]; intros s; simpl.
  - by intros; simplify_eq.
  - destruct (exec env ev s) as [s1|] eqn:Hex; [|done]. simpl.
    intros Hrun [Hev Hrest]%andb_prop Hinv. eapply IH; [done|done|].
    eapply exec_snapshots; [done| |done]. by destruct (is_shutdown_loop ev).
Qed.

(** X7: as long as the loop of [Shutdown] has not run, the snapshot
    directory of every mapping is on the disk and holds a repository that
    is not bare, with exactly one commit, by [vulcan], with an empty
    message, of the staged files; and the snapshots of two paths are two
    directories.  Later calls of [AddGit], failed ones included, change no
    snapshot. *)
Theorem snapshots_stay_until_shutdown fs evs s :
  run env evs (New fs) = Some s →
  no_shutdown evs = true →
  (∀ path m, mappings s !! path = Some m →
     ∃ d repo c, disk s !! tmpDir m = Some d ∧ gitDir d = Some repo ∧
                 isBare repo = false ∧ commits repo = [c] ∧
                 Author c = vulcan ∧ Message c = "" ∧
                 tracked c = index repo) ∧
  (∀ p1 p2 m1 m2, mappings s !! p1 = Some m1 → mappings s !! p2 = Some m2 →
     p1 ≠ p2 → tmpDir m1 ≠ tmpDir m2).
Proof.
  intros Hrun Hno.
  assert (snapshots_intact (New fs)) as H0.
  { split; simpl; intros; simplify_map_eq. }
  destruct (run_snapshots evs (New fs) s Hrun Hno H0) as [H1 H2].
  split; [done|]. intros p1 p2 m1 m2 Hm1 Hm2 Hne Heq. apply Hne. by eapply H2.
Qed.

(** *** After [Shutdown] *)

Lemma drain_step_mappings s g : mappings (drain_step env s g) = mappings s.
Proof.
  unfold drain_step.
  destruct (serve env g s) as [s1|] eqn:H1.
  - apply serve_frame in H1 as (H1 & _).
    destruct (serve_return g s1) as [s2|] eqn:H2; [|done].
    apply serve_return_frame in H2 as (H2 & _). congruence.
  - destruct (serve_return g s) as [s2|] eqn:H2; [|done].
    by apply serve_return_frame in H2 as (H2 & _).
Qed.

Lemma drain_mappings s : mappings (drain env s) = mappings s.
Proof.
  unfold drain. generalize (seq 0 (length (goroutines s))). intros l.
  revert s. induction l as [|g l IH]; intros s; simpl; [done|].
  by rewrite IH, drain_step_mappings.
Qed.

Lemma drain_steps_servers l s :
  all_closed s → servers (foldl (drain_step env) s l) = servers s.
Proof.
  revert s. induction l as [|g l IH]; intros s Hc; simpl; [done|].
  destruct (drain_step_exits env s g Hc) as (Hsv & _ & Hstep).
  rewrite IH; [done|].
  intros g' gr' Hg' Hlive. rewrite Hsv.
  destruct (Hstep g' gr' Hg' Hlive) as [_ Hg0]. by apply (Hc g' gr').
Qed.

Lemma drain_wg s : wg_counts_live s → wg_counts_live (drain env s).
Proof.
  unfold drain. generalize (seq 0 (length (goroutines s))). intros l.
  revert s. induction l as [|g l IH]; intros s Hwg; [done|].
  simpl. apply IH. by apply drain_step_wg.
Qed.

Lemma list_alter_closed (l : list httpServer) h :
  (∀ sv, l !! h = Some sv → sstate sv = Closed) →
  alter (set_sstate Closed) h l = l.
Proof.
  intros Hc. apply list_eq. intros i. destruct (decide (h = i)) as [<-|Hne].
  - rewrite list_lookup_alter_eq. destruct (l !! h) as [sv|] eqn:Hsv; [|done].
    simpl. specialize (Hc sv eq_refl). destruct sv; simpl in *. by subst.
  - by rewrite list_lookup_alter_ne.
Qed.

Lemma Shutdown_range_again ms s :
  (∀ m, m ∈ ms → closed_at s (server m) ∧ disk s !! tmpDir m = None) →
  snd (Shutdown_range ms s) = s.
Proof.
  induction ms as [|m ms IH]; intros Hall; [done|].
  cbn [Shutdown_range]. unfold bind at 1, Shutdown_body.
  unfold http_Shutdown, os_RemoveAll, bind, modify. simpl.
  destruct (Hall m) as [Hc Hd]; [by apply elem_of_cons; left|].
  assert (set_disk (delete (tmpDir m))
            (set_servers (alter (set_sstate Closed) (server m)) s) = s) as ->.
  { unfold set_disk, set_servers. simpl.
    rewrite (list_alter_closed _ _ Hc), (delete_id _ _ Hd). by destruct s. }
  apply IH. intros m' Hin. apply Hall. by apply elem_of_cons; right.
Qed.

Lemma drain_exited s :
  Forall (λ g, gstate g = Exited) (goroutines s) → drain env s = s.
Proof.
  intros Hall. unfold drain. generalize (seq 0 (length (goroutines s))).
  intros l. induction l as [|g l IH]; simpl; [done|].
  assert (drain_step env s g = s) as ->; [|done].
  unfold drain_step, serve, serve_return.
  destruct (goroutines s !! g) as [gr|] eqn:Hg; simpl; [|done].
  rewrite Forall_lookup in Hall. rewrite (Hall g gr Hg).
  by destruct (servers s !! gserver gr).
Qed.

(** What a [Shutdown] that returned leaves, from a state an execution
    reaches. *)
Lemma Shutdown_result fs evs s order s' :
  run env evs (New fs) = Some s →
  Shutdown env order s = Some s' →
  mappings s' = mappings s ∧ wg s' = 0%nat ∧
  Forall (λ g, gstate g = Exited) (goroutines s') ∧
  ∀ m, m ∈ order →
    disk s' !! tmpDir m = None ∧
    ∃ sv, servers s' !! server m = Some sv ∧ sstate sv = Closed.
Proof.
  intros Hrun Hsh.
  pose proof (run_wg env evs (New fs) s Hrun eq_refl) as Hwg.
  assert (served s) as Hsrv.
  { apply (run_served env evs (New fs)); [done|]. intros g gr Hg.
    simpl in Hg. by rewrite lookup_nil in Hg. }
  pose proof (run_consistent evs (New fs) s Hrun (New_consistent fs))
    as [_ _ _ Hcs _].
  unfold Shutdown in Hsh.
  destruct (Shutdown_loop env order s) as [s1|] eqn:Hloop; [|done]. simpl in Hsh.
  unfold wg_Wait in Hsh. case_decide as Hz; [|done]. simplify_eq.
  pose proof (Shutdown_loop_all_closed _ _ _ _ Hloop Hsrv) as Hc.
  pose proof (exec_wg env (EvShutdownLoop order) s s1 Hloop Hwg) as Hwg1.
  pose proof (drain_wg s1 Hwg1) as Hwg2.
  pose proof (Shutdown_loop_frame _ _ _ _ Hloop) as (Hm & _).
  unfold Shutdown_loop in Hloop. case_decide as Hperm; [|done]. simplify_eq.
  destruct Hperm as [Hperm _].
  split; [by rewrite drain_mappings|]. split; [done|].
  split; [apply live_0_Exited; by rewrite <-Hwg2|].
  intros m Hin. split.
  - rewrite drain_disk. by apply Shutdown_range_removes.
  - unfold drain. rewrite drain_steps_servers by done.
    rewrite Hperm in Hin. apply list_elem_of_fmap in Hin as ([path m'] & -> & Hin).
    apply elem_of_map_to_list in Hin. simpl.
    destruct (Hcs path m' Hin) as (sv & Hsv & _).
    apply lookup_lt_Some in Hsv.
    rewrite <-(Shutdown_range_servers order s) in Hsv.
    apply lookup_lt_is_Some_2 in Hsv as [sv' Hsv']. exists sv'. split; [done|].
    eapply Shutdown_range_closes; [|done].
    rewrite Hperm. apply list_elem_of_fmap. exists (path, m'). split; [done|].
    by apply elem_of_map_to_list.
Qed.

(** X8: [Shutdown] does not empty the registry.  When it has returned, the
    mappings are all still there: an [AddGit] of a path that was served
    returns the old port with a nil error and starts nothing, although the
    server of the mapping is shut down and its snapshot directory
    removed. *)
Theorem Shutdown_leaves_stale_mappings fs evs s order s' path m :
  run env evs (New fs) = Some s →
  Shutdown env order s = Some s' →
  mappings s !! path = Some m →
  mappings s' = mappings s ∧
  AddGit env path s' = (Val (port m, None), s') ∧
  disk s' !! tmpDir m = None ∧
  ∃ sv, servers s' !! server m = Some sv ∧ sstate sv = Closed.
Proof.
  intros Hrun Hsh Hm.
  destruct (Shutdown_result fs evs s order s' Hrun Hsh) as (Hm' & _ & _ & Hall).
  assert (m ∈ order) as Hin.
  { unfold Shutdown, Shutdown_loop in Hsh. case_decide as Hperm; [|done].
    destruct Hperm as [Hperm _].
    rewrite Hperm. apply list_elem_of_fmap. exists (path, m). split; [done|].
    by apply elem_of_map_to_list. }
  destruct (Hall m Hin) as (Hd & Hsv).
  split; [done|]. split; [|done].
  apply AddGit_hit. by rewrite Hm'.
Qed.

(** X9: a second [Shutdown] is harmless.  Called again right after it has
    returned, with the mappings in the same order, [Shutdown] returns at
    once and changes nothing. *)
Theorem Shutdown_twice fs evs s order s' :
  run env evs (New fs) = Some s →
  Shutdown env order s = Some s' →
  Shutdown env order s' = Some s'.
Proof.
  intros Hrun Hsh.
  destruct (Shutdown_result fs evs s order s' Hrun Hsh)
    as (Hm' & Hwg & Hex & Hall).
  assert (order ≡ₚ (map_to_list (mappings s)).*2 ∧
          Forall (λ m, shutdownEnds env (server m) = true) order) as Hperm.
  { unfold Shutdown, Shutdown_loop in Hsh. by case_decide. }
  unfold Shutdown, Shutdown_loop. rewrite Hm', decide_True by done. simpl.
  rewrite Shutdown_range_again.
  - rewrite (drain_exited s' Hex). unfold wg_Wait. by rewrite decide_True.
  - intros m Hin. destruct (Hall m Hin) as (Hd & sv & Hsv & Hcl).
    split; [|done]. intros sv0 Hsv0. congruence.
Qed.

(** X10: a server that was shut down never listens again: whatever
    happens next, it is there, with its address, and it is closed. *)
Theorem closed_server_stays_closed evs s s' h sv :
  run env evs s = Some s' →
  servers s !! h = Some sv → sstate sv = Closed →
  ∃ sv', servers s' !! h = Some sv' ∧ sstate sv' = Closed ∧
         Addr sv' = Addr sv.
Proof.
  revert s sv. induction evs as [|ev evs IH]; intros s sv; simpl.
  - intros; simplify_eq. eauto.
  - destruct (exec env ev s) as [s1|] eqn:Hex; [|done]. simpl.
    intros Hrun Hsv Hcl.
    assert (∃ sv1, servers s1 !! h = Some sv1 ∧ sstate sv1 = Closed ∧
                   Addr sv1 = Addr sv) as (sv1 & Hsv1 & Hcl1 & Ha1).
    { destruct ev as [q|order| |g|g|g]; simpl in Hex.
      - simplify_eq. rewrite AddGit_unfold.
        destruct (mappings s !! q); [eauto|].
        rewrite build_and_start_unfold.
        pose proof (createTmpRepository_frame env q s) as (_ & _ & F3 & _).
        destruct (createTmpRepository env q s) as [[[tmp [e|]]|r] s1];
          simpl in *; [rewrite F3; eauto| |rewrite F3; eauto].
        destruct (newGitServerErr env (attempts s)); [simpl; rewrite F3; eauto|].
        destruct (getFreePort env (attempts s)); [simpl; rewrite F3; eauto|].
        simpl. rewrite F3. exists sv. split; [|done].
        by apply lookup_app_l_Some.
      - unfold Shutdown_loop in Hex. case_decide; [|done]. simplify_eq.
        destruct (Forall2_lookup_l _ _ _ _ _ (Shutdown_range_alike order s) Hsv)
          as (sv1 & Hsv1 & Ha & _).
        exists sv1. split; [done|]. split; [|done].
        apply (Shutdown_range_closed_stays order s h); [|done].
        intros sv0 Hsv0. congruence.
      - unfold wg_Wait in Hex. case_decide; simplify_eq. eauto.
      - unfold serve in Hex.
        destruct (goroutines s !! g) as [gr|] eqn:Hg; [|done]. simpl in Hex.
        destruct (servers s !! gserver gr) as [sv0|] eqn:Hsv0; [|done].
        simpl in Hex. destruct (gstate gr); [|done..].
        destruct (decide (gserver gr = h)) as [Heq|Hne].
        + rewrite Heq, Hsv in Hsv0. simplify_eq. rewrite Hcl in Hex.
          simplify_eq. simpl. eauto.
        + destruct (sstate sv0); simplify_eq; simpl; eauto;
            (destruct (listenErr env (gserver gr)); simplify_eq; simpl; eauto;
             exists sv; by rewrite list_lookup_alter_ne).
      - unfold serve_return in Hex.
        destruct (goroutines s !! g) as [gr|] eqn:Hg; [|done]. simpl in Hex.
        destruct (servers s !! gserver gr) as [sv0|]; [|done]. simpl in Hex.
        destruct (gstate gr); [done| |done].
        destruct (sstate sv0); simplify_eq. simpl. eauto.
      - apply serve_fail_inv in Hex as (gr & sv0 & _ & _ & Hsv0 & Hl & ->).
        simpl. exists sv. split; [|done].
        rewrite list_lookup_alter_ne; [done|]. intros Heq.
        rewrite Heq, Hsv in Hsv0. simplify_eq. congruence. }
    destruct (IH s1 sv1 Hrun Hsv1 Hcl1) as (sv' & ? & ? & ?).
    exists sv'. split; [done|]. split; [done|]. congruence.
Qed.

End Registry.

(** *** What the copy leaves out, and what it keeps *)

Section Exclusions.
Context (env : Env).

Lemma prune_Dir name es : prune name (Dir es) = Dir (prune_entries name es).
Proof.
  simpl. f_equal. induction es as [|[nm child] es IH]; simpl; [done|].
  by rewrite IH.
Qed.

Lemma ordinary_names_Dir es : ordinary_names (Dir es) ↔ ordinary_entries es.
Proof.
  simpl. induction es as [|[nm child] es IH]; simpl; [done|]. by rewrite IH.
Qed.

Lemma ordinary_entries_elem es nm child :
  ordinary_entries es → (nm, child) ∈ es →
  GoPath.ordinary nm ∧ ordinary_names child.
Proof.
  induction es as [|[nm' child'] es IH]; simpl.
  - by intros _ ?%elem_of_nil.
  - intros (? & ? & ?) [?|?]%elem_of_cons; [by simplify_eq|by apply IH].
Qed.

Lemma Skip_nothing_listed src nm :
  GoPath.ordinary nm →
  Skip ∅ (GoPath.Join [src; nm]) = bool_decide (nm = ".git").
Proof.
  intros Hn. unfold Skip. rewrite lookup_empty, Base_Join_child by done.
  rewrite bool_decide_eq_false_2 by (by intros [? ?]). done.
Qed.

(** Without exclusions, the copy is the tree without the entries called
    [.git]. *)
Lemma copy_without_exclusions src n :
  ordinary_names n → copy_node (Skip ∅) src n = prune ".git" n.
Proof.
  revert src. induction n as [c|es IH] using node_induction; intros src Hn.
  - done.
  - rewrite copy_node_Dir, prune_Dir. f_equal.
    apply ordinary_names_Dir in Hn.
    induction es as [|[nm child] es IHes]; [done|].
    apply Forall_cons in IH as [IHchild IHrest].
    destruct Hn as (Hnm & Hchild & Hrest).
    cbn [copy_entries prune_entries]. rewrite Skip_nothing_listed by done.
    case_bool_decide as Hgit.
    + rewrite decide_True by done. by apply IHes.
    + rewrite decide_False by done. f_equal; [|by apply IHes].
      f_equal. by apply IHchild.
Qed.

(** X13: a listing that fails, or that prints nothing, is no failure of
    the build.  When the other collaborators do their part, the build
    returns the temporary directory, and the snapshot is the source tree
    without the entries called [.git], and nothing else is left out; a
    failed listing leaves its standard error in the log, at the debug
    level. *)
Theorem build_without_listing path s sd tmp cmdOut cmdErr runErr :
  disk s !! path = Some sd →
  ordinary_names (root sd) → (∃ es, root sd = Dir es) →
  mkdirTemp env (attempts s) = inr tmp → disk s !! tmp = None →
  copyErr env (attempts s) = None →
  plainInitErr env (attempts s) = None →
  commitErr env (attempts s) = None →
  lsFiles env (attempts s) path = (cmdOut, cmdErr, runErr) →
  is_Some runErr ∨ cmdOut = "" →
  ∃ s' d,
    createTmpRepository env path s = (Val (tmp, None), s') ∧
    disk s' !! tmp = Some d ∧
    root d = prune ".git" (root sd) ∧
    (is_Some runErr →
     {| level := LDebug; format := "find .gitignored files error: %s.";
        args := [cmdErr] |} ∈ logs s').
Proof.
  intros Hsd Hord [es Hroot] Hmk Hfree Hcp Hinit Hci Hls Hdeg.
  destruct (createTmpRepository_succeeds env path s sd es tmp) as [s' Hs'];
    try done.
  destruct (createTmpRepository_ok env _ _ _ _ _ Hsd Hs')
    as (_ & _ & es' & Hes & Hd & _).
  rewrite Hroot in Hes. injection Hes as <-. simpl in Hd.
  exists s'. eexists. split; [done|]. split; [exact Hd|].
  assert (exclusions env path (attempts s) = ∅) as Hex.
  { unfold exclusions. rewrite Hls. destruct runErr; [done|].
    destruct Hdeg as [[? ?]| ->]; done. }
  split.
  - unfold snapshot. simpl. rewrite Hex, Hroot.
    apply copy_without_exclusions. by rewrite <-Hroot.
  - intros [e ->]. clear -Hs' Hls. unfold_M. simpl in Hs'.
    rewrite Hls in Hs'. cases.
    all: rewrite !elem_of_app; left; right.
    all: by apply list_elem_of_singleton.
Qed.

Lemma entry_copy_entries d skip src es c' :
  entry d (copy_entries skip src es) = Some c' →
  skip (GoPath.Join [src; d]) = false ∧
  ∃ child, c' = copy_node skip (GoPath.Join [src; d]) child.
Proof.
  induction es as [|[nm child] es IH]; cbn [copy_entries]; [done|].
  destruct (skip (GoPath.Join [src; nm])) eqn:Hsk; [done|].
  cbn [entry]. case_decide as Hd; [|done].
  intros; simplify_eq. eauto.
Qed.

(** Where the skip function answers true for the source path reached
    along [comps], the copy has nothing along [comps]. *)
Lemma descend_copy_skipped skip comps src n :
  comps ≠ [] → skip (descend_src src comps) = true →
  descend comps (copy_node skip src n) = None.
Proof.
  revert src n. induction comps as [|d rest IH]; intros src n Hne Hsk; [done|].
  destruct n as [c|es]; [done|]. rewrite copy_node_Dir. cbn [descend].
  destruct (entry d (copy_entries skip src es)) as [c'|] eqn:He; [|done].
  apply entry_copy_entries in He as (Hkept & child & ->).
  destruct rest as [|r rest].
  - unfold descend_src in Hsk. simpl in Hsk. congruence.
  - apply IH; [done|]. exact Hsk.
Qed.

(** X14: what the listing names is not in the snapshot, at any depth.  For
    a line of the listing that is a relative path of ordinary elements,
    with or without the final slash of a directory, the snapshot of a
    build that returned has no entry at that relative path. *)
Theorem listed_path_is_left_out path s sd cmdOut cmdErr line comps tmp s' :
  disk s !! path = Some sd →
  lsFiles env (attempts s) path = (cmdOut, cmdErr, None) →
  line ∈ GoStrings.Split cmdOut newline →
  comps ≠ [] → Forall GoPath.ordinary comps →
  line = relative_path comps ∨ line = relative_path comps +:+ "/" →
  createTmpRepository env path s = (Val (tmp, None), s') →
  ∃ d, disk s' !! tmp = Some d ∧ descend comps (root d) = None.
Proof.
  intros Hsd Hls Hline Hne Hall Hform Hbuild.
  destruct (createTmpRepository_ok env _ _ _ _ _ Hsd Hbuild)
    as (_ & _ & es & Hes & Hd & _).
  simpl in Hd. eexists. split; [exact Hd|]. unfold snapshot. simpl.
  apply descend_copy_skipped; [done|].
  apply Skip_ignored. unfold exclusions. rewrite Hls.
  destruct comps as [|c rest]; [done|].
  rewrite descend_src_Join; last first.
  { apply Forall_cons in Hall as [(? & _) _]. done. }
  rewrite <-(TrimSuffix_relative_path (c :: rest) line) by done.
  apply ignore_of_line; [|done].
  intros ->. simpl in Hline. apply list_elem_of_singleton in Hline.
  subst line. destruct Hform as [Hf|Hf].
  - symmetry in Hf. destruct (relative_path_last (c :: rest) Hne)
      as (pre & last & Heq & Hin).
    rewrite Heq in Hf. apply app_eq_empty in Hf as [_ ->].
    rewrite Forall_forall in Hall. by destruct (Hall "" Hin) as (? & _).
  - symmetry in Hf. by apply app_eq_empty in Hf as [_ ?].
Qed.

Lemma worktree_entries_elem es q k :
  (q, k) ∈ worktree_entries es →
  ∃ nm child, (nm, child) ∈ es ∧ (q, k) ∈ files_of nm child.
Proof.
  induction es as [|[nm child] es IH]; cbn [worktree_entries].
  - by intros ?%elem_of_nil.
  - intros [Hin|Hin]%elem_of_app.
    + exists nm, child. split; [by apply elem_of_cons; left|done].
    + destruct (IH Hin) as (nm' & child' & ? & ?). exists nm', child'.
      split; [by apply elem_of_cons; right|done].
Qed.

(** X15: what the listing names at the top of the source directory is not
    committed.  For a line that is an ordinary name, with or without the
    final slash of a directory, the one commit of the snapshot tracks no
    file under that name and no file below it. *)
Theorem listed_name_is_not_committed
    path s sd es cmdOut cmdErr line name tmp s' :
  disk s !! path = Some sd → root sd = Dir es → ordinary_entries es →
  lsFiles env (attempts s) path = (cmdOut, cmdErr, None) →
  line ∈ GoStrings.Split cmdOut newline →
  GoPath.ordinary name →
  line = name ∨ line = name +:+ "/" →
  createTmpRepository env path s = (Val (tmp, None), s') →
  ∃ d repo c,
    disk s' !! tmp = Some d ∧ gitDir d = Some repo ∧ commits repo = [c] ∧
    ∀ q k, (q, k) ∈ tracked c →
      q ≠ name ∧ ∀ r, q ≠ name +:+ "/" +:+ r.
Proof.
  intros Hsd Hroot Hord Hls Hline Hname Hform Hbuild.
  destruct (createTmpRepository_ok env _ _ _ _ _ Hsd Hbuild)
    as (_ & _ & es' & Hes & Hd & _).
  rewrite Hroot in Hes. injection Hes as <-. simpl in Hd.
  eexists _, _, _. split; [exact Hd|]. unfold snapshot. simpl.
  split; [done|]. split; [done|].
  assert (Skip (exclusions env path (attempts s)) (GoPath.Join [path; name])
          = true) as Hsk.
  { apply Skip_ignored. unfold exclusions. rewrite Hls.
    assert (GoStrings.TrimSuffix line "/" = name) as <-.
    { apply (TrimSuffix_relative_path [name] line); [done| |done].
      by apply Forall_singleton. }
    apply ignore_of_line; [|done].
    intros ->. simpl in Hline. apply list_elem_of_singleton in Hline.
    subst line. destruct Hname as (Hn & _).
    destruct Hform as [Hf|Hf]; [done|].
    symmetry in Hf. by apply app_eq_empty in Hf as [_ ?]. }
  intros q k Hq. unfold staged_files in Hq.
  destruct (addGlobErr env (attempts s)); [by apply elem_of_nil in Hq|].
  rewrite copy_node_Dir in Hq. unfold worktree_files in Hq.
  apply worktree_entries_elem in Hq as (nm & child' & Hin & Hfile).
  apply copy_entries_elem in Hin as (Hkept & child & Hsrc & ->).
  destruct (ordinary_entries_elem es nm child Hord Hsrc) as [(_ & _ & _ & Hnm) _].
  destruct Hname as (_ & _ & _ & Hnl).
  assert (nm ≠ name) as Hne by (intros ->; congruence).
  apply files_of_path in Hfile as [[-> _]|[r' ->]].
  - split; [done|]. intros r ->. by apply lacks_app_sep in Hnm.
  - split.
    + intros Heq. rewrite <-Heq in Hnl. by apply lacks_app_sep in Hnl.
    + intros r Heq. apply Hne. by eapply app_sep_inj.
Qed.

Lemma entry_copy_entries_eq d skip src es :
  entry d (copy_entries skip src es) =
  if skip (GoPath.Join [src; d]) then None
  else copy_node skip (GoPath.Join [src; d]) <$> entry d es.
Proof.
  induction es as [|[nm child] es IH]; cbn [copy_entries entry].
  - by destruct (skip _).
  - destruct (decide (nm = d)) as [->|Hne].
    + destruct (skip (GoPath.Join [src; d])) eqn:Hsk; [done|].
      cbn [entry]. by rewrite decide_True.
    + destruct (skip (GoPath.Join [src; nm])); [done|].
      cbn [entry]. by rewrite decide_False.
Qed.

(** Where the skip function answers false all the way along [comps], the
    copy has along [comps] the copy of what the source has there. *)
Lemma descend_copy_kept skip comps src n :
  kept_along skip src comps = true →
  descend comps (copy_node skip src n) =
  copy_node skip (descend_src src comps) <$> descend comps n.
Proof.
  revert src n. induction comps as [|d rest IH]; intros src n; [done|].
  cbn [kept_along]. intros [Hd Hrest]%andb_true_iff.
  apply negb_true_iff in Hd.
  destruct n as [c|es]; [done|]. rewrite copy_node_Dir. cbn [descend].
  rewrite entry_copy_entries_eq, Hd.
  destruct (entry d es) as [child|]; [|done]. simpl. by apply IH.
Qed.

Lemma entry_elem d es child : entry d es = Some child → (d, child) ∈ es.
Proof.
  induction es as [|[nm c'] es IH]; cbn [entry]; [done|].
  case_decide; intros; simplify_eq.
  - by apply elem_of_cons; left.
  - apply elem_of_cons; right. by apply IH.
Qed.

Lemma files_of_entries_intro p es nm child q k :
  (nm, child) ∈ es → (q, k) ∈ files_of (p +:+ "/" +:+ nm) child →
  (q, k) ∈ files_of_entries p es.
Proof.
  intros Hin Hq. induction es as [|[nm' c'] es IH]; cbn [files_of_entries].
  - by apply elem_of_nil in Hin.
  - apply elem_of_app. apply elem_of_cons in Hin as [?|?]; [simplify_eq|].
    + by left.
    + right. by apply IH.
Qed.

Lemma worktree_entries_intro es nm child q k :
  (nm, child) ∈ es → (q, k) ∈ files_of nm child →
  (q, k) ∈ worktree_entries es.
Proof.
  intros Hin Hq. induction es as [|[nm' c'] es IH]; cbn [worktree_entries].
  - by apply elem_of_nil in Hin.
  - apply elem_of_app. apply elem_of_cons in Hin as [?|?]; [simplify_eq|].
    + by left.
    + right. by apply IH.
Qed.

Lemma descend_files p comps n c :
  comps ≠ [] → descend comps n = Some (File c) →
  (p +:+ "/" +:+ relative_path comps, c) ∈ files_of p n.
Proof.
  revert p n. induction comps as [|d rest IH]; intros p n Hne; [done|].
  destruct n as [c'|es]; [done|]. cbn [descend].
  destruct (entry d es) as [child|] eqn:He; [|done]. intros Hrest.
  rewrite files_of_Dir. apply (files_of_entries_intro p es d child).
  { by apply entry_elem. }
  destruct rest as [|r rest].
  - simpl in Hrest. simplify_eq. by apply list_elem_of_singleton.
  - rewrite relative_path_cons.
    pose proof (IH (p +:+ "/" +:+ d) child ltac:(done) Hrest) as Hin.
    by rewrite !PathFacts.app_assoc in Hin.
Qed.

(** A file the tree has along [comps] is a file of the working tree, under
    the relative path [comps]. *)
Lemma descend_worktree comps es c :
  comps ≠ [] → descend comps (Dir es) = Some (File c) →
  (relative_path comps, c) ∈ worktree_entries es.
Proof.
  destruct comps as [|d rest]; [done|]. intros _. cbn [descend].
  destruct (entry d es) as [child|] eqn:He; [|done]. intros Hrest.
  apply (worktree_entries_intro es d child); [by apply entry_elem|].
  destruct rest as [|r rest].
  - simpl in Hrest. simplify_eq. by apply list_elem_of_singleton.
  - rewrite relative_path_cons. by apply descend_files.
Qed.

(** X16: what the copy is not told to skip is in the snapshot as it is in
    the source, at any depth.  For a regular file of the source directory,
    when the skip function answers false for every entry on the way to it,
    the snapshot of a build that returned has the file at the same relative
    path with the same content, and, when staging has not failed, the one
    commit of the snapshot tracks it under that relative path. *)
Theorem unlisted_file_is_kept path s sd comps c tmp s' :
  disk s !! path = Some sd →
  comps ≠ [] → descend comps (root sd) = Some (File c) →
  kept_along (Skip (exclusions env path (attempts s))) path comps = true →
  createTmpRepository env path s = (Val (tmp, None), s') →
  ∃ d repo k,
    disk s' !! tmp = Some d ∧ descend comps (root d) = Some (File c) ∧
    gitDir d = Some repo ∧ commits repo = [k] ∧
    (addGlobErr env (attempts s) = None →
     (relative_path comps, c) ∈ tracked k).
Proof.
  intros Hsd Hne Hfile Hkept Hbuild.
  destruct (createTmpRepository_ok env _ _ _ _ _ Hsd Hbuild)
    as (_ & _ & es & Hes & Hd & _).
  simpl in Hd. rewrite Hes in Hfile.
  assert (descend comps
            (copy_node (Skip (exclusions env path (attempts s))) path (Dir es))
          = Some (File c)) as Hcopy.
  { rewrite descend_copy_kept by done. by rewrite Hfile. }
  eexists _, _, _. split; [exact Hd|]. unfold snapshot. simpl.
  split; [done|]. split; [done|]. split; [done|].
  intros Hglob. unfold staged_files. rewrite Hglob.
  rewrite copy_node_Dir in Hcopy |- *. by apply descend_worktree.
Qed.

(** X17: the debug entry about the copy is written before the error of the
    copy is looked at.  When the copy fails, the build returns the error,
    and the log says that the source was copied to the temporary directory
    and then that the copy failed; the temporary directory stays, with what
    the copy had written before it failed and without a repository. *)
Theorem failed_copy_is_logged_as_copied path s sd tmp e :
  disk s !! path = Some sd →
  mkdirTemp env (attempts s) = inr tmp → disk s !! tmp = None →
  copyErr env (attempts s) = Some e →
  ∃ s' before,
    createTmpRepository env path s = (Val ("", Some e), s') ∧
    logs s' = before ++
      [{| level := LDebug; format := "Copied %s to %s"; args := [path; tmp] |};
       {| level := LError; format := "Error coping tmp file: %s";
          args := [Error e] |}] ∧
    disk s' !! tmp =
      Some {| root := Dir (copyLeft env (attempts s)); gitDir := None |}.
Proof.
  intros Hsd Hmk Hfree Hcp.
  assert (tmp ≠ path) as Hne by (intros ->; congruence).
  unfold_M. simpl. rewrite Hmk. simpl. rewrite Hfree. simpl.
  destruct (lsFiles env (attempts s) path) as [[cmdOut cmdErr] [re|]]; simpl;
    rewrite lookup_insert_ne, Hsd, Hcp by done; simpl.
  - eexists _, (logs s ++ [_]). split; [done|]. simpl. split.
    + by rewrite <-List.app_assoc.
    + by rewrite lookup_alter_eq, lookup_insert_eq.
  - eexists _, (logs s). split; [done|]. simpl. split.
    + by rewrite <-List.app_assoc.
    + by rewrite lookup_alter_eq, lookup_insert_eq.
Qed.

End Exclusions.

(** *** [Shutdown] and what runs beside it *)

Section Races.
Context (env : Env).

Lemma list_alter_swap {A} (f g : A → A) i j (l : list A) :
  (∀ x, f (g x) = g (f x)) →
  alter f i (alter g j l) = alter g j (alter f i l).
Proof.
  intros Hfg. apply list_eq. intros k.
  destruct (decide (i = k)) as [->|Hi], (decide (j = k)) as [->|Hj];
    rewrite ?list_lookup_alter_eq, ?list_lookup_alter_ne,
      ?list_lookup_alter_eq, ?list_lookup_alter_ne by done;
    try done.
  destruct (l !! k); simpl; [|done]. by rewrite Hfg.
Qed.

Lemma Shutdown_body_state m s :
  snd (Shutdown_body m s) =
  set_disk (delete (tmpDir m))
    (set_servers (alter (set_sstate Closed) (server m)) s).
Proof. done. Qed.

Lemma Shutdown_range_cons m ms s :
  snd (Shutdown_range (m :: ms) s) =
  snd (Shutdown_range ms (snd (Shutdown_body m s))).
Proof. done. Qed.

Lemma Shutdown_range_perm order order' s :
  order ≡ₚ order' →
  snd (Shutdown_range order s) = snd (Shutdown_range order' s).
Proof.
  intros Hp. revert s.
  induction Hp as [|m l l' _ IH|m m' l|l l' l'' _ IH1 _ IH2]; intros s.
  - done.
  - rewrite !Shutdown_range_cons. apply IH.
  - rewrite !Shutdown_range_cons, !Shutdown_body_state. f_equal.
    destruct s. unfold set_disk, set_servers. simpl.
    rewrite (delete_delete disk0 (tmpDir m)).
    by rewrite (list_alter_swap (set_sstate Closed) (set_sstate Closed)
                  (server m) (server m')).
  - by rewrite IH1.
Qed.

(** X18: the order in which the loop of [Shutdown] meets the mappings, which
    Go leaves open, makes no difference: two runs of [Shutdown] from the
    same state over two arrangements of the mappings end in the same
    state. *)
Theorem Shutdown_order_irrelevant order order' s :
  order ≡ₚ order' → Shutdown env order s = Shutdown env order' s.
Proof.
  intros Hp. unfold Shutdown, Shutdown_loop.
  assert ((order ≡ₚ (map_to_list (mappings s)).*2 ∧
           Forall (λ m, shutdownEnds env (server m) = true) order) ↔
          (order' ≡ₚ (map_to_list (mappings s)).*2 ∧
           Forall (λ m, shutdownEnds env (server m) = true) order')) as Hiff.
  { by rewrite Hp. }
  case_decide as H.
  - rewrite decide_True by (by apply Hiff).
    by rewrite (Shutdown_range_perm order order' s Hp).
  - rewrite decide_False; [done|]. by rewrite <-Hiff.
Qed.

Lemma exec_listening ev s s' g :
  exec env ev s = Some s' → is_shutdown_loop ev = false →
  is_failure_of g ev = false →
  listening_at g s → listening_at g s'.
Proof.
  intros Hex Hev Hfail (gr & sv & Hg & Hst & Hsv & Hopen).
  destruct ev as [q|order| |g'|g'|g']; simpl in Hex; [| done | | | |].
  - simplify_eq. rewrite AddGit_unfold.
    assert (∀ s1, servers s1 = servers s → goroutines s1 = goroutines s →
              listening_at g s1) as Hsame.
    { intros s1 E3 E4. exists gr, sv. by rewrite E3, E4. }
    destruct (mappings s !! q); [by apply Hsame|].
    rewrite build_and_start_unfold.
    pose proof (createTmpRepository_frame env q s) as (_ & _ & F3 & F4 & _).
    destruct (createTmpRepository env q s) as [[[tmp [e|]]|r] s1]; simpl in *;
      [by apply Hsame| |by apply Hsame].
    destruct (newGitServerErr env (attempts s)); [by apply Hsame|].
    destruct (getFreePort env (attempts s)); [by apply Hsame|].
    exists gr, sv. simpl. rewrite F3, F4.
    split_and!; try done; by apply lookup_app_l_Some.
  - unfold wg_Wait in Hex. case_decide; simplify_eq. by exists gr, sv.
  - unfold serve in Hex.
    destruct (goroutines s !! g') as [gr'|] eqn:Hg'; [|done]. simpl in Hex.
    destruct (servers s !! gserver gr') as [sv'|] eqn:Hsv'; [|done].
    simpl in Hex. destruct (gstate gr') eqn:Hst'; [|done..].
    assert (g' ≠ g) as Hne by (intros ->; congruence).
    assert (∀ st, listening_at g
              (set_goroutines (alter (set_gstate st) g') s)) as Hgo.
    { intros st. exists gr, sv. simpl.
      by rewrite list_lookup_alter_ne by done. }
    assert (listening_at g (finish g' s)) as Hfin.
    { exists gr, sv. simpl. by rewrite list_lookup_alter_ne by done. }
    assert (listening_at g
              (set_goroutines (alter (set_gstate Serving) g')
                 (set_servers (alter (set_sstate Listening) (gserver gr')) s)))
      as Hlisten.
    { destruct (decide (gserver gr' = gserver gr)) as [Heq|Hneq].
      - exists gr, (set_sstate Listening sv). simpl.
        rewrite list_lookup_alter_ne by done.
        rewrite Heq, list_lookup_alter_eq, Hsv. done.
      - exists gr, sv. simpl.
        by rewrite !list_lookup_alter_ne by done. }
    destruct (sstate sv'); simplify_eq; try done;
      destruct (listenErr env (gserver gr')); by simplify_eq.
  - unfold serve_return in Hex.
    destruct (goroutines s !! g') as [gr'|] eqn:Hg'; [|done]. simpl in Hex.
    destruct (servers s !! gserver gr') as [sv'|] eqn:Hsv'; [|done].
    simpl in Hex. destruct (gstate gr') eqn:Hst'; [done| |done].
    destruct (sstate sv') eqn:Hcl; simplify_eq.
    assert (g' ≠ g) as Hne by (intros ->; congruence).
    exists gr, sv. simpl. by rewrite list_lookup_alter_ne by done.
  - simpl in Hfail. apply bool_decide_eq_false in Hfail.
    apply serve_fail_inv in Hex as (gr' & sv' & _ & _ & _ & _ & ->).
    destruct (decide (gserver gr' = gserver gr)) as [Heq|Hneq].
    + exists gr, (set_sstate Idle sv). simpl.
      rewrite list_lookup_alter_ne by done.
      rewrite Heq, list_lookup_alter_eq, Hsv. done.
    + exists gr, sv. simpl. by rewrite !list_lookup_alter_ne by done.
Qed.

Lemma run_listening evs s s' g :
  run env evs s = Some s' → no_shutdown evs = true →
  no_failure_of g evs = true →
  listening_at g s → listening_at g s'.
Proof.
  revert s. induction evs as [|ev evs IH]; intros s; simpl.
  - by intros; simplify_eq.
  - destruct (exec env ev s) as [s1|] eqn:Hex; [|done]. simpl.
    intros Hrun [Hev Hevs]%andb_true_iff [Hf Hfs]%andb_true_iff Hl.
    apply negb_true_iff in Hev. apply negb_true_iff in Hf.
    apply (IH s1); [done|done|done|]. by apply (exec_listening ev s).
Qed.

(** X19: [Shutdown] takes no lock, and its loop shuts down the servers of
    the mappings it meets, once.  While a goroutine is inside
    [ListenAndServe] on a server that was not shut down, then as long as
    no loop of [Shutdown] runs and the serving of that goroutine does not
    fail, [wg.Wait()] cannot return, whatever the calls of [AddGit] and
    the other goroutines do: a server that [AddGit] starts after the loop
    keeps [Shutdown] waiting for as long as it serves. *)
Theorem Wait_blocks_while_a_server_listens fs evs0 s g gr sv evs s' :
  run env evs0 (New fs) = Some s →
  goroutines s !! g = Some gr → gstate gr = Serving →
  servers s !! gserver gr = Some sv → sstate sv ≠ Closed →
  no_shutdown evs = true → no_failure_of g evs = true →
  run env evs s = Some s' →
  exec env EvWaitReturn s' = None.
Proof.
  intros Hreach Hg Hst Hsv Hopen Hno Hnf Hrun.
  assert (wg_counts_live s') as Hwg.
  { apply (run_wg env evs s); [done|].
    by apply (run_wg env evs0 (New fs)). }
  assert (listening_at g s') as (gr' & sv' & Hg' & Hst' & _).
  { apply (run_listening evs s); [done|done|done|]. by exists gr, sv. }
  simpl. unfold wg_Wait. rewrite decide_False; [done|].
  rewrite Hwg.
  apply (live_alter_exit (goroutines s') g gr'); [done|]. by rewrite Hst'.
Qed.

End Races.

(** *** What decides the outcome of a call *)

Section Outcome.
Context (env : Env).


(** X21: what a build writes to the log.  Every entry it adds is one of
    four: at the debug level, that the listing failed and that the source
    was copied; at the error level, that the copy failed and that the
    commit failed.  The entry for a worktree that cannot be opened is never
    written: the repository is created with a working tree, and where it
    could not be created the call has panicked before. *)
Theorem build_log_entries path s :
  ∃ added,
    logs (snd (createTmpRepository env path s)) = logs s ++ added ∧
    Forall (λ l, (level l, format l) ∈
                   [(LDebug, "find .gitignored files error: %s.");
                    (LDebug, "Copied %s to %s");
                    (LError, "Error coping tmp file: %s");
                    (LError, "Error committing: %s")]) added.
Proof.
  unfold_M. simpl. cases; simpl; rewrite <-?List.app_assoc;
    first [ exists []; split; [by rewrite app_nil_r|by constructor]
          | eexists; split; [reflexivity|];
            repeat (apply List.Forall_cons; [simpl; set_solver|]);
            apply List.Forall_nil ].
Qed.

End Outcome.

(** *** The properties in the small world *)

Section SmallWorld.
Import Scenario.

(** X1 in the small world: the source directory after the build of its
    snapshot. *)
Lemma AddGit_keeps_directories_witness :
  disk (snd (AddGit healthy "/repo" (New fs0))) !! "/repo"
    = Some {| root := repo_tree; gitDir := None |}.
Proof.
  apply (AddGit_keeps_directories healthy "/repo" (New fs0) "/repo").
  - vm_compute. reflexivity.
  - intros tmp [= <-]. vm_compute. reflexivity.
Defined.

(** X2 in the small world: the panic of the build whose [git.PlainInit]
    fails. *)
Lemma AddGit_panics_only_on_init_failure_witness :
  let s := New fs0 in
  let s' := snd (AddGit no_init "/repo" s) in
  mappings s !! "/repo" = None ∧
  is_Some (plainInitErr no_init (attempts s)) ∧
  mappings s' = mappings s ∧ wg s' = wg s ∧
  servers s' = servers s ∧ goroutines s' = goroutines s.
Proof.
  intros s s'.
  apply (AddGit_panics_only_on_init_failure no_init "/repo" s
           "invalid memory address or nil pointer dereference" s').
  vm_compute. reflexivity.
Defined.

(** X3 in the small world: the build whose commit fails. *)
Lemma createTmpRepository_logs_its_error_witness :
  let s := New fs0 in
  let s' := snd (createTmpRepository no_commit "/repo" s) in
  (logs s' = logs s ∧
   (mkdirTemp no_commit (attempts s) = inl commit_failed ∨
    ∃ tmp, mkdirTemp no_commit (attempts s) = inr tmp ∧
           is_Some (disk s !! tmp))) ∨
  (∃ fmt, last (logs s') =
            Some {| level := LError; format := fmt;
                    args := [Error commit_failed] |}).
Proof.
  intros s s'.
  apply (createTmpRepository_logs_its_error no_commit "/repo" s "").
  vm_compute. reflexivity.
Defined.

(** X4 in the small world: [AddGit] of a path that does not exist. *)
Lemma AddGit_missing_source_witness :
  ∃ s', AddGit healthy "/nowhere" (New fs0)
          = (Val (0, Some (ErrNotExist "/nowhere")), s') ∧
        mappings s' = mappings (New fs0) ∧
        disk s' !! tmpName 0 = Some {| root := Dir []; gitDir := None |}.
Proof.
  apply (AddGit_missing_source healthy "/nowhere" (New fs0) (tmpName 0)).
  - reflexivity.
  - vm_compute. reflexivity.
  - reflexivity.
  - vm_compute. reflexivity.
  - vm_compute. discriminate.
Defined.

(** X5 in the small world: the server of [/repo]. *)
Lemma mapping_has_its_server_witness :
  let s := run_from healthy [EvAddGit "/repo"] (New fs0) in
  let m := mapping 5000 0 0 in
  ∃ sv, servers s !! server m = Some sv ∧
        Addr sv = "0.0.0.0:" +:+ pretty (port m) ∧
        Handler sv = {| Path := tmpDir m; Debug := false;
                        PreCreate := UseGithubRepoNames;
                        PreReceive := MasterOnly |}.
Proof.
  intros s m.
  apply (mapping_has_its_server healthy fs0 [EvAddGit "/repo"] s "/repo" m).
  - vm_compute. reflexivity.
  - vm_compute. reflexivity.
Defined.

(** X6 in the small world: two paths, two servers. *)
Lemma one_server_per_path_witness :
  let s := run_from healthy [EvAddGit "/repo"; EvAddGit "/empty"] (New fs0) in
  size (mappings s) = length (servers s) ∧
  length (goroutines s) = length (servers s) ∧
  (∀ i gr, goroutines s !! i = Some gr → gserver gr = i) ∧
  (∀ p1 p2 m1 m2, mappings s !! p1 = Some m1 → mappings s !! p2 = Some m2 →
     p1 ≠ p2 → server m1 ≠ server m2).
Proof.
  intros s.
  apply (one_server_per_path healthy fs0
           [EvAddGit "/repo"; EvAddGit "/empty"] s).
  vm_compute. reflexivity.
Defined.

(** X7 in the small world: two snapshots, while a server is serving. *)
Lemma snapshots_stay_until_shutdown_witness :
  let s := run_from healthy
             [EvAddGit "/repo"; EvServe 0%nat; EvAddGit "/empty"] (New fs0) in
  (∀ path m, mappings s !! path = Some m →
     ∃ d repo c, disk s !! tmpDir m = Some d ∧ gitDir d = Some repo ∧
                 isBare repo = false ∧ commits repo = [c] ∧
                 Author c = vulcan ∧ Message c = "" ∧
                 tracked c = index repo) ∧
  (∀ p1 p2 m1 m2, mappings s !! p1 = Some m1 → mappings s !! p2 = Some m2 →
     p1 ≠ p2 → tmpDir m1 ≠ tmpDir m2).
Proof.
  intros s.
  apply (snapshots_stay_until_shutdown healthy fs0
           [EvAddGit "/repo"; EvServe 0%nat; EvAddGit "/empty"] s).
  - vm_compute. reflexivity.
  - reflexivity.
Defined.

(** X8 in the small world: [AddGit] of [/repo] after [Shutdown]. *)
Lemma Shutdown_leaves_stale_mappings_witness :
  let s := run_from healthy [EvAddGit "/repo"; EvServe 0%nat] (New fs0) in
  let m := mapping 5000 0 0 in
  let s' := default s (Shutdown healthy [m] s) in
  mappings s' = mappings s ∧
  AddGit healthy "/repo" s' = (Val (port m, None), s') ∧
  disk s' !! tmpDir m = None ∧
  ∃ sv, servers s' !! server m = Some sv ∧ sstate sv = Closed.
Proof.
  intros s m s'.
  apply (Shutdown_leaves_stale_mappings healthy fs0
           [EvAddGit "/repo"; EvServe 0%nat] s [m] s' "/repo" m).
  - vm_compute. reflexivity.
  - vm_compute. reflexivity.
  - vm_compute. reflexivity.
Defined.

(** X9 in the small world: [Shutdown] twice. *)
Lemma Shutdown_twice_witness :
  let s := run_from healthy [EvAddGit "/repo"; EvServe 0%nat] (New fs0) in
  let order := [mapping 5000 0 0] in
  let s' := default s (Shutdown healthy order s) in
  Shutdown healthy order s' = Some s'.
Proof.
  intros s order s'.
  apply (Shutdown_twice healthy fs0 [EvAddGit "/repo"; EvServe 0%nat] s).
  - vm_compute. reflexivity.
  - vm_compute. reflexivity.
Defined.

(** X10 in the small world: the server of [/repo], shut down before its
    goroutine has run. *)
Lemma closed_server_stays_closed_witness :
  let s := run_from healthy
             [EvAddGit "/repo"; EvShutdownLoop [mapping 5000 0 0]] (New fs0) in
  let s' := run_from healthy [EvServe 0%nat; EvAddGit "/empty"] s in
  ∃ sv', servers s' !! 0%nat = Some sv' ∧ sstate sv' = Closed ∧
         Addr sv' = "0.0.0.0:5000".
Proof.
  intros s s'.
  apply (closed_server_stays_closed healthy
           [EvServe 0%nat; EvAddGit "/empty"] s s' 0%nat
           {| Addr := "0.0.0.0:5000"; Handler := config_of (tmpName 0);
              sstate := Closed |}).
  - vm_compute. reflexivity.
  - vm_compute. reflexivity.
  - reflexivity.
Defined.

(** X11 in the small world: [Shutdown] with two servers, one of them
    serving. *)
Lemma Shutdown_returns_witness :
  let s := run_from healthy
             [EvAddGit "/repo"; EvAddGit "/empty"; EvServe 0%nat] (New fs0) in
  ∃ s', Shutdown healthy [mapping 5001 1 1; mapping 5000 0 0] s = Some s' ∧
        Forall (λ g, gstate g = Exited) (goroutines s').
Proof.
  intros s.
  apply (Shutdown_returns healthy fs0
           [EvAddGit "/repo"; EvAddGit "/empty"; EvServe 0%nat] s).
  - vm_compute. reflexivity.
  - vm_compute. first [reflexivity | apply perm_swap].
  - repeat constructor.
Defined.

(** X13 in the small world: the build of [/repo] when the listing fails. *)
Lemma build_without_listing_witness :
  ∃ s' d,
    createTmpRepository no_listing "/repo" (New fs0)
      = (Val (tmpName 0, None), s') ∧
    disk s' !! tmpName 0 = Some d ∧
    root d = prune ".git" repo_tree ∧
    (is_Some (Some not_a_repository) →
     {| level := LDebug; format := "find .gitignored files error: %s.";
        args := ["fatal: not a git repository"] |} ∈ logs s').
Proof.
  apply (build_without_listing no_listing "/repo" (New fs0)
           {| root := repo_tree; gitDir := None |} (tmpName 0)
           "" "fatal: not a git repository" (Some not_a_repository)).
  - vm_compute. reflexivity.
  - vm_compute. split_and!; done.
  - eexists. reflexivity.
  - reflexivity.
  - vm_compute. reflexivity.
  - reflexivity.
  - reflexivity.
  - reflexivity.
  - reflexivity.
  - left. eexists. reflexivity.
Defined.

(** X14 in the small world: the listed file [docs/tmp/x.o]. *)
Lemma listed_path_is_left_out_witness :
  ∃ d, disk (snd (createTmpRepository deep "/work" (New fs1))) !! tmpName 0
         = Some d ∧
       descend ["docs"; "tmp"; "x.o"] (root d) = None.
Proof.
  apply (listed_path_is_left_out deep "/work" (New fs1)
           {| root := deep_tree; gitDir := None |} deep_listing ""
           "docs/tmp/x.o" ["docs"; "tmp"; "x.o"] (tmpName 0)).
  - vm_compute. reflexivity.
  - reflexivity.
  - vm_compute. do 2 (apply elem_of_cons; right).
    apply elem_of_cons. left. reflexivity.
  - discriminate.
  - vm_compute. repeat constructor; discriminate.
  - left. reflexivity.
  - vm_compute. reflexivity.
Defined.

(** X15 in the small world: the listed directory [build]. *)
Lemma listed_name_is_not_committed_witness :
  ∃ d repo c,
    disk (snd (createTmpRepository deep "/work" (New fs1))) !! tmpName 0
      = Some d ∧
    gitDir d = Some repo ∧ commits repo = [c] ∧
    ∀ q k, (q, k) ∈ tracked c →
      q ≠ "build" ∧ ∀ r, q ≠ "build" +:+ "/" +:+ r.
Proof.
  apply (listed_name_is_not_committed deep "/work" (New fs1)
           {| root := deep_tree; gitDir := None |}
           [("a.txt", File "alpha");
            ("ignored.log", File "noise");
            ("build", Dir [("out.bin", File "0101")]);
            ("docs", Dir [("x.md", File "x");
                          ("tmp", Dir [("x.o", File "obj");
                                       ("keep.md", File "k")])])]
           deep_listing "" "build/" "build" (tmpName 0)).
  - vm_compute. reflexivity.
  - reflexivity.
  - vm_compute. split_and!; done.
  - reflexivity.
  - vm_compute. apply elem_of_cons; right.
    apply elem_of_cons. left. reflexivity.
  - vm_compute. split_and!; done.
  - right. reflexivity.
  - vm_compute. reflexivity.
Defined.

(** X16 in the small world: the file [docs/tmp/keep.md], beside a listed
    one. *)
Lemma unlisted_file_is_kept_witness :
  ∃ d repo k,
    disk (snd (createTmpRepository deep "/work" (New fs1))) !! tmpName 0
      = Some d ∧
    descend ["docs"; "tmp"; "keep.md"] (root d) = Some (File "k") ∧
    gitDir d = Some repo ∧ commits repo = [k] ∧
    (addGlobErr deep (attempts (New fs1)) = None →
     (relative_path ["docs"; "tmp"; "keep.md"], "k") ∈ tracked k).
Proof.
  apply (unlisted_file_is_kept deep "/work" (New fs1)
           {| root := deep_tree; gitDir := None |}
           ["docs"; "tmp"; "keep.md"] "k" (tmpName 0)).
  - vm_compute. reflexivity.
  - discriminate.
  - vm_compute. reflexivity.
  - vm_compute. reflexivity.
  - vm_compute. reflexivity.
Defined.

(** X17 in the small world: the build of [/repo] when the copy fails. *)
Lemma failed_copy_is_logged_as_copied_witness :
  ∃ s' before,
    createTmpRepository no_copy "/repo" (New fs0)
      = (Val ("", Some copy_failed), s') ∧
    logs s' = before ++
      [{| level := LDebug; format := "Copied %s to %s";
          args := ["/repo"; tmpName 0] |};
       {| level := LError; format := "Error coping tmp file: %s";
          args := [Error copy_failed] |}] ∧
    disk s' !! tmpName 0 =
      Some {| root := Dir [("a.txt", File "alpha"); ("docs", Dir [])];
              gitDir := None |}.
Proof.
  apply (failed_copy_is_logged_as_copied no_copy "/repo" (New fs0)
           {| root := repo_tree; gitDir := None |} (tmpName 0) copy_failed).
  - vm_compute. reflexivity.
  - reflexivity.
  - vm_compute. reflexivity.
  - reflexivity.
Defined.

(** X18 in the small world: the two orders of two mappings. *)
Lemma Shutdown_order_irrelevant_witness :
  let s := run_from healthy
             [EvAddGit "/repo"; EvAddGit "/empty"; EvServe 0%nat] (New fs0) in
  Shutdown healthy [mapping 5000 0 0; mapping 5001 1 1] s =
  Shutdown healthy [mapping 5001 1 1; mapping 5000 0 0] s.
Proof.
  intros s.
  apply (Shutdown_order_irrelevant healthy
           [mapping 5000 0 0; mapping 5001 1 1]
           [mapping 5001 1 1; mapping 5000 0 0] s).
  apply perm_swap.
Defined.

(** X19 in the small world: the loop of [Shutdown] has shut down the server
    of [/repo]; then [AddGit] starts a server for [/empty], which serves.
    The goroutine of [/repo] returns, and [Wait] still cannot return. *)
Lemma Wait_blocks_while_a_server_listens_witness :
  let s := run_from healthy
             [EvAddGit "/repo"; EvServe 0%nat;
              EvShutdownLoop [mapping 5000 0 0];
              EvAddGit "/empty"; EvServe 1%nat] (New fs0) in
  let s' := run_from healthy [EvServeReturn 0%nat; EvAddGit "/repo"] s in
  exec healthy EvWaitReturn s' = None.
Proof.
  intros s s'.
  apply (Wait_blocks_while_a_server_listens healthy fs0
           [EvAddGit "/repo"; EvServe 0%nat;
            EvShutdownLoop [mapping 5000 0 0];
            EvAddGit "/empty"; EvServe 1%nat] s 1%nat
           {| gserver := 1; gstate := Serving |}
           {| Addr := "0.0.0.0:5001"; Handler := config_of (tmpName 1);
              sstate := Listening |}
           [EvServeReturn 0%nat; EvAddGit "/repo"] s').
  - vm_compute. reflexivity.
  - vm_compute. reflexivity.
  - reflexivity.
  - vm_compute. reflexivity.
  - discriminate.
  - reflexivity.
  - reflexivity.
  - vm_compute. reflexivity.
Defined.


End SmallWorld.

End Behaviour.
